(** * Invest: the feature and label pipeline of [source/features.py]

    A shallow embedding of the pandas pipeline

      load_long_dataset -> filter_min_history -> build_features
        -> add_targets -> finalize_dataset

    and the properties its specification states about it, followed by
    the download stage of [source/data_loader.py] ([fetch_ohlcv],
    [fetch_many]), which writes the file the pipeline reads.

    Numbers.  A pandas [float64] cell is modelled by [f64]: the three
    IEEE special values NaN, +inf, -inf, and the finite values as exact
    rationals.  The special-value rules of IEEE arithmetic (x/0, 0/0,
    inf-inf, NaN absorbing, comparisons with NaN being false) are the
    ones of the code; rounding of finite results is abstracted away, and
    the sign of zero is not tracked (a zero divisor acts as +0).

    Library functions.  [numpy.log], the square root inside
    [rolling(..).std()], the text parsers behind [pd.to_numeric] and
    [pd.to_datetime], [str(x)] on a number, the [fill_method] default
    of [pct_change] (forward fill in pandas 1.x/2.x, none in pandas 3)
    and the treatment of infinite values by the window routines belong
    to the libraries and not to the repository: they are the fields of
    the class [Pandas], and every statement holds for every instance. *)

From Stdlib Require Import String Ascii DecimalString.
From Stdlib Require Import Bool Arith ZArith QArith Qreduction Qround List.
From Stdlib Require Import Lia Lqa Permutation Sorted.
Import ListNotations.

Local Open Scope list_scope.

(* ================================================================== *)
(** * float64 cells *)
(* ================================================================== *)

Inductive f64 : Type :=
| NaN
| PInf
| NInf
| Fin (q : Q).

(** Finite results are kept in lowest terms, so that equal finite values
    are equal terms. *)
Definition fin (q : Q) : f64 := Fin (Qred q).

Definition Qltb (a b : Q) : bool := negb (Qle_bool b a).

Definition isna (x : f64) : bool :=
  match x with NaN => true | _ => false end.

Definition notna (x : f64) : bool := negb (isna x).

Definition isinf (x : f64) : bool :=
  match x with PInf | NInf => true | _ => false end.

Definition fneg (x : f64) : f64 :=
  match x with
  | NaN => NaN
  | PInf => NInf
  | NInf => PInf
  | Fin q => fin (- q)
  end.

Definition fadd (x y : f64) : f64 :=
  match x, y with
  | NaN, _ | _, NaN => NaN
  | PInf, NInf | NInf, PInf => NaN
  | PInf, _ | _, PInf => PInf
  | NInf, _ | _, NInf => NInf
  | Fin a, Fin b => fin (a + b)
  end.

Definition fsub (x y : f64) : f64 := fadd x (fneg y).

(** [inf * 0] is NaN; otherwise the sign rule. *)
Definition finf_scaled (pos : bool) (q : Q) : f64 :=
  if Qeq_bool q 0 then NaN
  else if Bool.eqb pos (Qltb 0 q) then PInf else NInf.

Definition fmul (x y : f64) : f64 :=
  match x, y with
  | NaN, _ | _, NaN => NaN
  | Fin a, Fin b => fin (a * b)
  | Fin a, PInf | PInf, Fin a => finf_scaled true a
  | Fin a, NInf | NInf, Fin a => finf_scaled false a
  | PInf, PInf | NInf, NInf => PInf
  | PInf, NInf | NInf, PInf => NInf
  end.

(** Float division never raises: a non-zero finite value over zero is an
    infinity, [0/0] and [inf/inf] are NaN. *)
Definition fdiv (x y : f64) : f64 :=
  match x, y with
  | NaN, _ | _, NaN => NaN
  | PInf, PInf | PInf, NInf | NInf, PInf | NInf, NInf => NaN
  | Fin _, PInf | Fin _, NInf => Fin 0
  | PInf, Fin b => if Qltb b 0 then NInf else PInf
  | NInf, Fin b => if Qltb b 0 then PInf else NInf
  | Fin a, Fin b =>
      if Qeq_bool b 0 then
        (if Qeq_bool a 0 then NaN else if Qltb 0 a then PInf else NInf)
      else fin (a / b)
  end.

(** Comparisons; every comparison with NaN is false, [!=] is true. *)
Definition flt (x y : f64) : bool :=
  match x, y with
  | NaN, _ | _, NaN => false
  | _, NInf => false
  | PInf, _ => false
  | NInf, _ => true
  | Fin _, PInf => true
  | Fin a, Fin b => Qltb a b
  end.

Definition fgt (x y : f64) : bool := flt y x.

Definition fle (x y : f64) : bool :=
  match x, y with
  | NaN, _ | _, NaN => false
  | NInf, _ => true
  | _, PInf => true
  | _, NInf => false
  | PInf, _ => false
  | Fin a, Fin b => Qle_bool a b
  end.

Definition feqb (x y : f64) : bool :=
  match x, y with
  | PInf, PInf | NInf, NInf => true
  | Fin a, Fin b => Qeq_bool a b
  | _, _ => false
  end.

Definition fone : f64 := Fin 1.
Definition fzero : f64 := Fin 0.
Definition fhundred : f64 := Fin 100.

(* ================================================================== *)
(** * Exceptions *)
(* ================================================================== *)

Inductive exn : Type :=
| KeyError (name : string)
| TypeError (name : string)
| ValueError (msg : string)
| ZeroDivisionError.

Inductive result (A : Type) : Type :=
| Ok (a : A)
| Raise (e : exn).

Arguments Ok {A} a.
Arguments Raise {A} e.

Definition bind {A B : Type} (c : result A) (k : A -> result B) : result B :=
  match c with
  | Ok a => k a
  | Raise e => Raise e
  end.

Notation "x <- c ;; k" := (bind c (fun x => k))
  (at level 61, c at next level, right associativity).

Definition is_ok {A : Type} (c : result A) : bool :=
  match c with Ok _ => true | Raise _ => false end.

(** [for x in xs: out = step x out], stopping at the first exception. *)
Fixpoint for_each {A S : Type} (xs : list A) (step : A -> S -> result S)
  (s : S) : result S :=
  match xs with
  | [] => Ok s
  | x :: xs' => s' <- step x s ;; for_each xs' step s'
  end.

(* ================================================================== *)
(** * Cells as read from the CSV file, and the library interface *)
(* ================================================================== *)

(** A cell of a frame produced by [pd.read_csv]: a number (NaN when the
    field is empty) or, in an [object] column, a text. *)
Inductive raw : Type :=
| RNum (x : f64)
| RStr (s : string).

Definition raw_isna (c : raw) : bool :=
  match c with RNum x => isna x | RStr _ => false end.

(** A column read as numbers: no cell is a text. *)
Definition all_numbers (v : list raw) : bool :=
  forallb (fun c => match c with RNum _ => true | RStr _ => false end) v.

Class Pandas : Type := {
  (** [numpy.log] on a positive finite number *)
  np_log : Q -> Q;
  (** square root of a non-negative finite number *)
  np_sqrt : Q -> Q;
  (** [pd.to_numeric(text, errors="coerce")]: NaN when not parseable *)
  numeric_of_text : string -> f64;
  (** [pd.to_datetime(cell, errors="coerce")]: [None] is NaT *)
  datetime_of_raw : raw -> option Z;
  (** [str(x)] of a numeric cell *)
  str_of_number : f64 -> string;
  (** whether [pct_change] forward-fills missing values first *)
  pct_change_pads : bool;
  (** whether the window routines behind [rolling] and [ewm] read an
      infinite value as a missing one (pandas 1.x and 2.x do, in
      [BaseWindow._prep_values]) *)
  window_drops_inf : bool
}.

(* ================================================================== *)
(** * Series operations *)
(* ================================================================== *)

Definition series : Type := list f64.

Fixpoint map2 {A B C : Type} (f : A -> B -> C) (l1 : list A) (l2 : list B)
  : list C :=
  match l1, l2 with
  | a :: l1', b :: l2' => f a b :: map2 f l1' l2'
  | _, _ => []
  end.

(** [s.shift(p)], [p >= 0]: values move [p] places down, NaN enters. *)
Definition shift (p : nat) (s : series) : series :=
  firstn (length s) (repeat NaN p ++ s).

(** [s.shift(-h)]: values move [h] places up, NaN enters at the end. *)
Definition shift_back (h : nat) (s : series) : series :=
  skipn h s ++ repeat NaN (Nat.min h (length s)).

(** [s.diff()] *)
Definition diff (s : series) : series := map2 fsub s (shift 1 s).

(** [s.ffill()] *)
Fixpoint ffill_from (last : f64) (s : series) : series :=
  match s with
  | [] => []
  | x :: r => let y := if isna x then last else x in y :: ffill_from y r
  end.

Definition ffill (s : series) : series := ffill_from NaN s.

(** [s.clip(lower=0)] *)
Definition clip_lower0 (s : series) : series :=
  map (fun x => if flt x fzero then fzero else x) s.

(** [s.replace(0, np.nan)] *)
Definition replace_zero (s : series) : series :=
  map (fun x => if feqb x fzero then NaN else x) s.

(** [s.replace([np.inf, -np.inf], np.nan)] *)
Definition replace_inf (s : series) : series :=
  map (fun x => if isinf x then NaN else x) s.

Definition fsum (l : list f64) : f64 := fold_left fadd l fzero.

Definition f_of_nat (n : nat) : f64 := Fin (inject_Z (Z.of_nat n)).

Definition lastn {A : Type} (n : nat) (l : list A) : list A :=
  skipn (length l - n) l.

(** The loop behind [s.rolling(w, min_periods=minp).agg()]: the value at
    row [i] is the aggregate of the last [w] rows ending at [i]. *)
Fixpoint rolling_from (w : nat) (agg : list f64 -> f64) (past : list f64)
  (s : series) : series :=
  match s with
  | [] => []
  | x :: r =>
      let past' := past ++ [x] in
      agg (lastn w past') :: rolling_from w agg past' r
  end.

Definition roll (w : nat) (agg : list f64 -> f64) (s : series) : series :=
  rolling_from w agg [] s.

(** Mean of the observations (non-NaN values) of a window, NaN when there
    are fewer than [minp] of them. *)
Definition window_mean (minp : nat) (win : list f64) : f64 :=
  let obs := filter notna win in
  let nobs := length obs in
  if (minp <=? nobs) && (0 <? nobs) then fdiv (fsum obs) (f_of_nat nobs)
  else NaN.

Section WithPandas.

Context {pd : Pandas}.

Definition flog (x : f64) : f64 :=
  match x with
  | NaN | NInf => NaN
  | PInf => PInf
  | Fin q =>
      if Qeq_bool q 0 then NInf
      else if Qltb q 0 then NaN
      else fin (np_log q)
  end.

Definition fsqrt (x : f64) : f64 :=
  match x with
  | NaN | NInf => NaN
  | PInf => PInf
  | Fin q => if Qltb q 0 then NaN else fin (np_sqrt q)
  end.

(** Sample standard deviation ([ddof=1]) of the observations of a window. *)
Definition window_std (minp : nat) (win : list f64) : f64 :=
  let obs := filter notna win in
  let nobs := length obs in
  if (minp <=? nobs) && (1 <? nobs) then
    let mean := fdiv (fsum obs) (f_of_nat nobs) in
    let dev := map (fun x => let d := fsub x mean in fmul d d) obs in
    fsqrt (fdiv (fsum dev) (f_of_nat (nobs - 1)))
  else NaN.

(** [s.pct_change(p)]: [filled / filled.shift(p) - 1]. *)
Definition pct_change (p : nat) (s : series) : series :=
  let filled := if pct_change_pads then ffill s else s in
  map2 (fun a b => fsub (fdiv a b) fone) filled (shift p filled).

(** The values a window routine receives. *)
Definition prep_values (s : series) : series :=
  if window_drops_inf then replace_inf s else s.

(** [s.rolling(w, min_periods=minp).agg()] *)
Definition rolling (w : nat) (agg : list f64 -> f64) (s : series) : series :=
  roll w agg (prep_values s).

End WithPandas.

(** ** Exponentially weighted mean

    [s.ewm(alpha=a, adjust=False, min_periods=minp).mean()], with pandas'
    default [ignore_na=False].  The state of the loop is
    [(weighted, old_wt, nobs)]. *)

Definition ewm_state : Type := (f64 * Q * nat)%type.

Definition ewm_step (alpha : Q) (st : ewm_state) (cur : f64) : ewm_state :=
  let '(weighted, old_wt, nobs) := st in
  let is_observation := notna cur in
  let nobs' := if is_observation then S nobs else nobs in
  if notna weighted then
    let old_wt1 := Qred (old_wt * (1 - alpha)) in
    if is_observation then
      let weighted' :=
        if feqb weighted cur then weighted
        else fdiv (fadd (fmul (Fin old_wt1) weighted) (fmul (Fin alpha) cur))
                  (Fin (Qred (old_wt1 + alpha))) in
      (weighted', 1%Q, nobs')
    else (weighted, old_wt1, nobs')
  else if is_observation then (cur, old_wt, nobs')
  else (weighted, old_wt, nobs').

Definition ewm_out (minp : nat) (st : ewm_state) : f64 :=
  let '(weighted, _, nobs) := st in
  if minp <=? nobs then weighted else NaN.

Fixpoint ewm_loop (alpha : Q) (minp : nat) (st : ewm_state) (vals : series)
  : series :=
  match vals with
  | [] => []
  | cur :: rest =>
      let st' := ewm_step alpha st cur in
      ewm_out minp st' :: ewm_loop alpha minp st' rest
  end.

(** The routine on the values it receives. *)
Definition ewm (alpha : Q) (minp : nat) (vals : series) : series :=
  match vals with
  | [] => []
  | v0 :: rest =>
      let st := (v0, 1%Q, if notna v0 then 1%nat else 0%nat) in
      ewm_out minp st :: ewm_loop alpha minp st rest
  end.

(** [vals.ewm(alpha=alpha, adjust=False, min_periods=minp).mean()] *)
Definition ewm_mean {pd : Pandas} (alpha : Q) (minp : nat) (vals : series)
  : series :=
  ewm alpha minp (prep_values vals).

(* ================================================================== *)
(** * [_rsi] *)
(* ================================================================== *)

Definition rsi_gain (close : series) : series := clip_lower0 (diff close).

Definition rsi_loss (close : series) : series :=
  clip_lower0 (map fneg (diff close)).

Definition rsi_alpha (window : nat) : Q := 1 # Pos.of_nat window.

Section Rsi.

Context {pd : Pandas}.

Definition rsi_avg_gain (close : series) (window : nat) : series :=
  ewm_mean (rsi_alpha window) window (rsi_gain close).

Definition rsi_avg_loss (close : series) (window : nat) : series :=
  ewm_mean (rsi_alpha window) window (rsi_loss close).

(** The value returned when [1 / window] does not raise. *)
Definition rsi_values (close : series) (window : nat) : series :=
  let avg_gain := rsi_avg_gain close window in
  let avg_loss := rsi_avg_loss close window in
  let rs := map2 fdiv avg_gain (replace_zero avg_loss) in
  map (fun r => fsub fhundred (fdiv fhundred (fadd fone r))) rs.

Definition _rsi (close : series) (window : nat) : result series :=
  match window with
  | O => Raise ZeroDivisionError
  | S _ => Ok (rsi_values close window)
  end.

End Rsi.

(* ================================================================== *)
(** * Data frames *)
(* ================================================================== *)

Local Open Scope nat_scope.

(** A column has one dtype: [float64], nullable [Int64], or [object]. *)
Inductive column : Type :=
| ColF (v : list f64)
| ColI (v : list (option Z))
| ColO (v : list raw).

Inductive cell : Type :=
| CF (x : f64)
| CI (x : option Z)
| CO (x : raw).

(** The frames handled after [load_long_dataset]: the two key columns
    [ticker] (text) and [date] (a day number; never NaT, the rows with NaT
    are dropped by the loader) and the other columns by name, in order. *)
Record DataFrame : Type := mkFrame {
  ticker : list string;
  date : list Z;
  columns : list (string * column)
}.

Definition nrows (df : DataFrame) : nat := length (ticker df).

(** Boolean indexing [l[mask]]. *)
Fixpoint select {A : Type} (m : list bool) (l : list A) : list A :=
  match m, l with
  | b :: m', x :: l' => if b then x :: select m' l' else select m' l'
  | _, _ => []
  end.

(** Positional indexing [l.iloc[idx]]. *)
Definition take {A : Type} (d : A) (idx : list nat) (l : list A) : list A :=
  map (fun i => nth i l d) idx.

Definition col_length (c : column) : nat :=
  match c with
  | ColF v => length v
  | ColI v => length v
  | ColO v => length v
  end.

Definition col_select (m : list bool) (c : column) : column :=
  match c with
  | ColF v => ColF (select m v)
  | ColI v => ColI (select m v)
  | ColO v => ColO (select m v)
  end.

Definition col_take (idx : list nat) (c : column) : column :=
  match c with
  | ColF v => ColF (take NaN idx v)
  | ColI v => ColI (take None idx v)
  | ColO v => ColO (take (RNum NaN) idx v)
  end.

Definition col_cell (c : column) (i : nat) : cell :=
  match c with
  | ColF v => CF (nth i v NaN)
  | ColI v => CI (nth i v None)
  | ColO v => CO (nth i v (RNum NaN))
  end.

Definition cell_notna (c : cell) : bool :=
  match c with
  | CF x => notna x
  | CI x => match x with Some _ => true | None => false end
  | CO x => negb (raw_isna x)
  end.

(** [col.notna()] *)
Definition col_notna (c : column) : list bool :=
  match c with
  | ColF v => map notna v
  | ColI v => map (fun x => match x with Some _ => true | None => false end) v
  | ColO v => map (fun x => negb (raw_isna x)) v
  end.

Fixpoint find_col (name : string) (cols : list (string * column))
  : option column :=
  match cols with
  | [] => None
  | (n, c) :: rest => if String.eqb name n then Some c else find_col name rest
  end.

(** [cols[name] = c]: overwrite the column of that name, or append. *)
Fixpoint set_col (name : string) (c : column) (cols : list (string * column))
  : list (string * column) :=
  match cols with
  | [] => [(name, c)]
  | (n, c0) :: rest =>
      if String.eqb name n then (n, c) :: rest
      else (n, c0) :: set_col name c rest
  end.

Definition has_col (name : string) (df : DataFrame) : bool :=
  match find_col name (columns df) with Some _ => true | None => false end.

Definition column_names (df : DataFrame) : list string :=
  map fst (columns df).

(** [df[name]] read as numbers. *)
Definition getf (df : DataFrame) (name : string) : result series :=
  match find_col name (columns df) with
  | None => Raise (KeyError name)
  | Some (ColF v) => Ok v
  | Some (ColI v) =>
      Ok (map (fun x => match x with
                        | Some z => Fin (inject_Z z)
                        | None => NaN
                        end) v)
  | Some (ColO _) => Raise (TypeError name)
  end.

(** [df[name] = c] *)
Definition assign (df : DataFrame) (name : string) (c : column) : DataFrame :=
  {| ticker := ticker df; date := date df;
     columns := set_col name c (columns df) |}.

(** [df[mask]] *)
Definition select_rows (m : list bool) (df : DataFrame) : DataFrame :=
  {| ticker := select m (ticker df);
     date := select m (date df);
     columns := map (fun nc => (fst nc, col_select m (snd nc))) (columns df) |}.

(** [df.iloc[idx].reset_index(drop=True)] *)
Definition take_rows (idx : list nat) (df : DataFrame) : DataFrame :=
  {| ticker := take EmptyString idx (ticker df);
     date := take 0%Z idx (date df);
     columns := map (fun nc => (fst nc, col_take idx (snd nc))) (columns df) |}.

(** Every column has one value per row. *)
Definition wf_frame (df : DataFrame) : bool :=
  (length (date df) =? nrows df)
  && forallb (fun nc => col_length (snd nc) =? nrows df) (columns df).

(** Rows, for stating what a stage does to them. *)
Record Row : Type := mkRow {
  r_ticker : string;
  r_date : Z;
  r_cells : list (string * cell)
}.

Definition row_at (df : DataFrame) (i : nat) : Row :=
  {| r_ticker := nth i (ticker df) EmptyString;
     r_date := nth i (date df) 0%Z;
     r_cells := map (fun nc => (fst nc, col_cell (snd nc) i)) (columns df) |}.

Definition rows (df : DataFrame) : list Row :=
  map (row_at df) (seq 0 (nrows df)).

(** ** Stable sorting of row positions by a key *)

Section Sorting.

Context {K : Type} (leb : K -> K -> bool).

Fixpoint insert_sorted (x : K) (l : list K) : list K :=
  match l with
  | [] => [x]
  | y :: l' => if leb x y then x :: l else y :: insert_sorted x l'
  end.

(** Insertion from the right keeps equal keys in their original order. *)
Definition isort (l : list K) : list K := fold_right insert_sorted [] l.

End Sorting.

(** ** Group-wise operations *)

(** The values of the rows of group [k], in row order. *)
Definition group_values (k : string) (keys : list string) (col : series)
  : series :=
  select (map (String.eqb k) keys) col.

(** Write the per-group results back to the rows: row [i] of group [k]
    takes the next unread value of the result of [k]. *)
Fixpoint scatter (keys : list string) (rank : string -> nat)
  (res : string -> series) : series :=
  match keys with
  | [] => []
  | k :: keys' =>
      nth (rank k) (res k) NaN
      :: scatter keys'
           (fun k' => if String.eqb k' k then S (rank k') else rank k') res
  end.

(** [df.groupby("ticker")[col].op()] for a built-in, total [op]. *)
Definition grouped (f : series -> series) (keys : list string) (col : series)
  : series :=
  scatter keys (fun _ => 0) (fun k => f (group_values k keys col)).

(** The groups in the order [groupby] visits them: sorted, distinct. *)
Definition group_keys (keys : list string) : list string :=
  isort String.leb (nodup string_dec keys).

Definition value_or_empty (r : result series) : series :=
  match r with Ok v => v | Raise _ => [] end.

(** [df.groupby("ticker")[col].transform(f)] for a Python function [f],
    which may raise: [f] is called once per group, in group order. *)
Definition transform (f : series -> result series) (keys : list string)
  (col : series) : result series :=
  _ <- for_each (group_keys keys)
         (fun k (_ : unit) => _ <- f (group_values k keys col) ;; Ok tt) tt ;;
  Ok (grouped (fun s => value_or_empty (f s)) keys col).

(* ================================================================== *)
(** * The pipeline of [features.py] *)
(* ================================================================== *)

Inductive TargetHorizon : Type := weekly | monthly | both.

(** The fields of [FeatureConfig] that the stages read (the three path
    fields are only used for file input and output).  Lengths of windows
    and horizons are natural numbers. *)
Record FeatureConfig : Type := mkConfig {
  min_history : nat;
  horizon_weekly : nat;
  horizon_monthly : nat;
  vol_windows : list nat;
  ma_windows : list nat;
  mom_windows : list nat;
  rsi_window : nat
}.

Definition default_config : FeatureConfig :=
  {| min_history := 252;
     horizon_weekly := 5;
     horizon_monthly := 21;
     vol_windows := [10; 21; 63];
     ma_windows := [10; 21; 63; 126; 252];
     mom_windows := [5; 21; 63; 126; 252];
     rsi_window := 14 |}.

Definition string_of_nat (n : nat) : string :=
  NilEmpty.string_of_uint (Nat.to_uint n).

Definition mom_name (w : nat) : string :=
  ("mom_" ++ string_of_nat w ++ "d")%string.
Definition ma_name (w : nat) : string := ("ma_" ++ string_of_nat w)%string.
Definition price_to_ma_name (w : nat) : string :=
  ("price_to_ma_" ++ string_of_nat w)%string.
Definition vol_name (w : nat) : string := ("vol_" ++ string_of_nat w)%string.
Definition rsi_name (w : nat) : string := ("rsi_" ++ string_of_nat w)%string.

Section Pipeline.

Context {pd : Pandas}.

(** ** [build_features]

    One definition per commented block of the function; [build_features]
    runs them in the order of the source. *)

(** Returns, on [adj_close]. *)
Definition add_returns (out : DataFrame) : result DataFrame :=
  adj <- getf out "adj_close" ;;
  let out :=
    assign out "ret_1d" (ColF (grouped (pct_change 1) (ticker out) adj)) in
  adj <- getf out "adj_close" ;;
  Ok (assign out "logret_1d"
        (ColF (map2 fsub (map flog (grouped (shift 0) (ticker out) adj))
                         (map flog (grouped (shift 1) (ticker out) adj))))).

(** Momentum: the body of the loop over [cfg.mom_windows]. *)
Definition add_momentum (w : nat) (out : DataFrame) : result DataFrame :=
  adj <- getf out "adj_close" ;;
  Ok (assign out (mom_name w)
        (ColF (grouped (pct_change w) (ticker out) adj))).

(** [out[mom_cols] = out[mom_cols].replace([inf, -inf], nan)], one
    column at a time. *)
Definition clean_momentum (name : string) (out : DataFrame)
  : result DataFrame :=
  c <- getf out name ;;
  Ok (assign out name (ColF (replace_inf c))).

(** Moving average and distance of the price to it: the body of the loop
    over [cfg.ma_windows]. *)
Definition add_moving_average (w : nat) (out : DataFrame) : result DataFrame :=
  adj <- getf out "adj_close" ;;
  ma <- transform (fun s => Ok (rolling w (window_mean w) s))
          (ticker out) adj ;;
  let out := assign out (ma_name w) (ColF ma) in
  adj <- getf out "adj_close" ;;
  Ok (assign out (price_to_ma_name w)
        (ColF (map (fun x => fsub x fone) (map2 fdiv adj ma)))).

(** Volatility: the body of the loop over [cfg.vol_windows]. *)
Definition add_volatility (w : nat) (out : DataFrame) : result DataFrame :=
  lr <- getf out "logret_1d" ;;
  vol <- transform (fun s => Ok (rolling w (window_std w) s))
           (ticker out) lr ;;
  Ok (assign out (vol_name w) (ColF vol)).

(** Rolling z-score of the log volume. *)
Definition add_volume_zscore (out : DataFrame) : result DataFrame :=
  volume <- getf out "volume" ;;
  let out := assign out "logvol" (ColF (map flog (replace_zero volume))) in
  logvol <- getf out "logvol" ;;
  vol_mu <- transform (fun s => Ok (rolling 63 (window_mean 63) s))
              (ticker out) logvol ;;
  logvol <- getf out "logvol" ;;
  vol_sd <- transform (fun s => Ok (rolling 63 (window_std 63) s))
              (ticker out) logvol ;;
  logvol <- getf out "logvol" ;;
  Ok (assign out "logvol_z_63"
        (ColF (map2 fdiv (map2 fsub logvol vol_mu) vol_sd))).

(** Relative intraday range. *)
Definition add_intraday_range (out : DataFrame) : result DataFrame :=
  high <- getf out "high" ;;
  low <- getf out "low" ;;
  let out :=
    assign out "hl_range"
      (ColF (map (fun x => fsub x fone) (map2 fdiv high low))) in
  close <- getf out "close" ;;
  open <- getf out "open" ;;
  Ok (assign out "oc_change"
        (ColF (map (fun x => fsub x fone) (map2 fdiv close open)))).

(** RSI. *)
Definition add_rsi (window : nat) (out : DataFrame) : result DataFrame :=
  adj <- getf out "adj_close" ;;
  rsi <- transform (fun s => _rsi s window) (ticker out) adj ;;
  Ok (assign out (rsi_name window) (ColF rsi)).

Definition build_features (df : DataFrame) (cfg : FeatureConfig)
  : result DataFrame :=
  let out := df in
  out <- add_returns out ;;
  out <- for_each (mom_windows cfg) add_momentum out ;;
  let mom_cols := map mom_name (mom_windows cfg) in
  out <- for_each mom_cols clean_momentum out ;;
  out <- for_each (ma_windows cfg) add_moving_average out ;;
  out <- for_each (vol_windows cfg) add_volatility out ;;
  out <- add_volume_zscore out ;;
  out <- add_intraday_range out ;;
  out <- add_rsi (rsi_window cfg) out ;;
  Ok out.

(** ** [add_targets] *)

(** [(x > 0).astype("Int64")] *)
Definition positive_flag (x : f64) : option Z :=
  if fgt x fzero then Some 1%Z else Some 0%Z.

Definition add_target (h : nat) (future_ret target : string) (out : DataFrame)
  : result DataFrame :=
  adj <- getf out "adj_close" ;;
  adj' <- getf out "adj_close" ;;
  let out :=
    assign out future_ret
      (ColF (map (fun x => fsub x fone)
               (map2 fdiv (grouped (shift_back h) (ticker out) adj) adj'))) in
  fr <- getf out future_ret ;;
  Ok (assign out target (ColI (map positive_flag fr))).

Definition add_targets (df : DataFrame) (cfg : FeatureConfig)
  (which : TargetHorizon) : result DataFrame :=
  let out := df in
  out <- match which with
         | weekly | both =>
             add_target (horizon_weekly cfg) "future_ret_w" "target_w" out
         | monthly => Ok out
         end ;;
  out <- match which with
         | monthly | both =>
             add_target (horizon_monthly cfg) "future_ret_m" "target_m" out
         | weekly => Ok out
         end ;;
  Ok out.

(** ** [filter_min_history] *)

Definition filter_min_history (df : DataFrame) (min_history : nat)
  : DataFrame :=
  let counts :=
    map (fun k => count_occ string_dec (ticker df) k) (ticker df) in
  select_rows (map (fun c => min_history <=? c) counts) df.

(** ** [finalize_dataset] *)

Definition must_have (cfg : FeatureConfig) : list string :=
  ["ret_1d"; rsi_name (rsi_window cfg); "vol_21"; "price_to_ma_21";
   "mom_21d"]%string.

Definition missing_column_error (c : string) : exn :=
  ValueError ("Coluna esperada não encontrada: " ++ c)%string.

(** [df.dropna(subset=names)]: the mask of the rows to keep. *)
Definition notna_mask (names : list string) (df : DataFrame) : list bool :=
  fold_right
    (fun name m =>
       match find_col name (columns df) with
       | Some c => map2 andb (col_notna c) m
       | None => m
       end)
    (repeat true (nrows df)) names.

Definition date_ticker_leb (a b : Z * string) : bool :=
  ((fst a <? fst b)%Z
   || ((fst a =? fst b)%Z && String.leb (snd a) (snd b)))%bool.

Definition ticker_date_leb (a b : string * Z) : bool :=
  (String.ltb (fst a) (fst b)
   || (String.eqb (fst a) (fst b) && (snd a <=? snd b)%Z))%bool.

(** [df.sort_values(by).reset_index(drop=True)]: the row positions in
    sorted order, ties kept in row order. *)
Definition sorted_positions {K : Type} (leb : K -> K -> bool)
  (key : nat -> K) (n : nat) : list nat :=
  isort (fun i j => leb (key i) (key j)) (seq 0 n).

Definition date_ticker_key (df : DataFrame) (i : nat) : Z * string :=
  (nth i (date df) 0%Z, nth i (ticker df) EmptyString).

Definition ticker_date_key (df : DataFrame) (i : nat) : string * Z :=
  (nth i (ticker df) EmptyString, nth i (date df) 0%Z).

Definition finalize_dataset (df : DataFrame) (cfg : FeatureConfig)
  : result DataFrame :=
  _ <- for_each (must_have cfg)
         (fun c (_ : unit) =>
            if has_col c df then Ok tt else Raise (missing_column_error c))
         tt ;;
  let df2 := select_rows (notna_mask (must_have cfg) df) df in
  Ok (take_rows
        (sorted_positions date_ticker_leb (date_ticker_key df2) (nrows df2))
        df2).

End Pipeline.

(* ================================================================== *)
(** * [load_long_dataset] *)
(* ================================================================== *)

(** The frame [pd.read_csv] returns: columns of raw cells, by name. *)
Definition RawFrame : Type := list (string * list raw).

Fixpoint raw_find (name : string) (csv : RawFrame) : option (list raw) :=
  match csv with
  | [] => None
  | (n, v) :: rest => if String.eqb name n then Some v else raw_find name rest
  end.

Definition raw_get (name : string) (csv : RawFrame) : list raw :=
  match raw_find name csv with Some v => v | None => [] end.

Definition mem_string (x : string) (l : list string) : bool :=
  existsb (String.eqb x) l.

Definition required_columns : list string :=
  ["date"; "ticker"; "open"; "high"; "low"; "close"; "volume";
   "adjustedClose"]%string.

Definition num_cols : list string :=
  ["open"; "high"; "low"; "close"; "volume"; "adjustedClose"]%string.

(** [str.strip()] and [str.upper()], on ASCII. *)
Definition is_space (c : ascii) : bool :=
  let n := nat_of_ascii c in (n =? 32) || ((9 <=? n) && (n <=? 13)).

Fixpoint lstrip (l : list ascii) : list ascii :=
  match l with
  | c :: l' => if is_space c then lstrip l' else l
  | [] => []
  end.

Definition strip (s : string) : string :=
  string_of_list_ascii
    (rev (lstrip (rev (lstrip (list_ascii_of_string s))))).

Definition upper_ascii (c : ascii) : ascii :=
  let n := nat_of_ascii c in
  if (97 <=? n) && (n <=? 122) then ascii_of_nat (n - 32) else c.

Definition upper (s : string) : string :=
  string_of_list_ascii (map upper_ascii (list_ascii_of_string s)).

Section Loader.

Context {pd : Pandas}.

(** [pd.to_numeric(cell, errors="coerce")] *)
Definition to_numeric (c : raw) : f64 :=
  match c with
  | RNum x => x
  | RStr s => numeric_of_text s
  end.

(** [str(cell)] *)
Definition astype_str (c : raw) : string :=
  match c with
  | RStr s => s
  | RNum x => str_of_number x
  end.

Definition is_some {A : Type} (o : option A) : bool :=
  match o with Some _ => true | None => false end.

Definition missing_columns_error (missing : list string) : exn :=
  ValueError
    ("Arquivo não possui colunas esperadas. Faltando: "
       ++ String.concat ", " missing)%string.

Definition load_long_dataset (csv : RawFrame) : result DataFrame :=
  let missing :=
    filter (fun c => negb (is_some (raw_find c csv))) required_columns in
  match missing with
  | _ :: _ => Raise (missing_columns_error missing)
  | [] =>
      (* df["date"] = pd.to_datetime(df["date"], errors="coerce") *)
      let dates := map datetime_of_raw (raw_get "date" csv) in
      (* df = df.dropna(subset=["date", "ticker", "close"]) *)
      let keep :=
        map2 andb (map is_some dates)
          (map2 andb
             (map (fun c => negb (raw_isna c)) (raw_get "ticker" csv))
             (map (fun c => negb (raw_isna c)) (raw_get "close" csv))) in
      let dates := select keep dates in
      let csv := map (fun nc => (fst nc, select keep (snd nc))) csv in
      (* numeric types: the columns of [num_cols] are coerced, the
         others keep the dtype they were read with *)
      let cols :=
        map (fun nc =>
               (fst nc,
                if mem_string (fst nc) num_cols || all_numbers (snd nc)
                then ColF (map to_numeric (snd nc))
                else ColO (snd nc)))
          (filter (fun nc => negb (mem_string (fst nc) ["date"; "ticker"]%string))
             csv) in
      let df :=
        {| ticker := map astype_str (raw_get "ticker" csv);
           date := map (fun d => match d with Some z => z | None => 0%Z end)
                     dates;
           columns := cols |} in
      (* adjustedClose may be empty: fall back to close *)
      adjusted <- getf df "adjustedClose" ;;
      close <- getf df "close" ;;
      let df :=
        assign df "adj_close"
          (ColF (map2 (fun a c => if notna a then a else c) adjusted close)) in
      adj <- getf df "adj_close" ;;
      let df :=
        assign df "adj_close"
          (ColF (map (fun x => if fle x fzero then NaN else x) adj)) in
      (* normalise the ticker *)
      let df :=
        {| ticker := map (fun t => upper (strip t)) (ticker df);
           date := date df;
           columns := columns df |} in
      (* the order every rolling and shift relies on *)
      Ok (take_rows
            (sorted_positions ticker_date_leb (ticker_date_key df) (nrows df))
            df)
  end.

(** ** [main], without its file input and output *)

Definition main (csv : RawFrame) : result DataFrame :=
  let cfg := default_config in
  df <- load_long_dataset csv ;;
  let df := filter_min_history df (min_history cfg) in
  df <- build_features df cfg ;;
  df <- add_targets df cfg both ;;
  finalize_dataset df cfg.

End Loader.

(* ================================================================== *)
(** * A concrete library instance, for running the model *)
(* ================================================================== *)

(** Rational stand-ins for the two real functions: three Newton steps
    for the square root, the first terms of the [atanh] series for the
    logarithm. *)
Definition sqrt_newton (q : Q) : Q :=
  if Qeq_bool q 0 then 0%Q
  else
    let step := fun x : Q => Qred ((x + q / x) / 2)%Q in
    step (step (step (Qred ((q + 1) / 2)%Q))).

Definition log_series (q : Q) : Q :=
  let y := Qred ((q - 1) / (q + 1))%Q in
  let y2 := Qred (y * y)%Q in
  Qred (2 * y * (1 + y2 * ((1 # 3) + y2 * (1 # 5))))%Q.

(** Unsigned decimal integers as the only parseable numbers, and
    [YYYY-MM-DD] as the only parseable dates (read as a day count that
    keeps their order). *)
Fixpoint digits_value (acc : Z) (s : string) : option Z :=
  match s with
  | EmptyString => Some acc
  | String c s' =>
      let n := nat_of_ascii c in
      if (48 <=? n) && (n <=? 57)
      then digits_value (10 * acc + Z.of_nat (n - 48))%Z s'
      else None
  end.

Definition parse_integer (s : string) : option Z :=
  match s with
  | EmptyString => None
  | _ => digits_value 0%Z s
  end.

Definition parse_iso_date (s : string) : option Z :=
  match parse_integer (substring 0 4 s), parse_integer (substring 5 2 s),
        parse_integer (substring 8 2 s) with
  | Some y, Some m, Some d =>
      if (String.length s =? 10)
         && String.eqb (substring 4 1 s) "-"
         && String.eqb (substring 7 1 s) "-"
      then Some ((y * 12 + (m - 1)) * 31 + (d - 1))%Z
      else None
  | _, _, _ => None
  end.

Definition toy_pandas : Pandas := {|
  np_log := log_series;
  np_sqrt := sqrt_newton;
  numeric_of_text :=
    fun s => match parse_integer s with
             | Some z => Fin (inject_Z z)
             | None => NaN
             end;
  datetime_of_raw :=
    fun c => match c with
             | RStr s => parse_iso_date s
             | RNum (Fin q) => Some (Qfloor q)
             | RNum _ => None
             end;
  str_of_number :=
    fun x => match x with
             | Fin q => string_of_nat (Z.to_nat (Qfloor q))
             | NaN => "nan"%string
             | PInf => "inf"%string
             | NInf => "-inf"%string
             end;
  pct_change_pads := true;
  window_drops_inf := true
|}.

(* ================================================================== *)
(** * Vocabulary of the properties *)
(* ================================================================== *)

(** ** Series functions that read no later value *)

(** A series function is causal when it keeps the length and the first
    [n] values of its result are the result on the first [n] values. *)
Definition causal (f : series -> series) : Prop :=
  (forall s, length (f s) = length s)
  /\ (forall s n, f (firstn n s) = firstn n (f s)).

(** Group [k] still has a kept row among [keys]. *)
Definition alive (k : string) (keys : list string) (m : list bool) : bool :=
  existsb (fun kb => String.eqb (fst kb) k && snd kb) (combine keys m).

(** Within every group the kept rows come before the dropped ones. *)
Fixpoint prefix_closed (keys : list string) (m : list bool) : bool :=
  match keys, m with
  | k :: keys', b :: m' => (b || negb (alive k keys' m')) && prefix_closed keys' m'
  | _, _ => true
  end.

(** The row-by-row reading of a group-wise causal operation: each row
    extends the history of its group and takes the last value computed
    on it. *)
Fixpoint online (g : series -> f64) (hist : string -> series)
  (keys : list string) (col : series) : series :=
  match keys, col with
  | k :: keys', v :: col' =>
      let h := hist k ++ [v] in
      g h :: online g (fun k' => if String.eqb k' k then h else hist k')
               keys' col'
  | _, _ => []
  end.

Definition last_of (f : series -> series) (h : series) : f64 :=
  nth (length h - 1) (f h) NaN.

(** ** Stages and the selection of rows *)

(** The frames on which a selection [m] of rows can be exchanged with a
    causal stage: one flag per row, and in every group the kept rows
    come first. *)
Definition restrictable (m : list bool) (df : DataFrame) : Prop :=
  wf_frame df = true
  /\ length m = nrows df
  /\ prefix_closed (ticker df) m = true.

Definition commutes (m : list bool) (step : DataFrame -> result DataFrame)
  : Prop :=
  forall df out,
    restrictable m df -> step df = Ok out ->
    restrictable m out /\ step (select_rows m df) = Ok (select_rows m out).

Ltac read_column H v E :=
  match type of H with
  | bind (getf ?df ?n) _ = Ok _ =>
      destruct (getf df n) as [v|] eqn:E; cbn [bind] in H; [|discriminate H]
  | bind (transform ?f ?k ?c) _ = Ok _ =>
      destruct (transform f k c) as [v|] eqn:E; cbn [bind] in H;
      [|discriminate H]
  end.

(** ** Truncation at a date *)

(** Within every ticker the dates do not decrease along the rows: the
    order [load_long_dataset] leaves the table in. *)
Fixpoint dates_ascending (keys : list string) (dates : list Z) : bool :=
  match keys, dates with
  | k :: keys', d :: dates' =>
      forallb (fun kd => negb (String.eqb (fst kd) k) || (d <=? snd kd)%Z)
        (combine keys' dates')
      && dates_ascending keys' dates'
  | _, _ => true
  end.

(** The table without the rows dated after [D]. *)
Definition rows_until (D : Z) (df : DataFrame) : DataFrame :=
  select_rows (map (fun d => (d <=? D)%Z) (date df)) df.

(** The largest lookback length of a configuration. *)
Definition max_window (cfg : FeatureConfig) : nat :=
  list_max (rsi_window cfg :: 63
              :: mom_windows cfg ++ ma_windows cfg ++ vol_windows cfg).

(** ** The columns a stage writes *)

(** A stage writes only the columns [names]: it keeps the rows (the key
    columns) as they are, every other column as it is, and the existing
    columns in their order. *)
Definition writes (names : list string)
  (step : DataFrame -> result DataFrame) : Prop :=
  forall df out,
    step df = Ok out ->
    ticker out = ticker df
    /\ date out = date df
    /\ (forall x, ~ In x names ->
                  find_col x (columns out) = find_col x (columns df))
    /\ (exists added, column_names out = column_names df ++ added).

(** The columns [build_features] writes. *)
Definition feature_columns (cfg : FeatureConfig) : list string :=
  ["ret_1d"; "logret_1d"]%string
    ++ map mom_name (mom_windows cfg)
    ++ flat_map (fun w => [ma_name w; price_to_ma_name w]) (ma_windows cfg)
    ++ map vol_name (vol_windows cfg)
    ++ ["logvol"; "logvol_z_63"; "hl_range"; "oc_change";
        rsi_name (rsi_window cfg)]%string.

(** The columns [add_targets] writes. *)
Definition target_columns (which : TargetHorizon) : list string :=
  match which with
  | weekly => ["future_ret_w"; "target_w"]
  | monthly => ["future_ret_m"; "target_m"]
  | both => ["future_ret_w"; "target_w"; "future_ret_m"; "target_m"]
  end%string.

(** ** Columns free of infinities *)

(** Column [name] of [df] is numeric and holds no infinity. *)
Definition no_inf_in (name : string) (df : DataFrame) : Prop :=
  exists v, getf df name = Ok v /\ Forall (fun x => isinf x = false) v.

(** ** Stacking two tables *)

Inductive dtype : Type := Float64 | Int64 | Object.

Definition col_dtype (c : column) : dtype :=
  match c with ColF _ => Float64 | ColI _ => Int64 | ColO _ => Object end.

(** Column names and dtypes, in order. *)
Definition schema (df : DataFrame) : list (string * dtype) :=
  map (fun nc => (fst nc, col_dtype (snd nc))) (columns df).

Definition col_append (a b : column) : column :=
  match a, b with
  | ColF x, ColF y => ColF (x ++ y)
  | ColI x, ColI y => ColI (x ++ y)
  | ColO x, ColO y => ColO (x ++ y)
  | _, _ => a
  end.

(** [pd.concat([a, b], ignore_index=True)] of two tables of one schema. *)
Definition concat_rows (a b : DataFrame) : DataFrame :=
  {| ticker := ticker a ++ ticker b;
     date := date a ++ date b;
     columns := map2 (fun ca cb => (fst ca, col_append (snd ca) (snd cb)))
                  (columns a) (columns b) |}.

(** No ticker of the first list occurs in the second. *)
Definition disjoint_keys (ka kb : list string) : bool :=
  forallb (fun k => negb (existsb (String.eqb k) kb)) ka.

(** Two tables that can be stacked: both well formed, of one schema,
    with no ticker in common. *)
Definition joinable (a b : DataFrame) : Prop :=
  wf_frame a = true /\ wf_frame b = true
  /\ schema a = schema b
  /\ disjoint_keys (ticker a) (ticker b) = true.

Definition appends (step : DataFrame -> result DataFrame) : Prop :=
  forall a b oa ob,
    joinable a b -> step a = Ok oa -> step b = Ok ob ->
    joinable oa ob /\ step (concat_rows a b) = Ok (concat_rows oa ob).

Ltac read_columns Ha Hb va vb Ea Eb :=
  read_column Ha va Ea; read_column Hb vb Eb.

(** ** Rows of a table *)

Fixpoint find_cell (name : string) (cells : list (string * cell))
  : option cell :=
  match cells with
  | [] => None
  | (n, c) :: rest => if String.eqb name n then Some c else find_cell name rest
  end.

(** Every column of [names] that the row has holds a value. *)
Definition row_complete (names : list string) (r : Row) : bool :=
  forallb (fun n => match find_cell n (r_cells r) with
                    | Some c => cell_notna c
                    | None => true
                    end) names.

(** The order of the output: by date, then by ticker. *)
Definition row_leb (a b : Row) : bool :=
  date_ticker_leb (r_date a, r_ticker a) (r_date b, r_ticker b).

(** The positions a mask keeps. *)
Definition kept_positions (m : list bool) : list nat :=
  select m (seq 0 (length m)).

(** ** The oscillator *)

(** The values a gain, a loss or one of their averages can take: not a
    negative number, not minus infinity. *)
Definition nonneg (x : f64) : Prop :=
  match x with
  | NaN | PInf => True
  | NInf => False
  | Fin q => (0 <= q)%Q
  end.

(** The values an RSI can take. *)
Definition rsi_range (x : f64) : Prop :=
  match x with
  | NaN => True
  | Fin q => (0 <= q <= 100)%Q
  | PInf | NInf => False
  end.

Definition ewm_state_ok (st : ewm_state) : Prop :=
  nonneg (fst (fst st)) /\ (0 <= snd (fst st))%Q.

Definition rsi_of_rs (r : f64) : f64 :=
  fsub fhundred (fdiv fhundred (fadd fone r)).

Definition rs_of (avg_gain avg_loss : f64) : f64 :=
  fdiv avg_gain (if feqb avg_loss fzero then NaN else avg_loss).

(** How many price changes up to row [i] are observations. *)
Definition observations (s : series) (i : nat) : nat :=
  length (filter notna (firstn (S i) s)).

Fixpoint rising_from (p : Q) (qs : list Q) : bool :=
  match qs with
  | [] => true
  | q :: rest => Qltb p q && rising_from q rest
  end.

Fixpoint falling_from (p : Q) (qs : list Q) : bool :=
  match qs with
  | [] => true
  | q :: rest => Qltb q p && falling_from q rest
  end.

(** Every price is above the one before it. *)
Definition strictly_rising (qs : list Q) : bool :=
  match qs with [] => true | q :: rest => rising_from q rest end.

(** Every price is below the one before it. *)
Definition strictly_falling (qs : list Q) : bool :=
  match qs with [] => true | q :: rest => falling_from q rest end.

(** The differences of a series from a previous value on. *)
Fixpoint deltas (p : f64) (s : series) : series :=
  match s with
  | [] => []
  | x :: rest => fsub x p :: deltas x rest
  end.

Definition clip0 (x : f64) : f64 := if flt x fzero then fzero else x.

Definition zero_or_nan (x : f64) : Prop := x = NaN \/ x = fzero.

(** ** The adjusted close of one line *)

(** What the loader computes for one row. *)
Definition adjusted_close_of (adjusted close : f64) : f64 :=
  let v := if notna adjusted then adjusted else close in
  if fle v fzero then NaN else v.

(** What the specification describes for one row: the source value is
    taken only when it is present and positive. *)
Definition spec_adjusted_close (adjusted close : f64) : f64 :=
  let v := if notna adjusted && fgt adjusted fzero then adjusted else close in
  if fle v fzero then NaN else v.

(** Every column of the file has one cell per line. *)
Definition wf_raw (csv : RawFrame) : bool :=
  forallb (fun nc => length (snd nc) =? length (raw_get "date" csv)) csv.

(** ** Columns a stage can read *)

(** Column [name] exists and can be read as numbers. *)
Definition readable (name : string) (df : DataFrame) : bool :=
  is_ok (getf df name).

(** The columns [build_features] reads from its input. *)
Definition input_columns : list string :=
  ["adj_close"; "volume"; "high"; "low"; "close"; "open"]%string.

(** A stage that goes through on every table with the tickers [keys] in
    which the columns [reads] are numeric; it keeps the tickers, keeps
    every numeric column numeric, and leaves the columns [makes]
    numeric. *)
Definition runs (keys : list string) (reads makes : list string)
  (step : DataFrame -> result DataFrame) : Prop :=
  forall df,
    ticker df = keys ->
    (forall n, In n reads -> readable n df = true) ->
    exists out,
      step df = Ok out
      /\ ticker out = keys
      /\ (forall n, readable n df = true -> readable n out = true)
      /\ (forall n, In n makes -> readable n out = true).

(** ** The names of the columns after an assignment *)

(** The names after [df[n] = ...]: a new name goes to the end, a name
    already there keeps its place. *)
Definition add_name (l : list string) (n : string) : list string :=
  if mem_string n l then l else l ++ [n].

Definition add_names (l ns : list string) : list string :=
  fold_left add_name ns l.

(** After the stage the columns are those of the input and then the new
    ones among [ns], in the order of [ns]. *)
Definition names_after (ns : list string)
  (step : DataFrame -> result DataFrame) : Prop :=
  forall df out,
    step df = Ok out -> column_names out = add_names (column_names df) ns.

(** ** The place of a row within its ticker *)

(** How many rows before row [i] belong to the ticker of row [i]. *)
Definition rows_before (keys : list string) (i : nat) : nat :=
  count_occ string_dec (firstn i keys) (nth i keys EmptyString).

(** How many rows after row [i] belong to the ticker of row [i]. *)
Definition rows_after (keys : list string) (i : nat) : nat :=
  count_occ string_dec (skipn (S i) keys) (nth i keys EmptyString).

(* ================================================================== *)
(** * [data_loader.py]: [fetch_ohlcv] and [fetch_many] *)
(* ================================================================== *)

(** One entry of [historicalDataPrice].  Of the JSON object only the
    seven keys that [df[expected_cols]] keeps are modelled; [None] is a
    key that is absent or [null]: both give a missing cell. *)
Record Bar : Type := mkBar {
  bar_date : option raw;
  bar_open : option raw;
  bar_high : option raw;
  bar_low : option raw;
  bar_close : option raw;
  bar_volume : option raw;
  bar_adjustedClose : option raw
}.

(** One entry of ["results"]. *)
Record Quote : Type := mkQuote {
  historicalDataPrice : option (list Bar)
}.

(** What [requests.get], [raise_for_status] and [resp.json()] leave for
    one ticker: an exception, or the payload with its ["results"]
    entry ([None] when the key is absent or [null]). *)
Inductive Reply : Type :=
| RequestFailed (msg : string)
| Payload (results : option (list Quote)).

(** The exceptions of [fetch_ohlcv]: the one of the request, and its two
    [ValueError]s. *)
Inductive fetch_exn : Type :=
| RequestException (msg : string)
| NoResults (ticker : string)
| NoHistory (ticker : string).

Inductive attempt (E A : Type) : Type :=
| Got (a : A)
| Failed (e : E).

(** The frame [fetch_ohlcv] returns: the dates and the six numeric
    columns, by name, in order. *)
Record Ohlcv : Type := mkOhlcv {
  o_date : list Z;
  o_columns : list (string * series)
}.

(** Ascending order of dates, with NaT last. *)
Definition nat_last_leb (a b : option Z) : bool :=
  match a, b with
  | Some x, Some y => (x <=? y)%Z
  | _, None => true
  | None, Some _ => false
  end.

(** What [data_loader.py] takes from pandas: the reading of an epoch in
    seconds, and the routine behind [sort_values("date")], which puts
    the rows in ascending order of date with NaT last and leaves rows of
    equal date in an order of its own (the default quicksort is not
    stable). *)
Class PandasDates : Type := {
  (** [pd.to_datetime(cell, unit="s", errors="coerce")]: [None] is NaT *)
  datetime_of_epoch : raw -> option Z;
  (** the row positions in the order [sort_values] gives *)
  argsort : list (option Z) -> list nat;
  argsort_perm : forall l, Permutation (argsort l) (seq 0 (length l));
  argsort_sorted :
    forall l,
      Sorted (fun i j => nat_last_leb (nth i l None) (nth j l None) = true)
        (argsort l)
}.

Definition cell_of (o : option raw) : raw :=
  match o with Some c => c | None => RNum NaN end.

(** The columns made numeric, with the key each is read from. *)
Definition numeric_fields : list (string * (Bar -> option raw)) :=
  [("open", bar_open); ("high", bar_high); ("low", bar_low);
   ("close", bar_close); ("volume", bar_volume);
   ("adjustedClose", bar_adjustedClose)]%string.

(** The frame built from a non-empty history: dates read, rows sorted by
    date, columns made numeric, rows without date or close dropped. *)
Definition frame_of_history {pd : Pandas} {pdd : PandasDates}
  (hist : list Bar) : Ohlcv :=
  (* df["date"] = pd.to_datetime(df["date"], unit="s", errors="coerce") *)
  let dates :=
    map (fun b => match bar_date b with
                  | Some c => datetime_of_epoch c
                  | None => None
                  end) hist in
  (* df = df[expected_cols].sort_values("date").reset_index(drop=True) *)
  let order := argsort dates in
  let dates := take None order dates in
  (* df[col] = pd.to_numeric(df[col], errors="coerce") *)
  let numeric (get : Bar -> option raw) : series :=
    map to_numeric
      (take (RNum NaN) order (map (fun b => cell_of (get b)) hist)) in
  (* df = df.dropna(subset=["date", "close"]).reset_index(drop=True) *)
  let keep := map2 andb (map is_some dates) (map notna (numeric bar_close)) in
  {| o_date :=
       map (fun d => match d with Some z => z | None => 0%Z end)
         (select keep dates);
     o_columns :=
       map (fun nf => (fst nf, select keep (numeric (snd nf))))
         numeric_fields |}.

Definition fetch_ohlcv {pd : Pandas} {pdd : PandasDates} (ticker : string)
  (reply : Reply) : attempt fetch_exn Ohlcv :=
  match reply with
  | RequestFailed msg => Failed _ _ (RequestException msg)
  | Payload results =>
      match results with
      | None | Some [] => Failed _ _ (NoResults ticker)
      | Some (first :: _) =>
          match historicalDataPrice first with
          | None | Some [] => Failed _ _ (NoHistory ticker)
          | Some hist => Got _ _ (frame_of_history hist)
          end
      end
  end.

(** [os.path.join(dir, name)], on POSIX. *)
Definition ends_with_slash (s : string) : bool :=
  match String.get (String.length s - 1) s with
  | Some c => Ascii.eqb c "/"
  | None => false
  end.

Definition path_join (dir name : string) : string :=
  if String.prefix "/" name then name
  else if (String.length dir =? 0) || ends_with_slash dir
       then (dir ++ name)%string
       else (dir ++ "/" ++ name)%string.

(** [df_long = df.copy(); df_long.insert(1, "ticker", ticker)] *)
Definition long_frame (ticker : string) (df : Ohlcv) : DataFrame :=
  {| ticker := repeat ticker (length (o_date df));
     date := o_date df;
     columns := map (fun nc => (fst nc, ColF (snd nc))) (o_columns df) |}.

(** What [fetch_many] writes to a file. *)
Inductive FileContent : Type :=
| TickerCsv (df : Ohlcv)
| LongCsv (df : DataFrame)
| FailureLog (lines : list (string * fetch_exn)).

(** The state of the loop of [fetch_many]: the frames and the failures
    collected, and the files written so far. *)
Record LoopState : Type := mkLoop {
  all_frames : list DataFrame;
  failures : list (string * fetch_exn);
  written : list (string * FileContent)
}.

(** One turn of the loop, for a ticker and the reply to its request. *)
Definition fetch_step {pd : Pandas} {pdd : PandasDates} (out_dir : string)
  (st : LoopState) (call : string * Reply) : LoopState :=
  let ticker := fst call in
  match fetch_ohlcv ticker (snd call) with
  | Got _ _ df =>
      {| all_frames := all_frames st ++ [long_frame ticker df];
         failures := failures st;
         written :=
           written st
           ++ [(path_join out_dir (ticker ++ ".csv"), TickerCsv df)] |}
  | Failed _ _ e =>
      {| all_frames := all_frames st;
         failures := failures st ++ [(ticker, e)];
         written := written st |}
  end.

(** The [RuntimeError] of [fetch_many], with the example it shows. *)
Inductive many_exn : Type :=
| RuntimeError (example : list (string * fetch_exn)).

(** What [fetch_many] leaves: the table it returns, the failures it
    recorded, and the files it wrote, in order. *)
Record Fetched : Type := mkFetched {
  combined : DataFrame;
  failed : list (string * fetch_exn);
  files : list (string * FileContent)
}.

(** [fetch_many], given the tickers with the reply to the request of
    each.  File writes are taken to succeed. *)
Definition fetch_many {pd : Pandas} {pdd : PandasDates}
  (calls : list (string * Reply)) (out_dir consolidated_filename : string)
  : attempt many_exn Fetched :=
  let st := fold_left (fetch_step out_dir) calls (mkLoop [] [] []) in
  match all_frames st with
  | [] => Failed _ _ (RuntimeError (firstn 1 (failures st)))
  | first :: others =>
      (* combined = pd.concat(all_frames, ignore_index=True) *)
      let combined := fold_left concat_rows others first in
      (* combined.sort_values(["date", "ticker"]).reset_index(drop=True) *)
      let combined :=
        take_rows
          (sorted_positions date_ticker_leb (date_ticker_key combined)
             (nrows combined))
          combined in
      let files :=
        written st
        ++ [(path_join out_dir consolidated_filename, LongCsv combined)] in
      let files :=
        match failures st with
        | [] => files
        | _ :: _ =>
            files
            ++ [(path_join out_dir "failures_top40.txt",
                 FailureLog (failures st))]
        end in
      Got _ _ {| combined := combined; failed := failures st; files := files |}
  end.

(** The row a bar gives: its date and its six numbers, in the order of
    the columns. *)
Definition bar_row {pd : Pandas} {pdd : PandasDates} (b : Bar)
  : option Z * list f64 :=
  (match bar_date b with Some c => datetime_of_epoch c | None => None end,
   map (fun nf => to_numeric (cell_of (snd nf b))) numeric_fields).

(** The rows that [dropna(subset=["date", "close"])] keeps; [close] is
    the fourth of the six numbers. *)
Definition row_kept (r : option Z * list f64) : bool :=
  is_some (fst r) && notna (nth 3 (snd r) NaN).

Definition dated (r : option Z * list f64) : Z * list f64 :=
  (match fst r with Some z => z | None => 0%Z end, snd r).

(** The rows of a frame of [fetch_ohlcv]. *)
Definition ohlcv_rows (df : Ohlcv) : list (Z * list f64) :=
  map (fun i => (nth i (o_date df) 0%Z,
                 map (fun nc => nth i (snd nc) NaN) (o_columns df)))
    (seq 0 (length (o_date df))).

(** A bar with no key. *)
Definition empty_bar : Bar := mkBar None None None None None None None.

(** The frames of the tickers whose request gives one, in order. *)
Definition fetched_frames {pd : Pandas} {pdd : PandasDates}
  (calls : list (string * Reply)) : list (string * Ohlcv) :=
  flat_map (fun c => match fetch_ohlcv (fst c) (snd c) with
                     | Got _ _ df => [(fst c, df)]
                     | Failed _ _ _ => []
                     end) calls.

(** The tickers whose request fails, with the exception, in order. *)
Definition failed_calls {pd : Pandas} {pdd : PandasDates}
  (calls : list (string * Reply)) : list (string * fetch_exn) :=
  flat_map (fun c => match fetch_ohlcv (fst c) (snd c) with
                     | Got _ _ _ => []
                     | Failed _ _ e => [(fst c, e)]
                     end) calls.

(** The file [save_raw] writes for a ticker. *)
Definition ticker_file (out_dir : string) (p : string * Ohlcv)
  : string * FileContent :=
  (path_join out_dir (fst p ++ ".csv"), TickerCsv (snd p)).

(** The shape of every frame [fetch_many] stacks. *)
Definition long_schema : list (string * dtype) :=
  map (fun nf => (fst nf, Float64)) numeric_fields.

(** A table in the long format: one value per row in every column, the
    six numeric columns, and no undefined [close]. *)
Definition long_format (df : DataFrame) : Prop :=
  wf_frame df = true
  /\ schema df = long_schema
  /\ exists close,
       getf df "close" = Ok close /\ Forall (fun x => notna x = true) close.

(* ================================================================== *)
(** * Sample data *)
(* ================================================================== *)

Definition zf (z : Z) : f64 := Fin (inject_Z z).

(** A small configuration, so that short tables leave the warm-up. *)
Definition demo_config : FeatureConfig :=
  {| min_history := 1;
     horizon_weekly := 1;
     horizon_monthly := 2;
     vol_windows := [2];
     ma_windows := [2];
     mom_windows := [1; 2];
     rsi_window := 2 |}.

Definition demo_a : DataFrame :=
  {| ticker := ["PETR4"; "PETR4"; "PETR4"; "PETR4"]%string;
     date := [1; 2; 3; 4]%Z;
     columns :=
       [("open", ColF (map zf [10; 11; 12; 11]%Z));
        ("high", ColF (map zf [12; 12; 13; 12]%Z));
        ("low", ColF (map zf [9; 10; 11; 10]%Z));
        ("close", ColF (map zf [11; 12; 11; 12]%Z));
        ("volume", ColF (map zf [100; 0; 300; 200]%Z));
        ("adj_close", ColF (map zf [11; 12; 11; 12]%Z))]%string |}.

Definition demo_b : DataFrame :=
  {| ticker := ["VALE3"; "VALE3"; "VALE3"]%string;
     date := [2; 3; 4]%Z;
     columns :=
       [("open", ColF (map zf [50; 52; 51]%Z));
        ("high", ColF (map zf [53; 53; 55]%Z));
        ("low", ColF (map zf [49; 50; 50]%Z));
        ("close", ColF (map zf [52; 51; 54]%Z));
        ("volume", ColF (map zf [1000; 1000; 1000]%Z));
        ("adj_close", ColF (map zf [52; 51; 54]%Z))]%string |}.

Definition demo_table : DataFrame := concat_rows demo_a demo_b.

Definition run_or {A : Type} (d : A) (c : result A) : A :=
  match c with Ok a => a | Raise _ => d end.

Definition demo_features_a : DataFrame :=
  run_or demo_a (@build_features toy_pandas demo_a demo_config).
Definition demo_features_b : DataFrame :=
  run_or demo_b (@build_features toy_pandas demo_b demo_config).
Definition demo_features : DataFrame :=
  run_or demo_table (@build_features toy_pandas demo_table demo_config).

(** Seven rising prices of one ticker. *)
Definition labels_table : DataFrame :=
  {| ticker := repeat "PETR4"%string 7;
     date := [1; 2; 3; 4; 5; 6; 7]%Z;
     columns :=
       [("adj_close"%string, ColF (map zf [10; 11; 12; 13; 14; 15; 16]%Z))] |}.

(** One bar with a zero low and a zero open. *)
Definition zero_low_table : DataFrame :=
  {| ticker := ["VALE3"%string];
     date := [1%Z];
     columns :=
       [("open", ColF [zf 0]); ("high", ColF [zf 2]); ("low", ColF [zf 0]);
        ("close", ColF [zf 1]); ("volume", ColF [zf 1000]);
        ("adj_close", ColF [zf 1])]%string |}.

(** A file of three lines for one ticker.  The line dated 2024-01-02
    has a text that is no number in [close]; the line dated 2024-01-03
    has a negative source adjusted close; the line dated 2024-01-04 has
    none.  With a text in it, the whole [close] column is read as text. *)
Definition sample_csv : RawFrame :=
  [("date", [RStr "2024-01-04"; RStr "2024-01-02"; RStr "2024-01-03"]);
   ("ticker", [RStr "petr4"; RStr " PETR4"; RStr "PETR4"]);
   ("open", [RNum (zf 10); RNum (zf 10); RNum (zf 10)]);
   ("high", [RNum (zf 12); RNum (zf 12); RNum (zf 12)]);
   ("low", [RNum (zf 9); RNum (zf 9); RNum (zf 9)]);
   ("close", [RStr "11"; RStr "n/d"; RStr "5"]);
   ("volume", [RNum (zf 100); RNum (zf 100); RNum (zf 100)]);
   ("adjustedClose", [RNum NaN; RNum (zf 11); RNum (zf (-1))])]%string.

Definition sample_loaded : DataFrame :=
  run_or (mkFrame [] [] []) (@load_long_dataset toy_pandas sample_csv).

(** Prices rising by one percent a row, from 100. *)
Fixpoint compound (n : nat) : Q :=
  match n with
  | O => 100%Q
  | S k => Qred (compound k * (101 # 100))%Q
  end.

Definition rising_prices : list Q := map compound (seq 0 20).
Definition falling_prices : list Q := rev rising_prices.
Definition zigzag_prices : series :=
  map zf [6; 5; 7; 3; 8; 1; 4; 4; 4; 4; 10]%Z.

(** A table that already has a column called [hl_range]. *)
Definition relabelled_table : DataFrame :=
  assign zero_low_table "hl_range" (ColF [zf 7]).

(** A table with the required columns, partly undefined, and a target. *)
Definition final_table : DataFrame :=
  {| ticker := ["VALE3"; "PETR4"; "PETR4"; "VALE3"]%string;
     date := [2; 1; 2; 1]%Z;
     columns :=
       [("ret_1d", ColF [zf 1; NaN; zf 3; zf 4]);
        ("rsi_14", ColF [zf 50; zf 50; zf 50; zf 50]);
        ("vol_21", ColF [zf 1; zf 1; zf 1; zf 1]);
        ("price_to_ma_21", ColF [zf 0; zf 0; zf 0; zf 0]);
        ("mom_21d", ColF [zf 2; zf 2; zf 2; zf 2]);
        ("target_w", ColI [None; Some 1%Z; None; Some 0%Z])]%string |}.

(** The table [finalize_dataset] returns on the sample. *)
Definition sample_final : DataFrame :=
  run_or final_table (finalize_dataset final_table default_config).


(** A history of four bars, out of order: one without a date, one whose
    [close] is a text that is no number. *)
(** The features of the sample table with both targets. *)
Definition demo_targets : DataFrame :=
  run_or demo_features (add_targets demo_features demo_config both).

(* ================================================================== *)
(** * Lists *)
(* ================================================================== *)

Section ListFacts.

Context {A B C : Type}.

Lemma map2_length (f : A -> B -> C) (a : list A) (b : list B) :
  length (map2 f a b) = Nat.min (length a) (length b).
Proof.
  revert b; induction a as [|x a IH]; intros [|y b]; simpl; auto.
Qed.

Lemma firstn_map2 (f : A -> B -> C) (n : nat) (a : list A) (b : list B) :
  firstn n (map2 f a b) = map2 f (firstn n a) (firstn n b).
Proof.
  revert a b; induction n as [|n IH]; intros [|x a] [|y b]; simpl; auto.
  f_equal; apply IH.
Qed.

Lemma select_map (f : A -> B) (m : list bool) (l : list A) :
  select m (map f l) = map f (select m l).
Proof.
  revert l; induction m as [|b m IH]; intros [|x l]; simpl; auto.
  destruct b; simpl; rewrite IH; reflexivity.
Qed.

Lemma select_map2 (f : A -> B -> C) (m : list bool) (a : list A) (b : list B) :
  select m (map2 f a b) = map2 f (select m a) (select m b).
Proof.
  revert a b; induction m as [|c m IH]; intros [|x a] [|y b]; simpl; auto.
  - destruct c; auto. destruct (select m a); auto.
  - destruct c; simpl; rewrite IH; reflexivity.
Qed.

Lemma select_length_eq (m : list bool) (a : list A) (b : list B) :
  length a = length b -> length (select m a) = length (select m b).
Proof.
  revert a b; induction m as [|c m IH]; intros [|x a] [|y b]; simpl;
    try discriminate; auto.
  intros H; injection H as H. destruct c; simpl; auto.
Qed.

Lemma select_nil (m : list bool) : select m (@nil A) = [].
Proof. destruct m; reflexivity. Qed.

Lemma select_all (l : list A) : select (repeat true (length l)) l = l.
Proof. induction l; simpl; congruence. Qed.

Lemma select_app (m1 m2 : list bool) (l1 l2 : list A) :
  length m1 = length l1 ->
  select (m1 ++ m2) (l1 ++ l2) = select m1 l1 ++ select m2 l2.
Proof.
  revert l1; induction m1 as [|b m1 IH]; intros [|x l1]; simpl;
    try discriminate; auto.
  intros H; injection H as H. destruct b; simpl; rewrite IH; auto.
Qed.

Lemma select_none (n : nat) (l : list A) : select (repeat false n) l = [].
Proof.
  revert l; induction n as [|n IH]; intros [|x l]; simpl; auto.
Qed.

Lemma select_filter (p : A -> bool) (l : list A) :
  select (map p l) l = filter p l.
Proof.
  induction l as [|x l IH]; simpl; auto.
  destruct (p x); rewrite IH; reflexivity.
Qed.

Lemma nth_firstn_lt (d : A) (l : list A) (i n : nat) :
  i < n -> nth i (firstn n l) d = nth i l d.
Proof.
  revert i l; induction n as [|n IH]; intros i l Hi; [lia|].
  destruct l as [|x l]; simpl; [destruct i; reflexivity|].
  destruct i; simpl; auto. apply IH; lia.
Qed.

Lemma firstn_app_le (n : nat) (l1 l2 : list A) :
  n <= length l1 -> firstn n (l1 ++ l2) = firstn n l1.
Proof.
  intros H. rewrite firstn_app.
  replace (n - length l1) with 0 by lia. simpl. apply app_nil_r.
Qed.

End ListFacts.

(* ================================================================== *)
(** * Causal series functions *)
(* ================================================================== *)

Lemma causal_compose (f g : series -> series) :
  causal f -> causal g -> causal (fun s => g (f s)).
Proof.
  intros [Lf Cf] [Lg Cg]; split; intros.
  - rewrite Lg; apply Lf.
  - rewrite Cf; apply Cg.
Qed.

Lemma causal_map (h : f64 -> f64) (f : series -> series) :
  causal f -> causal (fun s => map h (f s)).
Proof.
  intros [Lf Cf]; split; intros.
  - rewrite length_map; apply Lf.
  - rewrite Cf, firstn_map; reflexivity.
Qed.

Lemma causal_map2 (h : f64 -> f64 -> f64) (f g : series -> series) :
  causal f -> causal g -> causal (fun s => map2 h (f s) (g s)).
Proof.
  intros [Lf Cf] [Lg Cg]; split; intros.
  - rewrite map2_length, Lf, Lg; lia.
  - rewrite Cf, Cg, firstn_map2; reflexivity.
Qed.

Lemma causal_id : causal (fun s => s).
Proof. split; auto. Qed.

Lemma shift_length (p : nat) (s : series) : length (shift p s) = length s.
Proof.
  unfold shift. rewrite length_firstn, length_app, repeat_length. lia.
Qed.

Lemma causal_shift (p : nat) : causal (shift p).
Proof.
  split; [apply shift_length|].
  intros s n. unfold shift. rewrite firstn_firstn, length_firstn.
  rewrite !firstn_app, repeat_length, firstn_firstn.
  f_equal. f_equal. lia.
Qed.

Lemma shift_0 (s : series) : shift 0 s = s.
Proof. unfold shift; simpl. apply firstn_all. Qed.

Lemma ffill_from_length (x : f64) (s : series) :
  length (ffill_from x s) = length s.
Proof. revert x; induction s; simpl; auto. Qed.

Lemma ffill_from_firstn (x : f64) (s : series) (n : nat) :
  ffill_from x (firstn n s) = firstn n (ffill_from x s).
Proof.
  revert x n; induction s as [|y s IH]; intros x [|n]; simpl; auto.
  f_equal; apply IH.
Qed.

Lemma causal_ffill : causal ffill.
Proof.
  split; intros; [apply ffill_from_length | apply ffill_from_firstn].
Qed.

Lemma causal_diff : causal diff.
Proof. apply (causal_map2 fsub _ _ causal_id (causal_shift 1)). Qed.

Lemma rolling_from_length w agg past s :
  length (rolling_from w agg past s) = length s.
Proof. revert past; induction s; simpl; auto. Qed.

Lemma rolling_from_firstn w agg past s n :
  rolling_from w agg past (firstn n s) = firstn n (rolling_from w agg past s).
Proof.
  revert past n; induction s as [|y s IH]; intros past [|n]; simpl; auto.
  f_equal; apply IH.
Qed.

Lemma causal_roll w agg : causal (roll w agg).
Proof.
  split; intros; [apply rolling_from_length | apply rolling_from_firstn].
Qed.

Lemma ewm_loop_length alpha minp st s :
  length (ewm_loop alpha minp st s) = length s.
Proof. revert st; induction s; simpl; auto. Qed.

Lemma ewm_loop_firstn alpha minp st s n :
  ewm_loop alpha minp st (firstn n s) = firstn n (ewm_loop alpha minp st s).
Proof.
  revert st n; induction s as [|y s IH]; intros st [|n]; simpl; auto.
  f_equal; apply IH.
Qed.

Lemma causal_ewm alpha minp : causal (ewm alpha minp).
Proof.
  split.
  - intros [|x s]; simpl; auto. rewrite ewm_loop_length; auto.
  - intros [|x s] [|n]; simpl; auto.
    f_equal. apply ewm_loop_firstn.
Qed.

Section WindowRoutines.

Context {pd : Pandas}.

Lemma causal_prep_values : causal prep_values.
Proof.
  unfold prep_values. destruct window_drops_inf.
  - apply (causal_map _ _ causal_id).
  - apply causal_id.
Qed.

Lemma causal_rolling w agg : causal (rolling w agg).
Proof.
  apply (causal_compose prep_values (roll w agg));
    auto using causal_prep_values, causal_roll.
Qed.

Lemma causal_ewm_mean alpha minp : causal (ewm_mean alpha minp).
Proof.
  apply (causal_compose prep_values (ewm alpha minp));
    auto using causal_prep_values, causal_ewm.
Qed.

Lemma causal_rsi_values (window : nat) :
  causal (fun s => rsi_values s window).
Proof.
  unfold rsi_values, rsi_avg_gain, rsi_avg_loss, rsi_gain, rsi_loss.
  apply (causal_map _ (fun s => map2 fdiv _ _)).
  apply (causal_map2 fdiv).
  - apply (causal_compose (fun s => clip_lower0 (diff s))).
    + apply (causal_map _ diff), causal_diff.
    + apply causal_ewm_mean.
  - unfold replace_zero.
    apply (causal_map _ (fun s => ewm_mean _ _ _)).
    apply (causal_compose (fun s => clip_lower0 (map fneg (diff s)))).
    + unfold clip_lower0.
      apply (causal_map _ (fun s => map fneg (diff s))).
      apply (causal_map _ diff), causal_diff.
    + apply causal_ewm_mean.
Qed.

End WindowRoutines.

Section WithPandas.
Context {pd : Pandas}.

Lemma causal_pct_change (p : nat) : causal (pct_change p).
Proof.
  unfold pct_change. destruct pct_change_pads.
  - apply (causal_map2 _ ffill (fun s => shift p (ffill s))); auto using causal_ffill.
    apply causal_compose; auto using causal_ffill, causal_shift.
  - apply (causal_map2 _ (fun s => s) (shift p)); auto using causal_id, causal_shift.
Qed.

End WithPandas.

(* ================================================================== *)
(** * Group-wise operations under row selection *)
(* ================================================================== *)

Lemma scatter_length keys rank res : length (scatter keys rank res) = length keys.
Proof. revert rank; induction keys; simpl; auto. Qed.

Lemma grouped_length f keys col : length (grouped f keys col) = length keys.
Proof. apply scatter_length. Qed.

Lemma scatter_ext keys rank rank' res res' :
  (forall k, rank k = rank' k) -> (forall k, res k = res' k) ->
  scatter keys rank res = scatter keys rank' res'.
Proof.
  revert rank rank'; induction keys as [|k keys IH]; intros rank rank' Hr Hs;
    simpl; auto.
  rewrite Hr, Hs. f_equal. apply IH; auto.
  intros k'. rewrite Hr. reflexivity.
Qed.

Lemma group_values_cons_same k keys v col :
  group_values k (k :: keys) (v :: col) = v :: group_values k keys col.
Proof. unfold group_values; simpl. rewrite String.eqb_refl. reflexivity. Qed.

Lemma group_values_cons_other k k' keys v col :
  String.eqb k' k = false ->
  group_values k' (k :: keys) (v :: col) = group_values k' keys col.
Proof. unfold group_values; simpl. intros ->. reflexivity. Qed.

Lemma scatter_online f keys col rank res hist :
  causal f ->
  length keys = length col ->
  (forall k, rank k = length (hist k)) ->
  (forall k, res k = f (hist k ++ group_values k keys col)) ->
  scatter keys rank res = online (last_of f) hist keys col.
Proof.
  intros [Lf Cf].
  revert col rank res hist.
  induction keys as [|k keys IH]; intros [|v col] rank res hist Hlen Hr Hs;
    simpl in *; try discriminate; auto.
  injection Hlen as Hlen. f_equal.
  - rewrite Hr, Hs, group_values_cons_same. unfold last_of.
    rewrite length_app; simpl.
    replace (length (hist k) + 1 - 1) with (length (hist k)) by lia.
    rewrite <- (nth_firstn_lt NaN (f (hist k ++ v :: group_values k keys col))
                 (length (hist k)) (S (length (hist k)))) by lia.
    rewrite <- Cf. f_equal. f_equal.
    replace (S (length (hist k))) with (length (hist k ++ [v]))
      by (rewrite length_app; simpl; lia).
    change (v :: group_values k keys col) with ([v] ++ group_values k keys col).
    rewrite app_assoc. rewrite firstn_app_le by lia. apply firstn_all.
  - apply IH; auto.
    + intros k'. destruct (String.eqb k' k) eqn:E.
      * apply String.eqb_eq in E; subst k'. rewrite Hr, length_app; simpl; lia.
      * apply Hr.
    + intros k'. rewrite Hs. destruct (String.eqb k' k) eqn:E.
      * apply String.eqb_eq in E; subst k'.
        rewrite group_values_cons_same, <- app_assoc. reflexivity.
      * rewrite group_values_cons_other by assumption. reflexivity.
Qed.

Lemma grouped_online f keys col :
  causal f -> length keys = length col ->
  grouped f keys col = online (last_of f) (fun _ => []) keys col.
Proof.
  intros Hf Hlen. unfold grouped. apply scatter_online; auto.
Qed.

Lemma alive_cons k' k keys b m :
  alive k' (k :: keys) (b :: m) = (String.eqb k k' && b) || alive k' keys m.
Proof. reflexivity. Qed.

Lemma online_select g keys m col hist1 hist2 :
  length keys = length col -> length m = length keys ->
  prefix_closed keys m = true ->
  (forall k, alive k keys m = true -> hist1 k = hist2 k) ->
  select m (online g hist1 keys col)
  = online g hist2 (select m keys) (select m col).
Proof.
  revert m col hist1 hist2.
  induction keys as [|k keys IH]; intros [|b m] [|v col] hist1 hist2 Hl Hm Hp Hh;
    simpl in *; try discriminate; auto.
  injection Hl as Hl. injection Hm as Hm.
  apply andb_prop in Hp. destruct Hp as [Hb Hp].
  destruct b; simpl in *.
  - rewrite (Hh k) by (rewrite alive_cons, String.eqb_refl; reflexivity).
    f_equal. apply IH; auto.
    intros k' Hk'. destruct (String.eqb k' k) eqn:E; auto.
    apply Hh. rewrite alive_cons, Hk'. apply orb_true_r.
  - apply IH; auto.
    intros k' Hk'. destruct (String.eqb k' k) eqn:E.
    + apply String.eqb_eq in E; subst k'.
      rewrite Hk' in Hb. discriminate.
    + apply Hh. rewrite alive_cons, Hk'. apply orb_true_r.
Qed.

(** Selecting rows commutes with a causal group-wise operation when the
    selection keeps a prefix of every group. *)
Lemma grouped_select f keys m col :
  causal f ->
  length col = length keys -> length m = length keys ->
  prefix_closed keys m = true ->
  select m (grouped f keys col) = grouped f (select m keys) (select m col).
Proof.
  intros Hf Hc Hm Hp.
  rewrite (grouped_online f keys col) by auto.
  rewrite (grouped_online f (select m keys) (select m col))
    by (auto using select_length_eq).
  apply online_select; auto.
Qed.

(* ================================================================== *)
(** * Sorting *)
(* ================================================================== *)

Section SortingFacts.

Context {K : Type} (leb : K -> K -> bool).
Hypothesis leb_total : forall x y, leb x y = true \/ leb y x = true.

Lemma insert_sorted_perm (x : K) (l : list K) :
  Permutation (insert_sorted leb x l) (x :: l).
Proof.
  induction l as [|y l IH]; simpl; auto.
  destruct (leb x y); auto.
  rewrite IH. apply perm_swap.
Qed.

Lemma isort_perm (l : list K) : Permutation (isort leb l) l.
Proof.
  induction l as [|x l IH]; simpl; auto.
  rewrite insert_sorted_perm. auto.
Qed.

Lemma insert_sorted_sorted (x : K) (l : list K) :
  Sorted (fun a b => leb a b = true) l ->
  Sorted (fun a b => leb a b = true) (insert_sorted leb x l).
Proof.
  induction l as [|y l IH]; simpl; intros Hs.
  - repeat constructor.
  - destruct (leb x y) eqn:E.
    + constructor; auto.
    + inversion Hs as [|? ? Hs' Hhd]; subst.
      constructor; auto.
      destruct l as [|z l]; simpl in *.
      * constructor. destruct (leb_total x y); congruence.
      * destruct (leb x z); constructor.
        -- destruct (leb_total x y); congruence.
        -- inversion Hhd; auto.
Qed.

Lemma isort_sorted (l : list K) :
  Sorted (fun a b => leb a b = true) (isort leb l).
Proof.
  induction l as [|x l IH]; simpl; [constructor|].
  apply insert_sorted_sorted; auto.
Qed.

End SortingFacts.

Lemma isort_nil_inv {K : Type} (leb : K -> K -> bool) (l : list K) :
  isort leb l = [] -> l = [].
Proof.
  intros H. pose proof (isort_perm leb l) as P. rewrite H in P.
  apply Permutation_nil in P. assumption.
Qed.

(* ================================================================== *)
(** * [transform] *)
(* ================================================================== *)

Lemma for_each_all_ok {A : Type} (xs : list A) (step : A -> unit -> result unit) :
  (forall x, step x tt = Ok tt) -> for_each xs step tt = Ok tt.
Proof.
  intros H. induction xs as [|x xs IH]; simpl; auto.
  rewrite H. simpl. assumption.
Qed.

Lemma transform_total (f : series -> result series) (f' : series -> series)
  keys col :
  (forall s, f s = Ok (f' s)) ->
  transform f keys col = Ok (grouped f' keys col).
Proof.
  intros H. unfold transform.
  rewrite for_each_all_ok by (intros x; rewrite H; reflexivity).
  simpl. f_equal. unfold grouped. apply scatter_ext; auto.
  intros k. rewrite H. reflexivity.
Qed.

Lemma group_keys_nil_inv keys : group_keys keys = [] -> keys = [].
Proof.
  unfold group_keys. intros H. apply isort_nil_inv in H.
  destruct keys as [|k keys]; auto.
  assert (In k (nodup string_dec (k :: keys))) as Hin
      by (apply nodup_In; left; reflexivity).
  rewrite H in Hin. destruct Hin.
Qed.

Lemma transform_always_raises (f : series -> result series) e keys col :
  (forall s, f s = Raise e) ->
  transform f keys col = match keys with [] => Ok [] | _ => Raise e end.
Proof.
  intros H. unfold transform.
  destruct keys as [|k keys]; [reflexivity|].
  destruct (group_keys (k :: keys)) as [|k0 ks] eqn:E.
  - apply group_keys_nil_inv in E. discriminate.
  - simpl. rewrite H. reflexivity.
Qed.

Lemma transform_length f keys col r :
  transform f keys col = Ok r -> length r = length keys.
Proof.
  unfold transform. destruct (for_each _ _ _); simpl; [|discriminate].
  intros H; injection H as <-. apply grouped_length.
Qed.

Lemma transform_select_total (f' : series -> series) keys m col r :
  causal f' ->
  length col = length keys -> length m = length keys ->
  prefix_closed keys m = true ->
  transform (fun s => Ok (f' s)) keys col = Ok r ->
  transform (fun s => Ok (f' s)) (select m keys) (select m col)
  = Ok (select m r).
Proof.
  intros Hf Hc Hm Hp. rewrite !(transform_total _ f') by reflexivity.
  intros H; injection H as <-. f_equal. symmetry. apply grouped_select; auto.
Qed.

Lemma transform_select_rsi {pd : Pandas} window keys m col r :
  length col = length keys -> length m = length keys ->
  prefix_closed keys m = true ->
  transform (fun s => _rsi s window) keys col = Ok r ->
  transform (fun s => _rsi s window) (select m keys) (select m col)
  = Ok (select m r).
Proof.
  intros Hc Hm Hp. destruct window as [|w].
  - rewrite (transform_always_raises _ ZeroDivisionError) by reflexivity.
    destruct keys as [|k keys]; [|discriminate].
    intros H; injection H as <-. rewrite !select_nil. reflexivity.
  - rewrite !(transform_total _ (fun s => rsi_values s (S w))) by reflexivity.
    intros H; injection H as <-. f_equal. symmetry.
    apply grouped_select; auto using causal_rsi_values.
Qed.

(* ================================================================== *)
(** * Frames: columns, selection of rows *)
(* ================================================================== *)

Lemma find_col_set_same name c cols :
  find_col name (set_col name c cols) = Some c.
Proof.
  induction cols as [|[n c0] cols IH]; simpl.
  - rewrite String.eqb_refl. reflexivity.
  - destruct (String.eqb name n) eqn:E; simpl; rewrite E; auto.
Qed.

Lemma find_col_set_other name name' c cols :
  String.eqb name name' = false ->
  find_col name (set_col name' c cols) = find_col name cols.
Proof.
  intros Hne. induction cols as [|[n c0] cols IH]; simpl.
  - rewrite Hne. reflexivity.
  - destruct (String.eqb name' n) eqn:E; simpl.
    + apply String.eqb_eq in E; subst n. rewrite Hne. reflexivity.
    + destruct (String.eqb name n); auto.
Qed.

Lemma getf_assign_same df name v : getf (assign df name (ColF v)) name = Ok v.
Proof. unfold getf, assign; simpl. rewrite find_col_set_same. reflexivity. Qed.

Lemma getf_assign_other df name name' c :
  String.eqb name name' = false ->
  getf (assign df name' c) name = getf df name.
Proof.
  intros H. unfold getf, assign; simpl. rewrite find_col_set_other; auto.
Qed.

Lemma find_col_map (g : column -> column) name cols :
  find_col name (map (fun nc => (fst nc, g (snd nc))) cols)
  = option_map g (find_col name cols).
Proof.
  induction cols as [|[n c] cols IH]; simpl; auto.
  destruct (String.eqb name n); auto.
Qed.

Lemma set_col_map (g : column -> column) name c cols :
  set_col name (g c) (map (fun nc => (fst nc, g (snd nc))) cols)
  = map (fun nc => (fst nc, g (snd nc))) (set_col name c cols).
Proof.
  induction cols as [|[n c0] cols IH]; simpl; auto.
  destruct (String.eqb name n); simpl; auto. rewrite IH. reflexivity.
Qed.

Lemma getf_select m df name v :
  getf df name = Ok v -> getf (select_rows m df) name = Ok (select m v).
Proof.
  unfold getf, select_rows; simpl. rewrite find_col_map.
  destruct (find_col name (columns df)) as [[v0|v0|v0]|]; simpl;
    try discriminate; intros H; injection H as <-; auto.
  rewrite select_map. reflexivity.
Qed.

Lemma assign_select m df name v :
  assign (select_rows m df) name (ColF (select m v))
  = select_rows m (assign df name (ColF v)).
Proof.
  unfold assign, select_rows; simpl. f_equal.
  apply (set_col_map (col_select m) name (ColF v)).
Qed.

Lemma assign_select_int m df name (v : list (option Z)) :
  assign (select_rows m df) name (ColI (select m v))
  = select_rows m (assign df name (ColI v)).
Proof.
  unfold assign, select_rows; simpl. f_equal.
  apply (set_col_map (col_select m) name (ColI v)).
Qed.

(** Well-formed frames. *)
Lemma wf_frame_iff df :
  wf_frame df = true <->
  length (date df) = nrows df
  /\ Forall (fun nc => col_length (snd nc) = nrows df) (columns df).
Proof.
  unfold wf_frame. rewrite andb_true_iff, Nat.eqb_eq, forallb_forall, Forall_forall.
  split; intros [H1 H2]; split; auto; intros x Hx; apply Nat.eqb_eq; auto.
Qed.

Lemma set_col_Forall (P : string * column -> Prop) name c cols :
  Forall P cols -> (forall n, P (n, c)) -> Forall P (set_col name c cols).
Proof.
  intros H Hc. induction H as [|[n c0] cols Hx H IH]; simpl.
  - constructor; auto.
  - destruct (String.eqb name n); constructor; auto.
Qed.

Lemma wf_assign df name c :
  wf_frame df = true -> col_length c = nrows df ->
  wf_frame (assign df name c) = true.
Proof.
  rewrite !wf_frame_iff. intros [H1 H2] Hc. split; auto.
  unfold assign; simpl. apply set_col_Forall; auto.
Qed.

Lemma find_col_In name cols c :
  find_col name cols = Some c -> In (name, c) cols.
Proof.
  induction cols as [|[n c0] cols IH]; simpl; [discriminate|].
  destruct (String.eqb name n) eqn:E; intros H.
  - injection H as <-. apply String.eqb_eq in E; subst. auto.
  - auto.
Qed.

Lemma getf_length df name v :
  wf_frame df = true -> getf df name = Ok v -> length v = nrows df.
Proof.
  rewrite wf_frame_iff. intros [_ H]. unfold getf.
  destruct (find_col name (columns df)) as [c|] eqn:E; [|discriminate].
  apply find_col_In in E. rewrite Forall_forall in H. apply H in E. simpl in E.
  destruct c; try discriminate; intros Hv; injection Hv as <-; auto.
  rewrite length_map. auto.
Qed.

Lemma col_select_length_eq m c (l : list string) :
  col_length c = length l -> col_length (col_select m c) = length (select m l).
Proof. destruct c; simpl; apply select_length_eq. Qed.

Lemma wf_select_rows m df :
  wf_frame df = true -> wf_frame (select_rows m df) = true.
Proof.
  rewrite !wf_frame_iff. unfold nrows, select_rows; simpl. intros [H1 H2]. split.
  - apply select_length_eq; auto.
  - rewrite Forall_map. eapply Forall_impl; [|exact H2].
    intros [n c]; simpl. apply col_select_length_eq.
Qed.

(* ================================================================== *)
(** * Stages and selection of rows *)
(* ================================================================== *)

Lemma commutes_bind m (s1 s2 : DataFrame -> result DataFrame) :
  commutes m s1 -> commutes m s2 ->
  commutes m (fun df => out <- s1 df ;; s2 out).
Proof.
  intros H1 H2 df out Hr H.
  destruct (s1 df) as [mid|] eqn:E; simpl in H; [|discriminate].
  destruct (H1 _ _ Hr E) as [Hr1 E1].
  destruct (H2 _ _ Hr1 H) as [Hr2 E2].
  split; auto. rewrite E1. simpl. exact E2.
Qed.

Lemma commutes_for_each {A : Type} m (xs : list A)
  (step : A -> DataFrame -> result DataFrame) :
  (forall x, commutes m (step x)) -> commutes m (for_each xs step).
Proof.
  intros Hs. induction xs as [|x xs IH]; simpl.
  - intros df out Hr H. injection H as <-. auto.
  - apply commutes_bind; auto.
Qed.

Lemma restrictable_assign m df name v :
  restrictable m df -> length v = nrows df ->
  restrictable m (assign df name (ColF v)).
Proof.
  intros [Hwf [Hm Hp]] Hv. split; [|split]; auto.
  apply wf_assign; auto.
Qed.

Lemma replace_zero_select m v :
  select m (replace_zero v) = replace_zero (select m v).
Proof. apply select_map. Qed.

Section StageFacts.

Context {pd : Pandas}.

Lemma add_momentum_commutes m w : commutes m (add_momentum w).
Proof.
  intros df out Hr H. unfold add_momentum in *.
  read_column H adj E. injection H as <-.
  pose proof Hr as [Hwf [Hm Hp]].
  pose proof (getf_length _ _ _ Hwf E) as La.
  split.
  - apply restrictable_assign; auto. apply grouped_length.
  - rewrite (getf_select m _ _ _ E). cbn [bind ticker select_rows].
    rewrite <- grouped_select by auto using causal_pct_change.
    rewrite assign_select. reflexivity.
Qed.

Lemma clean_momentum_commutes m name : commutes m (clean_momentum name).
Proof.
  intros df out Hr H. unfold clean_momentum in *.
  read_column H adj E. injection H as <-.
  pose proof Hr as [Hwf [Hm Hp]].
  pose proof (getf_length _ _ _ Hwf E) as La.
  split.
  - apply restrictable_assign; auto. unfold replace_inf.
    rewrite length_map. auto.
  - rewrite (getf_select m _ _ _ E). cbn [bind].
    unfold replace_inf. rewrite <- select_map.
    rewrite assign_select. reflexivity.
Qed.

Lemma add_returns_commutes m : commutes m add_returns.
Proof.
  intros df out Hr H. unfold add_returns in *.
  read_column H v1 E1.
  pose proof Hr as [Hwf [Hm Hp]].
  pose proof (getf_length _ _ _ Hwf E1) as L1.
  assert (restrictable m
            (assign df "ret_1d" (ColF (grouped (pct_change 1) (ticker df) v1))))
    as Hr1 by (apply restrictable_assign; auto; apply grouped_length).
  read_column H v2 E2. injection H as <-.
  pose proof (getf_length _ _ _ (proj1 Hr1) E2) as L2.
  cbn [ticker assign] in *.
  split.
  - apply restrictable_assign; auto.
    rewrite map2_length, !length_map, !grouped_length. unfold nrows; simpl. lia.
  - rewrite (getf_select m _ _ _ E1). cbn [bind ticker select_rows].
    rewrite <- grouped_select by auto using causal_pct_change.
    rewrite assign_select.
    rewrite (getf_select m _ _ _ E2). cbn [bind ticker select_rows assign].
    rewrite <- !grouped_select by auto using causal_shift.
    rewrite <- !select_map, <- select_map2.
    rewrite assign_select. reflexivity.
Qed.

Lemma add_moving_average_commutes m w : commutes m (add_moving_average w).
Proof.
  intros df out Hr H. unfold add_moving_average in *.
  read_column H v1 E1.
  pose proof Hr as [Hwf [Hm Hp]].
  pose proof (getf_length _ _ _ Hwf E1) as L1.
  read_column H t1 T.
  pose proof (transform_length _ _ _ _ T) as LT.
  assert (restrictable m (assign df (ma_name w) (ColF t1)))
    as Hr1 by (apply restrictable_assign; auto).
  read_column H v2 E2. injection H as <-.
  pose proof (getf_length _ _ _ (proj1 Hr1) E2) as L2.
  cbn [ticker assign] in *.
  split.
  - apply restrictable_assign; auto.
    rewrite length_map, map2_length. unfold nrows in *; simpl in *. lia.
  - rewrite (getf_select m _ _ _ E1). cbn [bind ticker select_rows].
    rewrite (transform_select_total _ _ _ _ _ (causal_rolling _ _) L1 Hm Hp T).
    cbn [bind]. rewrite assign_select.
    rewrite (getf_select m _ _ _ E2). cbn [bind].
    rewrite <- select_map2, <- select_map.
    rewrite assign_select. reflexivity.
Qed.

Lemma add_volatility_commutes m w : commutes m (add_volatility w).
Proof.
  intros df out Hr H. unfold add_volatility in *.
  read_column H v1 E1.
  pose proof Hr as [Hwf [Hm Hp]].
  pose proof (getf_length _ _ _ Hwf E1) as L1.
  read_column H t1 T. injection H as <-.
  pose proof (transform_length _ _ _ _ T) as LT.
  split.
  - apply restrictable_assign; auto.
  - rewrite (getf_select m _ _ _ E1). cbn [bind ticker select_rows].
    rewrite (transform_select_total _ _ _ _ _ (causal_rolling _ _) L1 Hm Hp T).
    cbn [bind]. rewrite assign_select. reflexivity.
Qed.

Lemma add_volume_zscore_commutes m : commutes m add_volume_zscore.
Proof.
  intros df out Hr H. unfold add_volume_zscore in *.
  read_column H v1 E1.
  pose proof Hr as [Hwf [Hm Hp]].
  pose proof (getf_length _ _ _ Hwf E1) as L1.
  assert (restrictable m
            (assign df "logvol" (ColF (map flog (replace_zero v1)))))
    as Hr1
      by (apply restrictable_assign; auto; unfold replace_zero;
          rewrite !length_map; auto).
  read_column H v2 E2.
  pose proof (getf_length _ _ _ (proj1 Hr1) E2) as L2.
  unfold nrows in L2. cbn [ticker assign] in *.
  read_column H t1 T1. read_column H t2 T2.
  injection H as <-.
  pose proof (transform_length _ _ _ _ T1) as LT1.
  pose proof (transform_length _ _ _ _ T2) as LT2.
  split.
  - apply restrictable_assign; auto.
    rewrite !map2_length. unfold nrows in *; simpl in *. lia.
  - rewrite (getf_select m _ _ _ E1). cbn [bind].
    rewrite <- !replace_zero_select, <- !select_map, !assign_select.
    rewrite (getf_select m _ _ _ E2). cbn [bind ticker select_rows assign].
    rewrite (transform_select_total _ _ _ _ _ (causal_rolling _ _) L2 Hm Hp T1).
    cbn [bind].
    rewrite (transform_select_total _ _ _ _ _ (causal_rolling _ _) L2 Hm Hp T2).
    cbn [bind].
    rewrite <- !select_map2. rewrite assign_select. reflexivity.
Qed.

Lemma add_intraday_range_commutes m : commutes m add_intraday_range.
Proof.
  intros df out Hr H. unfold add_intraday_range in *.
  read_column H v1 E1. read_column H v2 E2.
  pose proof Hr as [Hwf [Hm Hp]].
  pose proof (getf_length _ _ _ Hwf E1) as L1.
  pose proof (getf_length _ _ _ Hwf E2) as L2.
  assert (restrictable m
            (assign df "hl_range"
               (ColF (map (fun x => fsub x fone) (map2 fdiv v1 v2)))))
    as Hr1
      by (apply restrictable_assign; auto;
          rewrite length_map, map2_length; lia).
  read_column H v3 E3. read_column H v4 E4. injection H as <-.
  pose proof (getf_length _ _ _ (proj1 Hr1) E3) as L3.
  pose proof (getf_length _ _ _ (proj1 Hr1) E4) as L4.
  split.
  - apply restrictable_assign; auto.
    rewrite length_map, map2_length. unfold nrows in *; simpl in *. lia.
  - rewrite (getf_select m _ _ _ E1). cbn [bind].
    rewrite (getf_select m _ _ _ E2). cbn [bind].
    rewrite <- select_map2, <- select_map. rewrite assign_select.
    rewrite (getf_select m _ _ _ E3). cbn [bind].
    rewrite (getf_select m _ _ _ E4). cbn [bind].
    rewrite <- select_map2, <- select_map. rewrite assign_select.
    reflexivity.
Qed.

Lemma add_rsi_commutes m window : commutes m (add_rsi window).
Proof.
  intros df out Hr H. unfold add_rsi in *.
  read_column H v1 E1.
  pose proof Hr as [Hwf [Hm Hp]].
  pose proof (getf_length _ _ _ Hwf E1) as L1.
  read_column H t1 T. injection H as <-.
  pose proof (transform_length _ _ _ _ T) as LT.
  split.
  - apply restrictable_assign; auto.
  - rewrite (getf_select m _ _ _ E1). cbn [bind ticker select_rows].
    rewrite (transform_select_rsi _ _ _ _ _ L1 Hm Hp T).
    cbn [bind]. rewrite assign_select. reflexivity.
Qed.

(** Feature computation can be exchanged with any selection of rows that
    keeps a prefix of every ticker's rows. *)
Lemma build_features_commutes m cfg :
  commutes m (fun df => build_features df cfg).
Proof.
  unfold build_features.
  repeat (apply commutes_bind;
          [ first [ apply add_returns_commutes
                  | apply commutes_for_each; intros;
                    first [ apply add_momentum_commutes
                          | apply clean_momentum_commutes
                          | apply add_moving_average_commutes
                          | apply add_volatility_commutes ]
                  | apply add_volume_zscore_commutes
                  | apply add_intraday_range_commutes
                  | apply add_rsi_commutes ] | ]).
  intros df out Hr H. injection H as <-. auto.
Qed.

End StageFacts.

(* ================================================================== *)
(** * Causality of the feature columns *)
(* ================================================================== *)

Lemma later_rows_not_alive k d D keys dates :
  forallb (fun kd => negb (String.eqb (fst kd) k) || (d <=? snd kd)%Z)
    (combine keys dates) = true ->
  (d <=? D)%Z = false ->
  alive k keys (map (fun d => (d <=? D)%Z) dates) = false.
Proof.
  intros H Hd. revert dates H.
  induction keys as [|k' keys IH]; intros [|d' dates] H; simpl in *; auto.
  apply andb_prop in H. destruct H as [H1 H2].
  rewrite alive_cons, IH by assumption.
  destruct (String.eqb k' k) eqn:E; simpl in *; auto.
  rewrite orb_false_r.
  apply Z.leb_le in H1. apply Z.leb_gt in Hd. apply Z.leb_gt. lia.
Qed.

Lemma dates_ascending_prefix_closed D keys dates :
  dates_ascending keys dates = true ->
  prefix_closed keys (map (fun d => (d <=? D)%Z) dates) = true.
Proof.
  revert dates. induction keys as [|k keys IH]; intros [|d dates] H;
    simpl in *; auto.
  apply andb_prop in H. destruct H as [H1 H2].
  rewrite IH by assumption. rewrite andb_true_r.
  destruct (d <=? D)%Z eqn:E; simpl; auto.
  rewrite later_rows_not_alive with (d := d); auto.
Qed.

Lemma select_select_dates {A : Type} (D1 D2 : Z) (dates : list Z) (l : list A) :
  (D2 <= D1)%Z ->
  select (map (fun d => (d <=? D2)%Z)
            (select (map (fun d => (d <=? D1)%Z) dates) dates))
    (select (map (fun d => (d <=? D1)%Z) dates) l)
  = select (map (fun d => (d <=? D2)%Z) dates) l.
Proof.
  intros HD. revert l. induction dates as [|d dates IH]; intros [|x l];
    simpl; auto.
  - rewrite !select_nil. destruct (d <=? D2)%Z; reflexivity.
  - destruct (d <=? D1)%Z eqn:E1; simpl.
    + destruct (d <=? D2)%Z; rewrite IH; reflexivity.
    + assert ((d <=? D2)%Z = false) as ->
          by (apply Z.leb_gt; apply Z.leb_gt in E1; lia).
      apply IH.
Qed.

Lemma rows_until_rows_until D1 D2 df :
  (D2 <= D1)%Z -> rows_until D2 (rows_until D1 df) = rows_until D2 df.
Proof.
  intros HD. unfold rows_until, select_rows; simpl.
  rewrite !select_select_dates by assumption. f_equal.
  rewrite map_map; simpl. apply map_ext. intros [n c]; simpl. f_equal.
  destruct c; simpl; rewrite select_select_dates; auto.
Qed.

(* ================================================================== *)
(** * What a stage leaves untouched *)
(* ================================================================== *)

Lemma set_col_names name c cols :
  exists added, map fst (set_col name c cols) = map fst cols ++ added.
Proof.
  induction cols as [|[n c0] cols [added IH]]; simpl.
  - exists [name]. reflexivity.
  - destruct (String.eqb name n); simpl.
    + exists []. rewrite app_nil_r. reflexivity.
    + exists added. rewrite IH. reflexivity.
Qed.

Lemma writes_assign (names : list string) df name c :
  In name names ->
  ticker (assign df name c) = ticker df
  /\ date (assign df name c) = date df
  /\ (forall x, ~ In x names ->
                find_col x (columns (assign df name c))
                = find_col x (columns df))
  /\ (exists added,
         column_names (assign df name c) = column_names df ++ added).
Proof.
  intros Hin. repeat split; auto.
  - intros x Hx. unfold assign; simpl. apply find_col_set_other.
    apply String.eqb_neq. intros ->. auto.
  - apply set_col_names.
Qed.

Lemma writes_ret (names : list string) :
  writes names (fun df => Ok df).
Proof.
  intros df out H. injection H as <-. repeat split; auto.
  exists []. rewrite app_nil_r. reflexivity.
Qed.

Lemma writes_bind n1 n2 (s1 s2 : DataFrame -> result DataFrame) :
  writes n1 s1 -> writes n2 s2 ->
  writes (n1 ++ n2) (fun df => out <- s1 df ;; s2 out).
Proof.
  intros H1 H2 df out H.
  destruct (s1 df) as [mid|] eqn:E; simpl in H; [|discriminate].
  destruct (H1 _ _ E) as (T1 & D1 & F1 & [a1 N1]).
  destruct (H2 _ _ H) as (T2 & D2 & F2 & [a2 N2]).
  repeat split; try congruence.
  - intros x Hx. rewrite in_app_iff in Hx.
    rewrite F2, F1; auto.
  - exists (a1 ++ a2). rewrite N2, N1, app_assoc. reflexivity.
Qed.

Lemma writes_weaken n n' step :
  writes n step -> incl n n' -> writes n' step.
Proof.
  intros H Hi df out E. destruct (H _ _ E) as (T & D & F & N).
  repeat split; auto.
Qed.

Lemma writes_for_each {A : Type} (names : A -> list string) (xs : list A)
  (step : A -> DataFrame -> result DataFrame) :
  (forall x, writes (names x) (step x)) ->
  writes (flat_map names xs) (for_each xs step).
Proof.
  intros Hs. induction xs as [|x xs IH]; simpl.
  - apply writes_ret.
  - apply writes_bind; auto.
Qed.

(** After two assignments in a row. *)
Lemma writes_assign2 (names : list string) df n1 c1 n2 c2 :
  In n1 names -> In n2 names ->
  ticker (assign (assign df n1 c1) n2 c2) = ticker df
  /\ date (assign (assign df n1 c1) n2 c2) = date df
  /\ (forall x, ~ In x names ->
                find_col x (columns (assign (assign df n1 c1) n2 c2))
                = find_col x (columns df))
  /\ (exists added,
         column_names (assign (assign df n1 c1) n2 c2)
         = column_names df ++ added).
Proof.
  intros H1 H2.
  destruct (writes_assign names df n1 c1 H1) as (T1 & D1 & F1 & [a1 N1]).
  destruct (writes_assign names (assign df n1 c1) n2 c2 H2)
    as (T2 & D2 & F2 & [a2 N2]).
  repeat split; try congruence.
  - intros x Hx. rewrite F2, F1; auto.
  - exists (a1 ++ a2). rewrite N2, N1, app_assoc. reflexivity.
Qed.

Section Frame.

Context {pd : Pandas}.

Lemma add_returns_writes : writes ["ret_1d"; "logret_1d"]%string add_returns.
Proof.
  intros df out H. unfold add_returns in H.
  read_column H v1 E1. read_column H v2 E2. injection H as <-.
  apply writes_assign2; simpl; auto.
Qed.

Lemma add_momentum_writes w : writes [mom_name w] (add_momentum w).
Proof.
  intros df out H. unfold add_momentum in H.
  read_column H v1 E1. injection H as <-.
  apply writes_assign; simpl; auto.
Qed.

Lemma clean_momentum_writes name : writes [name] (clean_momentum name).
Proof.
  intros df out H. unfold clean_momentum in H.
  read_column H v1 E1. injection H as <-.
  apply writes_assign; simpl; auto.
Qed.

Lemma add_moving_average_writes w :
  writes [ma_name w; price_to_ma_name w] (add_moving_average w).
Proof.
  intros df out H. unfold add_moving_average in H.
  read_column H v1 E1. read_column H t1 T1. read_column H v2 E2.
  injection H as <-.
  apply writes_assign2; simpl; auto.
Qed.

Lemma add_volatility_writes w : writes [vol_name w] (add_volatility w).
Proof.
  intros df out H. unfold add_volatility in H.
  read_column H v1 E1. read_column H t1 T1. injection H as <-.
  apply writes_assign; simpl; auto.
Qed.

Lemma add_volume_zscore_writes :
  writes ["logvol"; "logvol_z_63"]%string add_volume_zscore.
Proof.
  intros df out H. unfold add_volume_zscore in H.
  read_column H v1 E1. read_column H v2 E2.
  read_column H t1 T1. read_column H t2 T2. injection H as <-.
  apply writes_assign2; simpl; auto.
Qed.

Lemma add_intraday_range_writes :
  writes ["hl_range"; "oc_change"]%string add_intraday_range.
Proof.
  intros df out H. unfold add_intraday_range in H.
  read_column H v1 E1. read_column H v2 E2.
  read_column H v3 E3. read_column H v4 E4. injection H as <-.
  apply writes_assign2; simpl; auto.
Qed.

Lemma add_rsi_writes w : writes [rsi_name w] (add_rsi w).
Proof.
  intros df out H. unfold add_rsi in H.
  read_column H v1 E1. read_column H t1 T1. injection H as <-.
  apply writes_assign; simpl; auto.
Qed.

Lemma flat_map_singleton {A B : Type} (f : A -> B) (l : list A) :
  flat_map (fun x => [f x]) l = map f l.
Proof. induction l; simpl; congruence. Qed.

Lemma build_features_writes cfg :
  writes (feature_columns cfg) (fun df => build_features df cfg).
Proof.
  unfold build_features.
  eapply writes_weaken.
  - apply writes_bind; [apply add_returns_writes|].
    apply writes_bind;
      [apply (writes_for_each (fun w => [mom_name w])), add_momentum_writes|].
    apply writes_bind;
      [apply (writes_for_each (fun n => [n])), clean_momentum_writes|].
    apply writes_bind;
      [apply (writes_for_each (fun w => [ma_name w; price_to_ma_name w])),
        add_moving_average_writes|].
    apply writes_bind;
      [apply (writes_for_each (fun w => [vol_name w])), add_volatility_writes|].
    apply writes_bind; [apply add_volume_zscore_writes|].
    apply writes_bind; [apply add_intraday_range_writes|].
    apply writes_bind; [apply add_rsi_writes|].
    apply (writes_ret []).
  - unfold feature_columns. rewrite !flat_map_singleton, map_id.
    intros x. rewrite !in_app_iff. simpl. tauto.
Qed.

End Frame.

Lemma add_target_writes h fr tg : writes [fr; tg] (add_target h fr tg).
Proof.
  intros df out H. unfold add_target in H.
  read_column H v1 E1. read_column H v2 E2. injection H as <-.
  apply writes_assign2; simpl; auto.
Qed.

Lemma add_targets_writes cfg which :
  writes (target_columns which) (fun df => add_targets df cfg which).
Proof.
  unfold add_targets. eapply writes_weaken.
  - apply writes_bind with (n1 := match which with
                                  | monthly => []
                                  | _ => ["future_ret_w"; "target_w"]%string
                                  end)
                           (n2 := match which with
                                  | weekly => []
                                  | _ => ["future_ret_m"; "target_m"]%string
                                  end
                                  ++ []).
    + destruct which; try apply add_target_writes; apply writes_ret.
    + apply writes_bind; [|apply writes_ret].
      destruct which; try apply add_target_writes; apply writes_ret.
  - destruct which; simpl; intros x Hx; simpl in *; tauto.
Qed.

(* ================================================================== *)
(** * Infinities in the momentum columns *)
(* ================================================================== *)

Lemma replace_inf_no_inf (s : series) :
  Forall (fun x => isinf x = false) (replace_inf s).
Proof.
  unfold replace_inf. apply Forall_map, Forall_forall. intros x _.
  destruct x; reflexivity.
Qed.

Lemma clean_momentum_cleans name df out :
  clean_momentum name df = Ok out -> no_inf_in name out.
Proof.
  intros H. unfold clean_momentum in H.
  read_column H v E. injection H as <-.
  exists (replace_inf v). rewrite getf_assign_same.
  auto using replace_inf_no_inf.
Qed.

Lemma no_inf_in_kept names step n df out :
  writes names step -> ~ In n names ->
  step df = Ok out -> no_inf_in n df -> no_inf_in n out.
Proof.
  intros W Hn H (v & E & F). destruct (W _ _ H) as (_ & _ & K & _).
  exists v. split; auto. unfold getf in *. rewrite (K n Hn). exact E.
Qed.

Lemma clean_momentum_keeps name n df out :
  clean_momentum name df = Ok out -> no_inf_in n df -> no_inf_in n out.
Proof.
  intros H Hn. destruct (String.eqb n name) eqn:E.
  - apply String.eqb_eq in E. subst n. eapply clean_momentum_cleans; eauto.
  - apply (no_inf_in_kept [name] (clean_momentum name) n df out);
      auto using clean_momentum_writes.
    simpl. intros [->|[]]. rewrite String.eqb_refl in E. discriminate.
Qed.

Lemma for_each_clean_momentum names n df out :
  for_each names clean_momentum df = Ok out ->
  In n names \/ no_inf_in n df -> no_inf_in n out.
Proof.
  revert df. induction names as [|m names IH]; intros df H Hn; simpl in H.
  - injection H as <-. destruct Hn as [[]|Hn]. exact Hn.
  - destruct (clean_momentum m df) as [mid|] eqn:E; simpl in H;
      [|discriminate].
    apply (IH mid H). destruct Hn as [[->|Hn]|Hn]; auto.
    + right. eapply clean_momentum_cleans; eauto.
    + right. eapply clean_momentum_keeps; eauto.
Qed.

(** No later block of [build_features] writes a momentum column. *)
Lemma mom_name_not_later (cfg : FeatureConfig) (w : nat) :
  ~ In (mom_name w)
      (flat_map (fun w => [ma_name w; price_to_ma_name w]) (ma_windows cfg)
       ++ flat_map (fun w => [vol_name w]) (vol_windows cfg)
       ++ ["logvol"; "logvol_z_63"]%string
       ++ ["hl_range"; "oc_change"]%string
       ++ [rsi_name (rsi_window cfg)] ++ []).
Proof.
  rewrite !in_app_iff, !in_flat_map. unfold mom_name, ma_name,
    price_to_ma_name, vol_name, rsi_name. simpl.
  intros [(x & _ & [H|[H|[]]]) | [(x & _ & [H|[]]) | [[H|[H|[]]] |
          [[H|[H|[]]] | [[H|[]] | []]]]]]; discriminate H.
Qed.

Section Momentum.

Context {pd : Pandas}.

(** What the cleaning of the momentum columns achieves: in the output of
    [build_features] no momentum column holds an infinity. *)
Lemma build_features_momentum_finite df cfg out w :
  build_features df cfg = Ok out ->
  In w (mom_windows cfg) ->
  no_inf_in (mom_name w) out.
Proof.
  intros H Hw. unfold build_features in H.
  destruct (add_returns df) as [d1|] eqn:E1; simpl in H; [|discriminate].
  destruct (for_each (mom_windows cfg) add_momentum d1) as [d2|] eqn:E2;
    simpl in H; [|discriminate].
  destruct (for_each (map mom_name (mom_windows cfg)) clean_momentum d2)
    as [d3|] eqn:E3; simpl in H; [|discriminate].
  assert (no_inf_in (mom_name w) d3) as Hc.
  { apply (for_each_clean_momentum _ _ _ _ E3). left.
    apply in_map. exact Hw. }
  set (rest := fun d : DataFrame =>
                out <- for_each (ma_windows cfg) add_moving_average d ;;
                out <- for_each (vol_windows cfg) add_volatility out ;;
                out <- add_volume_zscore out ;;
                out <- add_intraday_range out ;;
                out <- add_rsi (rsi_window cfg) out ;;
                Ok out).
  change (rest d3 = Ok out) in H.
  eapply (no_inf_in_kept _ rest (mom_name w) d3 out);
    [| apply mom_name_not_later | exact H | exact Hc].
  unfold rest.
  apply writes_bind;
    [apply (writes_for_each (fun w => [ma_name w; price_to_ma_name w])),
      add_moving_average_writes|].
  apply writes_bind;
    [apply (writes_for_each (fun w => [vol_name w])), add_volatility_writes|].
  apply writes_bind; [apply add_volume_zscore_writes|].
  apply writes_bind; [apply add_intraday_range_writes|].
  apply writes_bind; [apply add_rsi_writes|].
  apply (writes_ret []).
Qed.

End Momentum.

(* ================================================================== *)
(** * Stages and concatenation of tables *)
(* ================================================================== *)

Lemma map2_app {A B C : Type} (f : A -> B -> C) a1 a2 b1 b2 :
  length a1 = length b1 ->
  map2 f (a1 ++ a2) (b1 ++ b2) = map2 f a1 b1 ++ map2 f a2 b2.
Proof.
  revert b1; induction a1 as [|x a1 IH]; intros [|y b1] H; simpl in *;
    try discriminate; auto.
  injection H as H. rewrite IH; auto.
Qed.

Lemma split_by_masks {A : Type} (n1 n2 : nat) (l : list A) :
  length l = n1 + n2 ->
  l = select (repeat true n1 ++ repeat false n2) l
      ++ select (repeat false n1 ++ repeat true n2) l.
Proof.
  revert l; induction n1 as [|n1 IH]; intros l H; simpl in *.
  - subst n2. rewrite select_none, select_all. reflexivity.
  - destruct l as [|x l]; simpl in *; [discriminate|].
    injection H as H. f_equal. apply IH. assumption.
Qed.

Lemma select_head {A : Type} (la lb : list A) n :
  select (repeat true (length la) ++ repeat false n) (la ++ lb) = la.
Proof.
  rewrite select_app by (rewrite repeat_length; auto).
  rewrite select_all, select_none. apply app_nil_r.
Qed.

Lemma select_tail {A B : Type} (la : list B) (lb : list A) (l : list A) :
  length l = length la ->
  select (repeat false (length la) ++ repeat true (length lb)) (l ++ lb) = lb.
Proof.
  intros H. rewrite select_app by (rewrite repeat_length; auto).
  rewrite select_all, select_none. reflexivity.
Qed.

Lemma alive_all_false k keys n : alive k keys (repeat false n) = false.
Proof.
  revert n; induction keys as [|k' keys IH]; intros [|n]; simpl; auto.
  rewrite alive_cons, IH, andb_false_r. reflexivity.
Qed.

Lemma prefix_closed_all_false keys n :
  prefix_closed keys (repeat false n) = true.
Proof.
  revert n; induction keys as [|k keys IH]; intros [|n]; simpl; auto.
  rewrite alive_all_false, IH. reflexivity.
Qed.

Lemma prefix_closed_all_true keys n :
  prefix_closed keys (repeat true n) = true.
Proof.
  revert n; induction keys as [|k keys IH]; intros [|n]; simpl; auto.
Qed.

Lemma prefix_closed_head ka kb :
  prefix_closed (ka ++ kb)
    (repeat true (length ka) ++ repeat false (length kb)) = true.
Proof.
  induction ka as [|k ka IH]; simpl; auto.
  apply prefix_closed_all_false.
Qed.

Lemma alive_absent k keys m :
  existsb (String.eqb k) keys = false -> alive k keys m = false.
Proof.
  revert m; induction keys as [|k' keys IH]; intros [|b m] H; simpl in *; auto.
  apply orb_false_elim in H. destruct H as [H1 H2].
  rewrite alive_cons, IH by assumption.
  rewrite String.eqb_sym, H1. reflexivity.
Qed.

Lemma alive_app_false k ka kb m :
  alive k (ka ++ kb) (repeat false (length ka) ++ m) = alive k kb m.
Proof.
  induction ka as [|k' ka IH]; simpl; auto.
  rewrite alive_cons, IH, andb_false_r. reflexivity.
Qed.

Lemma prefix_closed_tail ka kb :
  disjoint_keys ka kb = true ->
  prefix_closed (ka ++ kb)
    (repeat false (length ka) ++ repeat true (length kb)) = true.
Proof.
  induction ka as [|k ka IH]; simpl; intros H.
  - apply prefix_closed_all_true.
  - apply andb_prop in H. destruct H as [H1 H2].
    rewrite IH by assumption. rewrite alive_app_false.
    rewrite alive_absent; auto.
    apply negb_true_iff. assumption.
Qed.

(** A causal group-wise operation on two tables with no ticker in common
    works on each table separately. *)
Lemma grouped_concat f ka kb va vb :
  causal f ->
  length va = length ka -> length vb = length kb ->
  disjoint_keys ka kb = true ->
  grouped f (ka ++ kb) (va ++ vb) = grouped f ka va ++ grouped f kb vb.
Proof.
  intros Hf La Lb Hd.
  rewrite (split_by_masks (length ka) (length kb)
             (grouped f (ka ++ kb) (va ++ vb)))
    by (rewrite grouped_length, length_app; reflexivity).
  rewrite !grouped_select;
    auto using prefix_closed_head, prefix_closed_tail;
    try (rewrite !length_app, ?repeat_length; lia).
  rewrite (select_head ka kb).
  rewrite <- La at 1. rewrite (select_head va vb).
  rewrite (select_tail ka kb ka eq_refl).
  rewrite <- Lb at 1. rewrite (select_tail ka vb va La).
  reflexivity.
Qed.

Lemma find_col_concat (ca cb : list (string * column)) name :
  map (fun nc => (fst nc, col_dtype (snd nc))) ca
  = map (fun nc => (fst nc, col_dtype (snd nc))) cb ->
  find_col name
    (map2 (fun x y => (fst x, col_append (snd x) (snd y))) ca cb)
  = match find_col name ca, find_col name cb with
    | Some x, Some y => Some (col_append x y)
    | _, _ => None
    end.
Proof.
  revert cb; induction ca as [|[n c] ca IH]; intros [|[n' c'] cb] H;
    simpl in *; try discriminate; auto.
  injection H as Hn Hd H. subst n'.
  destruct (String.eqb name n); auto.
Qed.

Lemma find_col_dtype (ca cb : list (string * column)) name :
  map (fun nc => (fst nc, col_dtype (snd nc))) ca
  = map (fun nc => (fst nc, col_dtype (snd nc))) cb ->
  option_map col_dtype (find_col name ca)
  = option_map col_dtype (find_col name cb).
Proof.
  revert cb; induction ca as [|[n c] ca IH]; intros [|[n' c'] cb] H;
    simpl in *; try discriminate; auto.
  injection H as Hn Hd H. subst n'.
  destruct (String.eqb name n); simpl; auto. congruence.
Qed.

Lemma getf_concat a b name va vb :
  schema a = schema b ->
  getf a name = Ok va -> getf b name = Ok vb ->
  getf (concat_rows a b) name = Ok (va ++ vb).
Proof.
  unfold schema, getf, concat_rows; simpl. intros Hs.
  rewrite find_col_concat by assumption.
  pose proof (find_col_dtype _ _ name Hs) as Hd.
  destruct (find_col name (columns a)) as [[x|x|x]|];
    destruct (find_col name (columns b)) as [[y|y|y]|];
    simpl in *; try discriminate;
    intros Ha Hb; injection Ha as <-; injection Hb as <-; auto.
  rewrite map_app. reflexivity.
Qed.

Lemma set_col_concat (ca cb : list (string * column)) name (va vb : series) :
  map (fun nc => (fst nc, col_dtype (snd nc))) ca
  = map (fun nc => (fst nc, col_dtype (snd nc))) cb ->
  set_col name (ColF (va ++ vb))
    (map2 (fun x y => (fst x, col_append (snd x) (snd y))) ca cb)
  = map2 (fun x y => (fst x, col_append (snd x) (snd y)))
      (set_col name (ColF va) ca) (set_col name (ColF vb) cb).
Proof.
  revert cb; induction ca as [|[n c] ca IH]; intros [|[n' c'] cb] H;
    simpl in *; try discriminate; auto.
  injection H as Hn Hd H. subst n'.
  destruct (String.eqb name n); simpl; auto.
  rewrite IH by assumption. reflexivity.
Qed.

Lemma assign_concat a b name (va vb : series) :
  schema a = schema b ->
  assign (concat_rows a b) name (ColF (va ++ vb))
  = concat_rows (assign a name (ColF va)) (assign b name (ColF vb)).
Proof.
  intros Hs. unfold assign, concat_rows; simpl. f_equal.
  apply set_col_concat. assumption.
Qed.

Lemma schema_assign a b name (va vb : series) :
  schema a = schema b ->
  schema (assign a name (ColF va)) = schema (assign b name (ColF vb)).
Proof.
  unfold schema, assign; simpl.
  generalize (columns a) (columns b).
  induction l as [|[n c] ca IH]; intros [|[n' c'] cb] H;
    simpl in *; try discriminate; auto.
  injection H as Hn Hd H. subst n'.
  destruct (String.eqb name n); simpl; f_equal; auto. congruence.
Qed.

Lemma appends_bind (s1 s2 : DataFrame -> result DataFrame) :
  appends s1 -> appends s2 -> appends (fun df => out <- s1 df ;; s2 out).
Proof.
  intros H1 H2 a b oa ob Hj Ha Hb.
  destruct (s1 a) as [ma|] eqn:Ea; simpl in Ha; [|discriminate].
  destruct (s1 b) as [mb|] eqn:Eb; simpl in Hb; [|discriminate].
  destruct (H1 _ _ _ _ Hj Ea Eb) as [Hj1 E1].
  destruct (H2 _ _ _ _ Hj1 Ha Hb) as [Hj2 E2].
  split; auto. rewrite E1. simpl. exact E2.
Qed.

Lemma appends_for_each {A : Type} (xs : list A)
  (step : A -> DataFrame -> result DataFrame) :
  (forall x, appends (step x)) -> appends (for_each xs step).
Proof.
  intros Hs. induction xs as [|x xs IH]; simpl.
  - intros a b oa ob Hj Ha Hb. injection Ha as <-. injection Hb as <-. auto.
  - apply appends_bind; auto.
Qed.

Lemma joinable_assign a b name va vb :
  joinable a b -> length va = nrows a -> length vb = nrows b ->
  joinable (assign a name (ColF va)) (assign b name (ColF vb)).
Proof.
  intros (Wa & Wb & Hs & Hd) La Lb. repeat split; auto using wf_assign.
  apply schema_assign. assumption.
Qed.

Lemma transform_concat_total (f' : series -> series) ka kb va vb ra rb :
  causal f' ->
  length va = length ka -> length vb = length kb ->
  disjoint_keys ka kb = true ->
  transform (fun s => Ok (f' s)) ka va = Ok ra ->
  transform (fun s => Ok (f' s)) kb vb = Ok rb ->
  transform (fun s => Ok (f' s)) (ka ++ kb) (va ++ vb) = Ok (ra ++ rb).
Proof.
  intros Hf La Lb Hd. rewrite !(transform_total _ f') by reflexivity.
  intros Ha Hb. injection Ha as <-. injection Hb as <-.
  f_equal. apply grouped_concat; auto.
Qed.

Lemma transform_concat_rsi {pd : Pandas} window ka kb va vb ra rb :
  length va = length ka -> length vb = length kb ->
  disjoint_keys ka kb = true ->
  transform (fun s => _rsi s window) ka va = Ok ra ->
  transform (fun s => _rsi s window) kb vb = Ok rb ->
  transform (fun s => _rsi s window) (ka ++ kb) (va ++ vb) = Ok (ra ++ rb).
Proof.
  intros La Lb Hd. destruct window as [|w].
  - rewrite !(transform_always_raises _ ZeroDivisionError) by reflexivity.
    destruct ka as [|k ka]; [|discriminate].
    destruct kb as [|k kb]; [|discriminate].
    intros Ha Hb. injection Ha as <-. injection Hb as <-. reflexivity.
  - rewrite !(transform_total _ (fun s => rsi_values s (S w))) by reflexivity.
    intros Ha Hb. injection Ha as <-. injection Hb as <-.
    f_equal. apply grouped_concat; auto using causal_rsi_values.
Qed.

Section Isolation.

Context {pd : Pandas}.

Lemma add_momentum_appends w : appends (add_momentum w).
Proof.
  intros a b oa ob Hj Ha Hb. unfold add_momentum in *.
  read_columns Ha Hb va vb Ea Eb.
  injection Ha as <-. injection Hb as <-.
  pose proof Hj as (Wa & Wb & Hs & Hd).
  pose proof (getf_length _ _ _ Wa Ea) as La.
  pose proof (getf_length _ _ _ Wb Eb) as Lb.
  split.
  - apply joinable_assign; auto; apply grouped_length.
  - rewrite (getf_concat _ _ _ _ _ Hs Ea Eb). cbn [bind ticker concat_rows].
    rewrite grouped_concat by auto using causal_pct_change.
    rewrite assign_concat by assumption. reflexivity.
Qed.

Lemma clean_momentum_appends name : appends (clean_momentum name).
Proof.
  intros a b oa ob Hj Ha Hb. unfold clean_momentum in *.
  read_columns Ha Hb va vb Ea Eb.
  injection Ha as <-. injection Hb as <-.
  pose proof Hj as (Wa & Wb & Hs & Hd).
  pose proof (getf_length _ _ _ Wa Ea) as La.
  pose proof (getf_length _ _ _ Wb Eb) as Lb.
  split.
  - apply joinable_assign; auto; unfold replace_inf; rewrite length_map; auto.
  - rewrite (getf_concat _ _ _ _ _ Hs Ea Eb). cbn [bind].
    unfold replace_inf. rewrite map_app.
    rewrite assign_concat by assumption. reflexivity.
Qed.

Lemma add_returns_appends : appends add_returns.
Proof.
  intros a b oa ob Hj Ha Hb. unfold add_returns in *.
  read_columns Ha Hb va vb Ea Eb.
  pose proof Hj as (Wa & Wb & Hs & Hd).
  pose proof (getf_length _ _ _ Wa Ea) as La.
  pose proof (getf_length _ _ _ Wb Eb) as Lb.
  assert (joinable
            (assign a "ret_1d" (ColF (grouped (pct_change 1) (ticker a) va)))
            (assign b "ret_1d" (ColF (grouped (pct_change 1) (ticker b) vb))))
    as Hj1 by (apply joinable_assign; auto; apply grouped_length).
  read_columns Ha Hb va2 vb2 Ea2 Eb2.
  injection Ha as <-. injection Hb as <-.
  pose proof Hj1 as (Wa1 & Wb1 & Hs1 & _).
  pose proof (getf_length _ _ _ Wa1 Ea2) as La2.
  pose proof (getf_length _ _ _ Wb1 Eb2) as Lb2.
  unfold nrows in *. cbn [ticker assign] in *.
  split.
  - apply joinable_assign; auto;
      rewrite map2_length, !length_map, !grouped_length;
      unfold nrows; simpl; lia.
  - rewrite (getf_concat _ _ _ _ _ Hs Ea Eb). cbn [bind ticker concat_rows].
    rewrite grouped_concat by auto using causal_pct_change.
    rewrite assign_concat by assumption.
    rewrite (getf_concat _ _ _ _ _ Hs1 Ea2 Eb2).
    cbn [bind ticker concat_rows assign].
    rewrite !grouped_concat by auto using causal_shift.
    rewrite !map_app, map2_app
      by (rewrite !length_map, !grouped_length; reflexivity).
    rewrite assign_concat by assumption. reflexivity.
Qed.

Lemma add_moving_average_appends w : appends (add_moving_average w).
Proof.
  intros a b oa ob Hj Ha Hb. unfold add_moving_average in *.
  read_columns Ha Hb va vb Ea Eb.
  pose proof Hj as (Wa & Wb & Hs & Hd).
  pose proof (getf_length _ _ _ Wa Ea) as La.
  pose proof (getf_length _ _ _ Wb Eb) as Lb.
  read_columns Ha Hb ta tb Ta Tb.
  pose proof (transform_length _ _ _ _ Ta) as LTa.
  pose proof (transform_length _ _ _ _ Tb) as LTb.
  assert (joinable (assign a (ma_name w) (ColF ta))
                   (assign b (ma_name w) (ColF tb)))
    as Hj1 by (apply joinable_assign; auto).
  read_columns Ha Hb va2 vb2 Ea2 Eb2.
  injection Ha as <-. injection Hb as <-.
  pose proof Hj1 as (Wa1 & Wb1 & Hs1 & _).
  pose proof (getf_length _ _ _ Wa1 Ea2) as La2.
  pose proof (getf_length _ _ _ Wb1 Eb2) as Lb2.
  unfold nrows in *. cbn [ticker assign] in *.
  split.
  - apply joinable_assign; auto;
      rewrite length_map, map2_length; unfold nrows; simpl; lia.
  - rewrite (getf_concat _ _ _ _ _ Hs Ea Eb). cbn [bind ticker concat_rows].
    rewrite (transform_concat_total _ _ _ _ _ _ _ (causal_rolling _ _)
               La Lb Hd Ta Tb).
    cbn [bind]. rewrite assign_concat by assumption.
    rewrite (getf_concat _ _ _ _ _ Hs1 Ea2 Eb2). cbn [bind].
    rewrite map2_app by congruence. rewrite map_app.
    rewrite assign_concat by assumption. reflexivity.
Qed.

Lemma add_volatility_appends w : appends (add_volatility w).
Proof.
  intros a b oa ob Hj Ha Hb. unfold add_volatility in *.
  read_columns Ha Hb va vb Ea Eb.
  pose proof Hj as (Wa & Wb & Hs & Hd).
  pose proof (getf_length _ _ _ Wa Ea) as La.
  pose proof (getf_length _ _ _ Wb Eb) as Lb.
  read_columns Ha Hb ta tb Ta Tb.
  injection Ha as <-. injection Hb as <-.
  pose proof (transform_length _ _ _ _ Ta) as LTa.
  pose proof (transform_length _ _ _ _ Tb) as LTb.
  split.
  - apply joinable_assign; auto.
  - rewrite (getf_concat _ _ _ _ _ Hs Ea Eb). cbn [bind ticker concat_rows].
    rewrite (transform_concat_total _ _ _ _ _ _ _ (causal_rolling _ _)
               La Lb Hd Ta Tb).
    cbn [bind]. rewrite assign_concat by assumption. reflexivity.
Qed.

Lemma add_volume_zscore_appends : appends add_volume_zscore.
Proof.
  intros a b oa ob Hj Ha Hb. unfold add_volume_zscore in *.
  read_columns Ha Hb va vb Ea Eb.
  pose proof Hj as (Wa & Wb & Hs & Hd).
  pose proof (getf_length _ _ _ Wa Ea) as La.
  pose proof (getf_length _ _ _ Wb Eb) as Lb.
  assert (joinable
            (assign a "logvol" (ColF (map flog (replace_zero va))))
            (assign b "logvol" (ColF (map flog (replace_zero vb)))))
    as Hj1
      by (apply joinable_assign; auto; unfold replace_zero;
          rewrite !length_map; auto).
  read_columns Ha Hb va2 vb2 Ea2 Eb2.
  pose proof Hj1 as (Wa1 & Wb1 & Hs1 & _).
  pose proof (getf_length _ _ _ Wa1 Ea2) as La2.
  pose proof (getf_length _ _ _ Wb1 Eb2) as Lb2.
  unfold nrows in La2, Lb2. cbn [ticker assign] in *.
  read_columns Ha Hb ta tb Ta Tb. read_columns Ha Hb sa sb Sa Sb.
  injection Ha as <-. injection Hb as <-.
  pose proof (transform_length _ _ _ _ Ta) as LTa.
  pose proof (transform_length _ _ _ _ Tb) as LTb.
  pose proof (transform_length _ _ _ _ Sa) as LSa.
  pose proof (transform_length _ _ _ _ Sb) as LSb.
  split.
  - apply joinable_assign; auto;
      rewrite !map2_length; unfold nrows; simpl; lia.
  - rewrite (getf_concat _ _ _ _ _ Hs Ea Eb). cbn [bind].
    unfold replace_zero. rewrite !map_app. fold (replace_zero va).
    fold (replace_zero vb). rewrite assign_concat by assumption.
    rewrite (getf_concat _ _ _ _ _ Hs1 Ea2 Eb2).
    cbn [bind ticker concat_rows assign].
    rewrite (transform_concat_total _ _ _ _ _ _ _ (causal_rolling _ _)
               La2 Lb2 Hd Ta Tb).
    cbn [bind].
    rewrite (transform_concat_total _ _ _ _ _ _ _ (causal_rolling _ _)
               La2 Lb2 Hd Sa Sb).
    cbn [bind].
    rewrite !map2_app by (rewrite ?map2_length; lia).
    rewrite assign_concat by assumption. reflexivity.
Qed.

Lemma add_intraday_range_appends : appends add_intraday_range.
Proof.
  intros a b oa ob Hj Ha Hb. unfold add_intraday_range in *.
  read_columns Ha Hb ha hb Ea Eb. read_columns Ha Hb la lb Ea' Eb'.
  pose proof Hj as (Wa & Wb & Hs & Hd).
  pose proof (getf_length _ _ _ Wa Ea) as La.
  pose proof (getf_length _ _ _ Wb Eb) as Lb.
  pose proof (getf_length _ _ _ Wa Ea') as La'.
  pose proof (getf_length _ _ _ Wb Eb') as Lb'.
  assert (joinable
            (assign a "hl_range"
               (ColF (map (fun x => fsub x fone) (map2 fdiv ha la))))
            (assign b "hl_range"
               (ColF (map (fun x => fsub x fone) (map2 fdiv hb lb)))))
    as Hj1
      by (apply joinable_assign; auto; rewrite length_map, map2_length; lia).
  read_columns Ha Hb ca cb Ea2 Eb2. read_columns Ha Hb pa pb Ea3 Eb3.
  injection Ha as <-. injection Hb as <-.
  pose proof Hj1 as (Wa1 & Wb1 & Hs1 & _).
  pose proof (getf_length _ _ _ Wa1 Ea2) as La2.
  pose proof (getf_length _ _ _ Wb1 Eb2) as Lb2.
  pose proof (getf_length _ _ _ Wa1 Ea3) as La3.
  pose proof (getf_length _ _ _ Wb1 Eb3) as Lb3.
  split.
  - apply joinable_assign; auto;
      rewrite length_map, map2_length; unfold nrows in *; simpl in *; lia.
  - rewrite (getf_concat _ _ _ _ _ Hs Ea Eb). cbn [bind].
    rewrite (getf_concat _ _ _ _ _ Hs Ea' Eb'). cbn [bind].
    rewrite map2_app by congruence. rewrite map_app.
    rewrite assign_concat by assumption.
    rewrite (getf_concat _ _ _ _ _ Hs1 Ea2 Eb2). cbn [bind].
    rewrite (getf_concat _ _ _ _ _ Hs1 Ea3 Eb3). cbn [bind].
    rewrite map2_app by congruence. rewrite map_app.
    rewrite assign_concat by assumption. reflexivity.
Qed.

Lemma add_rsi_appends window : appends (add_rsi window).
Proof.
  intros a b oa ob Hj Ha Hb. unfold add_rsi in *.
  read_columns Ha Hb va vb Ea Eb.
  pose proof Hj as (Wa & Wb & Hs & Hd).
  pose proof (getf_length _ _ _ Wa Ea) as La.
  pose proof (getf_length _ _ _ Wb Eb) as Lb.
  read_columns Ha Hb ta tb Ta Tb.
  injection Ha as <-. injection Hb as <-.
  pose proof (transform_length _ _ _ _ Ta) as LTa.
  pose proof (transform_length _ _ _ _ Tb) as LTb.
  split.
  - apply joinable_assign; auto.
  - rewrite (getf_concat _ _ _ _ _ Hs Ea Eb). cbn [bind ticker concat_rows].
    rewrite (transform_concat_rsi _ _ _ _ _ _ _ La Lb Hd Ta Tb).
    cbn [bind]. rewrite assign_concat by assumption. reflexivity.
Qed.

Lemma build_features_appends cfg : appends (fun df => build_features df cfg).
Proof.
  unfold build_features.
  repeat (apply appends_bind;
          [ first [ apply add_returns_appends
                  | apply appends_for_each; intros;
                    first [ apply add_momentum_appends
                          | apply clean_momentum_appends
                          | apply add_moving_average_appends
                          | apply add_volatility_appends ]
                  | apply add_volume_zscore_appends
                  | apply add_intraday_range_appends
                  | apply add_rsi_appends ] | ]).
  intros a b oa ob Hj Ha Hb. injection Ha as <-. injection Hb as <-. auto.
Qed.

End Isolation.

(* ================================================================== *)
(** * The two halves of a stacked table *)
(* ================================================================== *)

Lemma col_select_head (x y : column) n :
  col_dtype x = col_dtype y ->
  col_select (repeat true (col_length x) ++ repeat false n) (col_append x y)
  = x.
Proof.
  destruct x, y; simpl; try discriminate; intros _; f_equal;
    apply select_head.
Qed.

Lemma col_select_tail (x y : column) n :
  col_dtype x = col_dtype y -> col_length x = n ->
  col_select (repeat false n ++ repeat true (col_length y)) (col_append x y)
  = y.
Proof.
  destruct x, y; simpl; try discriminate; intros _ <-; f_equal;
    rewrite select_app by (rewrite repeat_length; auto);
    rewrite select_all, select_none; reflexivity.
Qed.

Lemma columns_select_head (ca cb : list (string * column)) n k :
  map (fun nc => (fst nc, col_dtype (snd nc))) ca
  = map (fun nc => (fst nc, col_dtype (snd nc))) cb ->
  Forall (fun nc => col_length (snd nc) = n) ca ->
  map (fun nc => (fst nc,
                  col_select (repeat true n ++ repeat false k) (snd nc)))
    (map2 (fun x y => (fst x, col_append (snd x) (snd y))) ca cb)
  = ca.
Proof.
  revert cb; induction ca as [|[na x] ca IH]; intros [|[nb y] cb] Hs Hl;
    simpl in *; try discriminate; auto.
  injection Hs as Hn Hd Hs.
  apply Forall_cons_iff in Hl. destruct Hl as [Hx Hl']. simpl in Hx.
  rewrite <- Hx at 1. rewrite col_select_head by assumption.
  rewrite IH; auto.
Qed.

Lemma columns_select_tail (ca cb : list (string * column)) n k :
  map (fun nc => (fst nc, col_dtype (snd nc))) ca
  = map (fun nc => (fst nc, col_dtype (snd nc))) cb ->
  Forall (fun nc => col_length (snd nc) = n) ca ->
  Forall (fun nc => col_length (snd nc) = k) cb ->
  map (fun nc => (fst nc,
                  col_select (repeat false n ++ repeat true k) (snd nc)))
    (map2 (fun x y => (fst x, col_append (snd x) (snd y))) ca cb)
  = cb.
Proof.
  revert cb; induction ca as [|[na x] ca IH]; intros [|[nb y] cb] Hs Hl Hk;
    simpl in *; try discriminate; auto.
  injection Hs as Hn Hd Hs.
  apply Forall_cons_iff in Hl, Hk.
  destruct Hl as [Hx Hl']. destruct Hk as [Hy Hk']. simpl in Hx, Hy.
  rewrite <- Hy at 1. rewrite col_select_tail by auto.
  rewrite IH; auto. congruence.
Qed.

Lemma select_rows_concat_head a b :
  wf_frame a = true -> schema a = schema b ->
  select_rows (repeat true (nrows a) ++ repeat false (nrows b))
    (concat_rows a b) = a.
Proof.
  intros Wa Hs. apply wf_frame_iff in Wa. destruct Wa as [Da Ca].
  unfold select_rows, concat_rows, nrows in *. cbn [ticker date columns].
  rewrite select_head. rewrite <- Da at 1. rewrite select_head.
  rewrite columns_select_head by assumption.
  destruct a; reflexivity.
Qed.

Lemma select_rows_concat_tail a b :
  wf_frame a = true -> wf_frame b = true -> schema a = schema b ->
  select_rows (repeat false (nrows a) ++ repeat true (nrows b))
    (concat_rows a b) = b.
Proof.
  intros Wa Wb Hs. apply wf_frame_iff in Wa, Wb.
  destruct Wa as [Da Ca]. destruct Wb as [Db Cb].
  unfold select_rows, concat_rows, nrows in *. cbn [ticker date columns].
  rewrite (select_tail (ticker a) (ticker b) (ticker a) eq_refl).
  rewrite <- Db at 1.
  rewrite (select_tail (ticker a) (date b) (date a) Da).
  rewrite columns_select_tail by assumption.
  destruct b; reflexivity.
Qed.

Lemma col_append_length x y :
  col_dtype x = col_dtype y ->
  col_length (col_append x y) = col_length x + col_length y.
Proof.
  destruct x, y; simpl; try discriminate; intros _; apply length_app.
Qed.

Lemma wf_concat_rows a b :
  wf_frame a = true -> wf_frame b = true -> schema a = schema b ->
  wf_frame (concat_rows a b) = true.
Proof.
  intros Wa Wb Hs. apply wf_frame_iff in Wa, Wb. apply wf_frame_iff.
  destruct Wa as [Da Ca]. destruct Wb as [Db Cb].
  unfold concat_rows, nrows, schema in *. cbn [ticker date columns].
  rewrite !length_app. split; [congruence|].
  revert Hs Ca Cb. generalize (columns a) (columns b).
  induction l as [|[na x] ca IH]; intros [|[nb y] cb] Hs Ca Cb;
    simpl in *; try discriminate; constructor.
  - injection Hs as Hn Hd Hs.
    apply Forall_cons_iff in Ca, Cb. simpl in *.
    rewrite col_append_length by assumption. lia.
  - injection Hs as Hn Hd Hs.
    apply Forall_cons_iff in Ca, Cb. apply IH; tauto.
Qed.

Section MainTheorems.

Context {pd : Pandas}.

(** C2.  On a table whose dates ascend within every ticker (the order the
    loader leaves it in), computing the features of the table cut at a
    date [D] gives the features of the full table cut at [D]; so the two
    runs agree on every feature column at every row dated [D] or before,
    and in particular at the rows dated at most [D] minus the largest
    lookback window. *)
Theorem features_ignore_later_rows (df : DataFrame) (cfg : FeatureConfig)
  (D : Z) (out : DataFrame) :
  wf_frame df = true ->
  dates_ascending (ticker df) (date df) = true ->
  build_features df cfg = Ok out ->
  exists out',
    build_features (rows_until D df) cfg = Ok out'
    /\ out' = rows_until D out
    /\ rows_until (D - Z.of_nat (max_window cfg)) out'
       = rows_until (D - Z.of_nat (max_window cfg)) out.
Proof.
  intros Hwf Hs H.
  assert (restrictable (map (fun d => (d <=? D)%Z) (date df)) df) as Hr.
  { split; [|split]; auto.
    - rewrite length_map. apply wf_frame_iff in Hwf. tauto.
    - apply dates_ascending_prefix_closed. assumption. }
  destruct (build_features_commutes _ cfg df out Hr H) as [_ Hc].
  destruct (build_features_writes cfg df out H) as (_ & Hd & _).
  exists (rows_until D out). split; [|split]; auto.
  - unfold rows_until at 2. rewrite Hd. exact Hc.
  - apply rows_until_rows_until. lia.
Qed.

(** C3.  For two tables of one schema, each holding the rows of a single
    ticker, the two tickers distinct: computing the features of each
    table alone and stacking the results is computing the features of the
    stacked table.  Whenever the two separate runs return, the run on the
    stacked table returns the stacked results; and whenever the run on
    the stacked table returns, so do the two separate runs, and it
    returns their results stacked. *)
Theorem features_isolate_entities (a b : DataFrame) (cfg : FeatureConfig)
  (ta tb : string) :
  wf_frame a = true -> wf_frame b = true ->
  schema a = schema b ->
  forallb (String.eqb ta) (ticker a) = true ->
  forallb (String.eqb tb) (ticker b) = true ->
  String.eqb ta tb = false ->
  (forall oa ob,
      build_features a cfg = Ok oa ->
      build_features b cfg = Ok ob ->
      build_features (concat_rows a b) cfg = Ok (concat_rows oa ob))
  /\ (forall out,
         build_features (concat_rows a b) cfg = Ok out ->
         exists oa ob,
           build_features a cfg = Ok oa
           /\ build_features b cfg = Ok ob
           /\ out = concat_rows oa ob).
Proof.
  intros Wa Wb Hs Ha Hb Hab.
  assert (joinable a b) as Hj.
  { repeat split; auto. unfold disjoint_keys.
    rewrite forallb_forall in *. intros k Hk.
    apply Ha, String.eqb_eq in Hk. subst k.
    apply negb_true_iff. apply not_true_is_false. intros Hex.
    apply existsb_exists in Hex. destruct Hex as (k & Hk & E).
    apply Hb, String.eqb_eq in Hk. subst k. congruence. }
  assert (forall oa ob,
             build_features a cfg = Ok oa ->
             build_features b cfg = Ok ob ->
             build_features (concat_rows a b) cfg = Ok (concat_rows oa ob))
    as Hforward.
  { intros oa ob Ea Eb.
    apply (build_features_appends cfg a b oa ob Hj Ea Eb). }
  split; [exact Hforward|].
  intros out E.
  pose proof (wf_concat_rows a b Wa Wb Hs) as Wc.
  assert (nrows (concat_rows a b) = nrows a + nrows b) as Hn
      by (unfold nrows, concat_rows; cbn [ticker]; apply length_app).
  assert (restrictable (repeat true (nrows a) ++ repeat false (nrows b))
            (concat_rows a b)) as Rh.
  { split; [|split]; auto.
    - rewrite length_app, !repeat_length. auto.
    - apply prefix_closed_head. }
  assert (restrictable (repeat false (nrows a) ++ repeat true (nrows b))
            (concat_rows a b)) as Rt.
  { split; [|split]; auto.
    - rewrite length_app, !repeat_length. auto.
    - apply prefix_closed_tail. apply Hj. }
  destruct (build_features_commutes _ cfg _ _ Rh E) as [_ Eh].
  destruct (build_features_commutes _ cfg _ _ Rt E) as [_ Et].
  rewrite select_rows_concat_head in Eh by assumption.
  rewrite select_rows_concat_tail in Et by assumption.
  eexists. eexists. split; [exact Eh|]. split; [exact Et|].
  specialize (Hforward _ _ Eh Et). congruence.
Qed.

(** C10, as amended.  A stage keeps the rows of its input in their order
    (the two key columns are returned as they are), keeps the existing
    columns in their order, and keeps the values of every column that
    does not bear the name of a column the stage writes. *)
Theorem stages_keep_other_columns (df : DataFrame) (cfg : FeatureConfig)
  (which : TargetHorizon) :
  (forall out,
      build_features df cfg = Ok out ->
      ticker out = ticker df /\ date out = date df
      /\ (forall x, ~ In x (feature_columns cfg) ->
                    find_col x (columns out) = find_col x (columns df))
      /\ (exists added, column_names out = column_names df ++ added))
  /\ (forall out,
         add_targets df cfg which = Ok out ->
         ticker out = ticker df /\ date out = date df
         /\ (forall x, ~ In x (target_columns which) ->
                       find_col x (columns out) = find_col x (columns df))
         /\ (exists added, column_names out = column_names df ++ added)).
Proof.
  split; intros out H.
  - apply (build_features_writes cfg df out H).
  - apply (add_targets_writes cfg which df out H).
Qed.

End MainTheorems.

Lemma features_ignore_later_rows_witness :
  exists out',
    @build_features toy_pandas (rows_until 3 demo_table) demo_config = Ok out'
    /\ out' = rows_until 3 demo_features
    /\ rows_until (3 - Z.of_nat (max_window demo_config)) out'
       = rows_until (3 - Z.of_nat (max_window demo_config)) demo_features.
Proof.
  apply (@features_ignore_later_rows toy_pandas demo_table demo_config 3
           demo_features); reflexivity.
Defined.

Lemma features_isolate_entities_witness :
  @build_features toy_pandas (concat_rows demo_a demo_b) demo_config
  = Ok (concat_rows demo_features_a demo_features_b).
Proof.
  apply (@features_isolate_entities toy_pandas demo_a demo_b demo_config
           "PETR4" "VALE3"); reflexivity.
Defined.

Lemma stages_keep_other_columns_witness :
  ticker demo_features = ticker demo_table
  /\ date demo_features = date demo_table
  /\ find_col "close" (columns demo_features)
     = find_col "close" (columns demo_table).
Proof.
  destruct (@stages_keep_other_columns toy_pandas demo_table demo_config both)
    as [H _].
  destruct (H demo_features eq_refl) as (T & D & F & _).
  split; [exact T|]. split; [exact D|]. apply F.
  simpl. intuition discriminate.
Defined.

(* ================================================================== *)
(** * Rows of a frame *)
(* ================================================================== *)

Lemma map_nth_seq {A B : Type} (f : A -> B) (d : A) (l : list A) :
  map (fun j => f (nth j l d)) (seq 0 (length l)) = map f l.
Proof.
  induction l as [|x l IH]; simpl; auto.
  f_equal. rewrite <- seq_shift, map_map. exact IH.
Qed.

Lemma nth_take {A : Type} (d : A) (idx : list nat) (l : list A) j :
  j < length idx -> nth j (take d idx l) d = nth (nth j idx 0) l d.
Proof.
  intros H. unfold take.
  rewrite (nth_indep _ d (nth 0 l d)) by (rewrite length_map; assumption).
  apply (map_nth (fun i => nth i l d)).
Qed.

Lemma row_at_take_rows idx df j :
  j < length idx -> row_at (take_rows idx df) j = row_at df (nth j idx 0).
Proof.
  intros H. unfold row_at, take_rows; simpl.
  rewrite !nth_take by assumption. f_equal.
  rewrite map_map; simpl. apply map_ext. intros [n c]; simpl. f_equal.
  destruct c; simpl; rewrite nth_take; auto.
Qed.

Lemma rows_take_rows idx df :
  rows (take_rows idx df) = map (row_at df) idx.
Proof.
  unfold rows, nrows. simpl. unfold take at 1. rewrite length_map.
  rewrite <- (map_nth_seq (row_at df) 0 idx).
  apply map_ext_in. intros j Hj. apply in_seq in Hj.
  apply row_at_take_rows. lia.
Qed.

Lemma select_as_take {A : Type} (d : A) (m : list bool) (l pad : list A) :
  length l = length m ->
  select m l
  = map (fun i => nth i (pad ++ l) d) (select m (seq (length pad) (length m))).
Proof.
  revert l pad. induction m as [|b m IH]; intros [|x l] pad H; simpl in *;
    try discriminate; auto.
  injection H as H.
  specialize (IH l (pad ++ [x]) H).
  rewrite length_app in IH; simpl in IH.
  rewrite <- app_assoc in IH; simpl in IH.
  replace (length pad + 1) with (S (length pad)) in IH by lia.
  destruct b; simpl; rewrite <- IH; auto.
  rewrite nth_middle. reflexivity.
Qed.

Lemma select_rows_as_take_rows m df :
  wf_frame df = true -> length m = nrows df ->
  select_rows m df = take_rows (kept_positions m) df.
Proof.
  intros Hwf Hm. apply wf_frame_iff in Hwf. destruct Hwf as [Hd Hc].
  unfold select_rows, take_rows, take, kept_positions. f_equal.
  - apply (select_as_take EmptyString m (ticker df) []). auto.
  - apply (select_as_take 0%Z m (date df) []). congruence.
  - apply map_ext_in. intros [n c] Hin. simpl. f_equal.
    rewrite Forall_forall in Hc. specialize (Hc _ Hin). simpl in Hc.
    destruct c; simpl in *; f_equal.
    + apply (select_as_take NaN m v []). congruence.
    + apply (select_as_take None m v []). congruence.
    + apply (select_as_take (RNum NaN) m v []). congruence.
Qed.

Lemma rows_select_rows m df :
  wf_frame df = true -> length m = nrows df ->
  rows (select_rows m df) = select m (rows df).
Proof.
  intros Hwf Hm. rewrite select_rows_as_take_rows by assumption.
  rewrite rows_take_rows. unfold kept_positions, rows.
  rewrite select_map, Hm. reflexivity.
Qed.

Lemma find_cell_row_at name df i :
  find_cell name (r_cells (row_at df i))
  = option_map (fun c => col_cell c i) (find_col name (columns df)).
Proof.
  unfold row_at; simpl. induction (columns df) as [|[n c] cols IH]; simpl; auto.
  destruct (String.eqb name n); auto.
Qed.

Lemma nth_col_notna c i :
  i < col_length c -> nth i (col_notna c) true = cell_notna (col_cell c i).
Proof.
  intros H. destruct c; simpl in *.
  - rewrite (nth_indep _ true (notna NaN)) by (rewrite length_map; auto).
    exact (map_nth notna v NaN i).
  - rewrite (nth_indep _ true false) by (rewrite length_map; auto).
    exact (map_nth (fun x : option Z =>
                      match x with Some _ => true | None => false end)
             v None i).
  - rewrite (nth_indep _ true (negb (raw_isna (RNum NaN))))
      by (rewrite length_map; auto).
    exact (map_nth (fun x => negb (raw_isna x)) v (RNum NaN) i).
Qed.

Lemma col_notna_length c : length (col_notna c) = col_length c.
Proof. destruct c; simpl; apply length_map. Qed.

Lemma nth_map2_andb a b i :
  i < length a -> i < length b ->
  nth i (map2 andb a b) true = nth i a true && nth i b true.
Proof.
  revert a b; induction i as [|i IH]; intros [|x a] [|y b] Ha Hb;
    simpl in *; try lia; auto.
  apply IH; lia.
Qed.

Lemma notna_mask_length names df :
  wf_frame df = true -> length (notna_mask names df) = nrows df.
Proof.
  intros Hwf. apply wf_frame_iff in Hwf. destruct Hwf as [_ Hc].
  rewrite Forall_forall in Hc.
  unfold notna_mask. induction names as [|n names IH]; simpl.
  - apply repeat_length.
  - destruct (find_col n (columns df)) as [c|] eqn:E; auto.
    apply find_col_In, Hc in E. simpl in E.
    rewrite map2_length, col_notna_length, IH, E. lia.
Qed.

Lemma nth_notna_mask names df i :
  wf_frame df = true -> i < nrows df ->
  nth i (notna_mask names df) true = row_complete names (row_at df i).
Proof.
  intros Hwf Hi. pose proof Hwf as Hwf'.
  apply wf_frame_iff in Hwf. destruct Hwf as [_ Hc].
  rewrite Forall_forall in Hc.
  unfold row_complete. induction names as [|n names IH].
  - simpl. apply nth_repeat.
  - cbn [forallb]. rewrite find_cell_row_at, <- IH.
    change (notna_mask (n :: names) df)
      with (match find_col n (columns df) with
            | Some c => map2 andb (col_notna c) (notna_mask names df)
            | None => notna_mask names df
            end).
    destruct (find_col n (columns df)) as [c|] eqn:E; simpl; auto.
    apply find_col_In, Hc in E. simpl in E.
    rewrite nth_map2_andb
      by (rewrite ?col_notna_length, ?notna_mask_length; auto; lia).
    rewrite nth_col_notna by lia. reflexivity.
Qed.

Lemma notna_mask_rows names df :
  wf_frame df = true ->
  notna_mask names df = map (row_complete names) (rows df).
Proof.
  intros Hwf. apply (nth_ext _ _ true (row_complete names (row_at df 0))).
  - rewrite notna_mask_length by assumption.
    unfold rows. rewrite !length_map, length_seq. reflexivity.
  - intros i Hi. rewrite notna_mask_length in Hi by assumption.
    rewrite nth_notna_mask by assumption.
    unfold rows. rewrite map_map.
    rewrite (map_nth (fun j => row_complete names (row_at df j))).
    rewrite seq_nth by assumption. reflexivity.
Qed.

(* ================================================================== *)
(** * Order of the output *)
(* ================================================================== *)

Lemma ascii_compare_lt_trans a b c :
  Ascii.compare a b = Lt -> Ascii.compare b c = Lt -> Ascii.compare a c = Lt.
Proof. unfold Ascii.compare. rewrite !N.compare_lt_iff. lia. Qed.

Lemma string_compare_refl s : String.compare s s = Eq.
Proof.
  induction s as [|a s IH]; simpl; auto.
  unfold Ascii.compare. rewrite N.compare_refl. assumption.
Qed.

Lemma string_compare_lt_trans s1 : forall s2 s3,
  String.compare s1 s2 = Lt -> String.compare s2 s3 = Lt ->
  String.compare s1 s3 = Lt.
Proof.
  induction s1 as [|a s1 IH]; intros [|b s2] [|c s3]; simpl;
    try discriminate; auto.
  destruct (Ascii.compare a b) eqn:Eab; try discriminate;
    destruct (Ascii.compare b c) eqn:Ebc; try discriminate; intros H1 H2.
  - apply Ascii.compare_eq_iff in Eab, Ebc. subst.
    unfold Ascii.compare. rewrite N.compare_refl. eauto.
  - apply Ascii.compare_eq_iff in Eab. subst. rewrite Ebc. reflexivity.
  - apply Ascii.compare_eq_iff in Ebc. subst. rewrite Eab. reflexivity.
  - rewrite (ascii_compare_lt_trans _ _ _ Eab Ebc). reflexivity.
Qed.

Lemma string_leb_trans s1 s2 s3 :
  String.leb s1 s2 = true -> String.leb s2 s3 = true ->
  String.leb s1 s3 = true.
Proof.
  unfold String.leb.
  destruct (String.compare s1 s2) eqn:E12; try discriminate;
    destruct (String.compare s2 s3) eqn:E23; try discriminate; intros _ _.
  - apply String.compare_eq_iff in E12, E23. subst.
    rewrite string_compare_refl. reflexivity.
  - apply String.compare_eq_iff in E12. subst. rewrite E23. reflexivity.
  - apply String.compare_eq_iff in E23. subst. rewrite E12. reflexivity.
  - rewrite (string_compare_lt_trans _ _ _ E12 E23). reflexivity.
Qed.

Lemma date_ticker_leb_total a b :
  date_ticker_leb a b = true \/ date_ticker_leb b a = true.
Proof.
  unfold date_ticker_leb. destruct a as [d1 t1], b as [d2 t2]; simpl.
  destruct (Z.lt_trichotomy d1 d2) as [H|[H|H]].
  - left. apply Z.ltb_lt in H. rewrite H. reflexivity.
  - subst d2. rewrite Z.ltb_irrefl, Z.eqb_refl. simpl.
    apply String.leb_total.
  - right. apply Z.ltb_lt in H. rewrite H. reflexivity.
Qed.

Lemma date_ticker_leb_trans a b c :
  date_ticker_leb a b = true -> date_ticker_leb b c = true ->
  date_ticker_leb a c = true.
Proof.
  unfold date_ticker_leb. destruct a as [d1 t1], b as [d2 t2], c as [d3 t3].
  simpl. rewrite !orb_true_iff, !andb_true_iff, !Z.ltb_lt, !Z.eqb_eq.
  intros [H1|[H1 L1]] [H2|[H2 L2]]; try (left; lia).
  right. split; [lia|]. eapply string_leb_trans; eauto.
Qed.

Lemma Sorted_map_rows {A B : Type} (f : A -> B) (R : A -> A -> Prop)
  (R' : B -> B -> Prop) (l : list A) :
  (forall x y, R x y -> R' (f x) (f y)) ->
  Sorted R l -> Sorted R' (map f l).
Proof.
  intros HR Hs. induction Hs as [|x l Hs IH Hhd]; simpl; constructor; auto.
  destruct Hhd; simpl; constructor; auto.
Qed.

(* ================================================================== *)
(** * [finalize_dataset] *)
(* ================================================================== *)

Lemma for_each_check (p : string -> bool) (err : string -> exn)
  (names : list string) :
  for_each names (fun c (_ : unit) => if p c then Ok tt else Raise (err c)) tt
  = match find (fun c => negb (p c)) names with
    | Some c => Raise (err c)
    | None => Ok tt
    end.
Proof.
  induction names as [|n names IH]; simpl; auto.
  destruct (p n); simpl; auto.
Qed.

(** C9.  [finalize_dataset] raises exactly when a required column is
    absent, and then the error names the first absent one; otherwise it
    returns, with the columns of its input, exactly the rows of the input
    whose required columns all hold a value, ordered by date and then by
    ticker.  The targets are not among the required columns, so a row
    complete in the required columns is returned whatever its targets
    hold. *)
Theorem finalize_dataset_spec (df : DataFrame) (cfg : FeatureConfig) :
  wf_frame df = true ->
  ((exists e, finalize_dataset df cfg = Raise e)
   <-> (exists c, In c (must_have cfg) /\ has_col c df = false))
  /\ (forall e, finalize_dataset df cfg = Raise e ->
        exists c, In c (must_have cfg) /\ has_col c df = false
                  /\ e = missing_column_error c)
  /\ (forall out, finalize_dataset df cfg = Ok out ->
        Permutation (rows out)
          (filter (row_complete (must_have cfg)) (rows df))
        /\ StronglySorted (fun a b => row_leb a b = true) (rows out)
        /\ column_names out = column_names df
        /\ (forall r, In r (rows df) ->
                      row_complete (must_have cfg) r = true ->
                      In r (rows out))
        /\ ~ In "target_w"%string (must_have cfg)
        /\ ~ In "target_m"%string (must_have cfg)).
Proof.
  intros Hwf. unfold finalize_dataset. rewrite for_each_check.
  destruct (find (fun c => negb (has_col c df)) (must_have cfg)) as [c|] eqn:F.
  - apply find_some in F. destruct F as [Hin Hc].
    apply negb_true_iff in Hc. cbn [bind].
    split; [|split].
    + split; intros _; eauto.
    + intros e H. injection H as <-. eauto.
    + intros out H. discriminate.
  - cbn [bind]. split; [|split].
    + split.
      * intros [e H]. discriminate.
      * intros (c & Hin & Hc).
        pose proof (find_none _ _ F c Hin) as Hn. simpl in Hn.
        rewrite Hc in Hn. discriminate.
    + intros e H. discriminate.
    + intros out H. injection H as <-.
      set (df2 := select_rows (notna_mask (must_have cfg) df) df).
      assert (rows df2 = filter (row_complete (must_have cfg)) (rows df)) as R2.
      { unfold df2. rewrite rows_select_rows;
          auto using notna_mask_length.
        rewrite notna_mask_rows by assumption. apply select_filter. }
      rewrite rows_take_rows.
      assert (Permutation
                (map (row_at df2)
                   (sorted_positions date_ticker_leb (date_ticker_key df2)
                      (nrows df2)))
                (filter (row_complete (must_have cfg)) (rows df))) as P.
      { rewrite <- R2. unfold rows. apply Permutation_map.
        apply isort_perm. }
      split; [exact P|]. split; [|split; [|split]].
      * apply Sorted_StronglySorted.
        { intros x y z. unfold row_leb. apply date_ticker_leb_trans. }
        apply (Sorted_map_rows (row_at df2)
                 (fun i j => date_ticker_leb (date_ticker_key df2 i)
                               (date_ticker_key df2 j) = true)).
        { intros x y H. exact H. }
        apply (isort_sorted
                 (fun i j => date_ticker_leb (date_ticker_key df2 i)
                               (date_ticker_key df2 j))).
        intros x y. apply date_ticker_leb_total.
      * unfold column_names, take_rows, df2, select_rows; simpl.
        rewrite !map_map. reflexivity.
      * intros r Hr Hc. apply (Permutation_in r (Permutation_sym P)).
        apply filter_In. auto.
      * split; unfold must_have, rsi_name; simpl;
          intros [H|[H|[H|[H|[H|[]]]]]]; discriminate H.
Qed.

(* ================================================================== *)
(** * Arithmetic of cells *)
(* ================================================================== *)

Local Open Scope Q_scope.

Lemma Qltb_lt (a b : Q) : Qltb a b = true <-> a < b.
Proof.
  unfold Qltb. rewrite negb_true_iff. split; intros H.
  - apply Qnot_le_lt. intros Hle. apply Qle_bool_iff in Hle. congruence.
  - apply not_true_is_false. intros Hle. apply Qle_bool_iff in Hle.
    apply (Qlt_not_le _ _ H Hle).
Qed.

Lemma Qltb_ge (a b : Q) : Qltb a b = false <-> b <= a.
Proof.
  unfold Qltb. rewrite negb_false_iff. apply Qle_bool_iff.
Qed.

Lemma Qeq_bool_false (a b : Q) : Qeq_bool a b = false <-> ~ a == b.
Proof.
  split; intros H.
  - intros E. apply Qeq_bool_iff in E. congruence.
  - apply not_true_is_false. intros E. apply Qeq_bool_iff in E. auto.
Qed.

Lemma Qred_zero (q : Q) : q == 0 -> Qred q = 0.
Proof. intros H. apply (Qred_complete q 0 H). Qed.

Lemma nonneg_fin (q : Q) : 0 <= q -> nonneg (fin q).
Proof. intros H. unfold fin, nonneg. rewrite Qred_correct. assumption. Qed.

Lemma nonneg_fmul (o : Q) (x : f64) :
  0 <= o -> nonneg x -> nonneg (fmul (Fin o) x).
Proof.
  intros Ho Hx.
  destruct x as [| | |q]; cbn [fmul nonneg] in *; auto; try contradiction.
  - unfold finf_scaled. destruct (Qeq_bool o 0) eqn:E; cbn [nonneg]; auto.
    apply Qeq_bool_false in E.
    assert (Qltb 0 o = true) as ->.
    { apply Qltb_lt. apply Qle_lt_or_eq in Ho. destruct Ho as [H|H]; auto.
      exfalso. apply E. symmetry. assumption. }
    exact I.
  - apply nonneg_fin. apply Qmult_le_0_compat; assumption.
Qed.

Lemma nonneg_fadd (x y : f64) : nonneg x -> nonneg y -> nonneg (fadd x y).
Proof.
  destruct x as [| | |a], y as [| | |b]; cbn [fadd nonneg]; auto;
    try contradiction.
  intros Ha Hb. apply nonneg_fin. lra.
Qed.

Lemma nonneg_fdiv_pos (x : f64) (d : Q) :
  0 < d -> nonneg x -> nonneg (fdiv x (Fin d)).
Proof.
  intros Hd Hx.
  destruct x as [| | |a]; cbn [fdiv nonneg] in *; auto; try contradiction.
  - assert (Qltb d 0 = false) as -> by (apply Qltb_ge; lra). exact I.
  - assert (Qeq_bool d 0 = false) as -> by (apply Qeq_bool_false; lra).
    apply nonneg_fin. apply Qle_shift_div_l; lra.
Qed.

Lemma clip_lower0_nonneg (s : series) : Forall nonneg (clip_lower0 s).
Proof.
  unfold clip_lower0. apply Forall_map. apply Forall_forall. intros x _.
  destruct x as [| | |q]; cbn [flt fzero nonneg]; auto; try lra.
  destruct (Qltb q 0) eqn:E; cbn [nonneg fzero]; [lra|].
  apply Qltb_ge in E. assumption.
Qed.

Lemma rsi_alpha_range (window : nat) :
  0 < rsi_alpha window /\ rsi_alpha window <= 1.
Proof.
  unfold rsi_alpha, Qlt, Qle; simpl. lia.
Qed.

(** ** The smoothed averages are never negative *)

Lemma ewm_step_ok (alpha : Q) (st : ewm_state) (cur : f64) :
  0 < alpha -> alpha <= 1 ->
  ewm_state_ok st -> nonneg cur -> ewm_state_ok (ewm_step alpha st cur).
Proof.
  intros Ha1 Ha2 [Hw Ho] Hc. destruct st as [[w o] n].
  cbn [fst snd] in *. unfold ewm_step.
  assert (0 <= Qred (o * (1 - alpha))) as Ho1.
  { rewrite Qred_correct. apply Qmult_le_0_compat; lra. }
  destruct (notna w) eqn:Ew; destruct (notna cur) eqn:Ec;
    unfold ewm_state_ok; cbn [fst snd]; auto.
  split; [|lra].
  destruct (feqb w cur); auto.
  apply nonneg_fdiv_pos.
  - rewrite Qred_correct. lra.
  - apply nonneg_fadd; apply nonneg_fmul; auto; lra.
Qed.

Lemma ewm_out_nonneg (minp : nat) (st : ewm_state) :
  ewm_state_ok st -> nonneg (ewm_out minp st).
Proof.
  intros [Hw _]. destruct st as [[w o] n]; cbn [fst snd ewm_out] in *.
  destruct (minp <=? n)%nat; cbn [nonneg]; auto.
Qed.

Lemma ewm_loop_nonneg (alpha : Q) (minp : nat) (st : ewm_state) (vals : series) :
  0 < alpha -> alpha <= 1 ->
  ewm_state_ok st -> Forall nonneg vals ->
  Forall nonneg (ewm_loop alpha minp st vals).
Proof.
  intros Ha1 Ha2 Hst Hv. revert st Hst.
  induction Hv as [|x vals Hx Hv IH]; intros st Hst; simpl; constructor.
  - apply ewm_out_nonneg, ewm_step_ok; auto.
  - apply IH, ewm_step_ok; auto.
Qed.

Lemma ewm_nonneg (alpha : Q) (minp : nat) (vals : series) :
  0 < alpha -> alpha <= 1 ->
  Forall nonneg vals -> Forall nonneg (ewm alpha minp vals).
Proof.
  intros Ha1 Ha2 Hv. destruct Hv as [|x vals Hx Hv]; cbn [ewm];
    constructor.
  - apply ewm_out_nonneg. split; cbn [fst snd]; auto. lra.
  - apply ewm_loop_nonneg; auto. split; cbn [fst snd]; auto. lra.
Qed.

Lemma prep_values_nonneg {pd : Pandas} (vals : series) :
  Forall nonneg vals -> Forall nonneg (prep_values vals).
Proof.
  intros Hv. unfold prep_values, replace_inf.
  destruct window_drops_inf; [|assumption].
  apply Forall_map. revert Hv. apply Forall_impl. intros x Hx.
  destruct x; cbn [isinf nonneg] in *; auto.
Qed.

Lemma ewm_mean_nonneg {pd : Pandas} (alpha : Q) (minp : nat) (vals : series) :
  0 < alpha -> alpha <= 1 ->
  Forall nonneg vals -> Forall nonneg (ewm_mean alpha minp vals).
Proof.
  intros Ha1 Ha2 Hv. unfold ewm_mean.
  apply ewm_nonneg; auto using prep_values_nonneg.
Qed.

(** ** From the averages to the index *)

Lemma fdiv_nan_r (x : f64) : fdiv x NaN = NaN.
Proof. destruct x; reflexivity. Qed.

Lemma rs_nonneg (g l : f64) : nonneg g -> nonneg l -> nonneg (rs_of g l).
Proof.
  unfold rs_of. intros Hg Hl.
  destruct l as [| | |b]; cbn [feqb fzero nonneg] in *;
    try contradiction.
  - rewrite fdiv_nan_r. exact I.
  - destruct g; cbn [fdiv nonneg] in *; auto. lra.
  - destruct (Qeq_bool b 0) eqn:E.
    + rewrite fdiv_nan_r. exact I.
    + apply Qeq_bool_false in E. apply nonneg_fdiv_pos; auto.
      apply Qle_lt_or_eq in Hl. destruct Hl as [H|H]; auto.
      exfalso. apply E. symmetry. assumption.
Qed.

Lemma rsi_of_rs_range (r : f64) : nonneg r -> rsi_range (rsi_of_rs r).
Proof.
  intros Hr. destruct r as [| | |q]; cbn [nonneg] in *;
    try contradiction.
  - exact I.
  - vm_compute. split; discriminate.
  - assert (0 < 1 + q) as Hpos by lra.
    unfold rsi_of_rs, fone, fhundred. cbn [fadd fin fdiv].
    assert (Qeq_bool (Qred (1 + q)) 0 = false) as ->.
    { apply Qeq_bool_false. rewrite Qred_correct. lra. }
    cbn [fin fsub fneg fadd rsi_range].
    rewrite !Qred_correct.
    assert (0 < 100 / (1 + q)) as H1 by (apply Qlt_shift_div_l; lra).
    assert (100 / (1 + q) <= 100) as H2 by (apply Qle_shift_div_r; lra).
    lra.
Qed.

Lemma Forall_map2 {A B C : Type} (P : A -> Prop) (Q' : B -> Prop)
  (R : C -> Prop) (f : A -> B -> C) (a : list A) (b : list B) :
  (forall x y, P x -> Q' y -> R (f x y)) ->
  Forall P a -> Forall Q' b -> Forall R (map2 f a b).
Proof.
  intros Hf Ha. revert b. induction Ha as [|x a Hx Ha IH]; intros b Hb;
    simpl; [constructor|].
  destruct Hb as [|y b Hy Hb]; constructor; auto.
Qed.

Lemma rsi_values_eq {pd : Pandas} (close : series) (window : nat) :
  rsi_values close window
  = map rsi_of_rs
      (map2 rs_of (rsi_avg_gain close window) (rsi_avg_loss close window)).
Proof.
  unfold rsi_values, rs_of, replace_zero. f_equal.
  generalize (rsi_avg_gain close window) (rsi_avg_loss close window).
  induction s as [|x s IH]; intros [|y l]; simpl; auto.
  f_equal. apply IH.
Qed.

Lemma rsi_values_range {pd : Pandas} (close : series) (window : nat) :
  Forall rsi_range (rsi_values close window).
Proof.
  destruct (rsi_alpha_range window) as [Ha1 Ha2].
  rewrite rsi_values_eq. apply Forall_map.
  apply (Forall_map2 nonneg nonneg).
  - intros g l Hg Hl. apply rsi_of_rs_range, rs_nonneg; assumption.
  - apply ewm_mean_nonneg; auto. apply clip_lower0_nonneg.
  - apply ewm_mean_nonneg; auto. apply clip_lower0_nonneg.
Qed.

Local Close Scope Q_scope.

(** ** Warm-up *)

Lemma ewm_step_nobs alpha st cur :
  snd (ewm_step alpha st cur) = snd st + (if notna cur then 1 else 0).
Proof.
  destruct st as [[w o] n]. unfold ewm_step.
  destruct (notna w), (notna cur); simpl; lia.
Qed.

Lemma ewm_out_warmup minp st : snd st < minp -> ewm_out minp st = NaN.
Proof.
  destruct st as [[w o] n]; simpl. intros H.
  apply Nat.leb_gt in H. rewrite H. reflexivity.
Qed.

Lemma ewm_loop_warmup alpha minp st vals i :
  snd st + observations vals i < minp ->
  nth i (ewm_loop alpha minp st vals) NaN = NaN.
Proof.
  unfold observations. revert st i.
  induction vals as [|x vals IH]; intros st i H; simpl.
  - destruct i; reflexivity.
  - simpl in H. destruct i as [|i].
    + apply ewm_out_warmup. rewrite ewm_step_nobs.
      rewrite firstn_O in H. destruct (notna x); simpl in *; lia.
    + apply IH. rewrite ewm_step_nobs.
      destruct (notna x); simpl in *; lia.
Qed.

Lemma ewm_warmup alpha minp vals i :
  observations vals i < minp ->
  nth i (ewm alpha minp vals) NaN = NaN.
Proof.
  unfold observations. destruct vals as [|x vals]; simpl.
  - destruct i; reflexivity.
  - intros H. destruct i as [|i].
    + rewrite firstn_O in H.
      destruct (notna x); simpl in *; apply Nat.leb_gt in H; rewrite H;
        reflexivity.
    + apply ewm_loop_warmup. unfold observations.
      destruct (notna x); simpl in *; lia.
Qed.

Lemma filter_notna_replace_inf (s : series) :
  length (filter notna (replace_inf s)) <= length (filter notna s).
Proof.
  unfold replace_inf. induction s as [|x s IH]; simpl; auto.
  destruct x; simpl; lia.
Qed.

(** Dropping the infinities leaves no more observations. *)
Lemma observations_prep_values {pd : Pandas} (s : series) (i : nat) :
  observations (prep_values s) i <= observations s i.
Proof.
  unfold observations, prep_values. destruct window_drops_inf; auto.
  unfold replace_inf. rewrite firstn_map.
  apply filter_notna_replace_inf.
Qed.

Lemma ewm_mean_warmup {pd : Pandas} alpha minp vals i :
  observations vals i < minp ->
  nth i (ewm_mean alpha minp vals) NaN = NaN.
Proof.
  intros H. unfold ewm_mean. apply ewm_warmup.
  pose proof (observations_prep_values vals i). lia.
Qed.

Lemma nth_map2_default {A B C : Type} (f : A -> B -> C) (a : list A)
  (b : list B) (da : A) (db : B) (d : C) (i : nat) :
  length a = length b ->
  f da db = d ->
  nth i (map2 f a b) d = f (nth i a da) (nth i b db).
Proof.
  intros Hl Hd. revert b i Hl.
  induction a as [|x a IH]; intros [|y b] i Hl; simpl in *;
    try discriminate.
  - destruct i; auto.
  - destruct i; auto.
Qed.

Lemma rsi_avg_lengths {pd : Pandas} close window :
  length (rsi_avg_gain close window) = length (rsi_avg_loss close window).
Proof.
  unfold rsi_avg_gain, rsi_avg_loss, rsi_gain, rsi_loss, clip_lower0.
  rewrite !(proj1 (causal_ewm_mean _ _)), !length_map. reflexivity.
Qed.

Lemma nth_rsi_values {pd : Pandas} close window i :
  nth i (rsi_values close window) NaN
  = rsi_of_rs (rs_of (nth i (rsi_avg_gain close window) NaN)
                     (nth i (rsi_avg_loss close window) NaN)).
Proof.
  rewrite rsi_values_eq.
  change NaN with (rsi_of_rs NaN) at 1. rewrite map_nth. f_equal.
  apply nth_map2_default; auto using rsi_avg_lengths.
Qed.

(** C6.  Every value [_rsi] returns is undefined or a number between 0
    and 100; it is undefined at a row where the smoothed average loss is
    zero, and at a row up to which fewer than [window] price changes
    have been observed. *)
Theorem rsi_bounds {pd : Pandas} (close : series) (window : nat) (r : series)
  (i : nat) :
  _rsi close window = Ok r ->
  (nth i r NaN = NaN
   \/ exists q, nth i r NaN = Fin q /\ (0 <= q)%Q /\ (q <= 100)%Q)
  /\ (feqb (nth i (rsi_avg_loss close window) NaN) fzero = true ->
      nth i r NaN = NaN)
  /\ (observations (rsi_gain close) i < window -> nth i r NaN = NaN).
Proof.
  intros H. destruct window as [|w]; [discriminate|].
  injection H as <-. split; [|split].
  - pose proof (rsi_values_range close (S w)) as HF.
    assert (rsi_range (nth i (rsi_values close (S w)) NaN)) as Hr.
    { destruct (Nat.lt_ge_cases i (length (rsi_values close (S w)))) as [Hi|Hi].
      - rewrite Forall_forall in HF. apply HF, nth_In. assumption.
      - rewrite nth_overflow by assumption. exact I. }
    destruct (nth i (rsi_values close (S w)) NaN) as [| | |q]; simpl in Hr;
      auto; try contradiction.
    right. exists q. tauto.
  - intros Hz. rewrite nth_rsi_values. unfold rs_of. rewrite Hz.
    destruct (nth i (rsi_avg_gain close (S w)) NaN); reflexivity.
  - intros Ho. rewrite nth_rsi_values.
    unfold rsi_avg_gain at 1. rewrite ewm_mean_warmup by assumption.
    reflexivity.
Qed.

(* ================================================================== *)
(** * [_rsi] on monotone prices *)
(* ================================================================== *)

Local Open Scope Q_scope.

Lemma diff_from_deltas (p : f64) (s : series) :
  map2 fsub s (firstn (length s) (p :: s)) = deltas p s.
Proof.
  revert p; induction s as [|x s IH]; intros p; simpl; auto.
  f_equal. apply IH.
Qed.

Lemma diff_deltas (s : series) : diff s = deltas NaN s.
Proof. unfold diff, shift. apply diff_from_deltas. Qed.

Lemma gain_of_fall (p q : Q) : q < p -> clip0 (fsub (Fin q) (Fin p)) = fzero.
Proof.
  intros H. unfold clip0, fsub. cbn [fneg fadd fin flt fzero].
  assert (Qltb (Qred (q + Qred (- p))) 0 = true) as ->; auto.
  apply Qltb_lt. rewrite !Qred_correct. lra.
Qed.

Lemma loss_of_rise (p q : Q) :
  p < q -> clip0 (fneg (fsub (Fin q) (Fin p))) = fzero.
Proof.
  intros H. unfold clip0, fsub. cbn [fneg fadd fin flt fzero].
  assert (Qltb (Qred (- Qred (q + Qred (- p)))) 0 = true) as ->; auto.
  apply Qltb_lt. rewrite !Qred_correct. lra.
Qed.

Lemma loss_of_fall (p q : Q) :
  q < p -> exists c, 0 < c /\ clip0 (fneg (fsub (Fin q) (Fin p))) = Fin c.
Proof.
  intros H. unfold clip0, fsub. cbn [fneg fadd fin flt fzero].
  exists (Qred (- Qred (q + Qred (- p)))).
  assert (0 < Qred (- Qred (q + Qred (- p)))) as Hpos
      by (rewrite !Qred_correct; lra).
  split; auto.
  assert (Qltb (Qred (- Qred (q + Qred (- p)))) 0 = false) as ->; auto.
  apply Qltb_ge. lra.
Qed.

Lemma gains_of_falling (p : Q) (qs : list Q) :
  falling_from p qs = true ->
  map clip0 (deltas (Fin p) (map Fin qs)) = map (fun _ => fzero) qs.
Proof.
  revert p; induction qs as [|q qs IH]; intros p H;
    cbn [map deltas falling_from] in *; auto.
  apply andb_prop in H. destruct H as [H1 H2]. apply Qltb_lt in H1.
  rewrite gain_of_fall, IH by assumption. reflexivity.
Qed.

Lemma losses_of_rising (p : Q) (qs : list Q) :
  rising_from p qs = true ->
  map clip0 (map fneg (deltas (Fin p) (map Fin qs)))
  = map (fun _ => fzero) qs.
Proof.
  revert p; induction qs as [|q qs IH]; intros p H;
    cbn [map deltas rising_from] in *; auto.
  apply andb_prop in H. destruct H as [H1 H2]. apply Qltb_lt in H1.
  rewrite loss_of_rise, IH by assumption. reflexivity.
Qed.

Lemma losses_of_falling (p : Q) (qs : list Q) :
  falling_from p qs = true ->
  exists cs, length cs = length qs
             /\ Forall (fun c => 0 < c) cs
             /\ map clip0 (map fneg (deltas (Fin p) (map Fin qs)))
                = map Fin cs.
Proof.
  revert p; induction qs as [|q qs IH]; intros p H;
    cbn [map deltas falling_from] in *.
  - exists []. repeat split; auto.
  - apply andb_prop in H. destruct H as [H1 H2]. apply Qltb_lt in H1.
    destruct (loss_of_fall p q H1) as (c & Hc & Ec).
    destruct (IH q H2) as (cs & Hl & Hcs & Ecs).
    exists (c :: cs). cbn [map length]. repeat split; auto.
    rewrite Ec, Ecs. reflexivity.
Qed.

(** ** Averages of a series of zeros *)

Lemma ewm_loop_zero_or_nan alpha minp w o n vals :
  zero_or_nan w -> Forall zero_or_nan vals ->
  Forall zero_or_nan (ewm_loop alpha minp (w, o, n) vals).
Proof.
  intros Hw Hv. revert w o n Hw.
  induction Hv as [|x vals Hx Hv IH]; intros w o n Hw; simpl; constructor.
  - destruct Hw as [-> | ->], Hx as [-> | ->]; cbn;
      destruct (minp <=? _)%nat; unfold zero_or_nan; auto.
  - destruct Hw as [-> | ->], Hx as [-> | ->]; cbn; apply IH;
      unfold zero_or_nan; auto.
Qed.

Lemma ewm_zero_or_nan alpha minp vals :
  Forall zero_or_nan vals -> Forall zero_or_nan (ewm alpha minp vals).
Proof.
  intros Hv. destruct Hv as [|x vals Hx Hv]; simpl; constructor.
  - destruct Hx as [-> | ->]; cbn; destruct (minp <=? _)%nat;
      unfold zero_or_nan; auto.
  - apply ewm_loop_zero_or_nan; auto.
Qed.

Lemma ewm_loop_zeros {A : Type} alpha minp o n (l : list A) i :
  (i < length l)%nat ->
  nth i (ewm_loop alpha minp (fzero, o, n) (map (fun _ => fzero) l)) NaN
  = if (minp <=? n + S i)%nat then fzero else NaN.
Proof.
  revert o n i. induction l as [|x l IH]; intros o n i Hi; simpl in *;
    [lia|].
  destruct i as [|i].
  - cbn. replace (n + 1)%nat with (S n) by lia. reflexivity.
  - cbn. rewrite IH by lia. replace (S n + S i)%nat with (n + S (S i))%nat by lia.
    reflexivity.
Qed.

(** ** Averages of a series of positive numbers *)

Lemma ewm_step_positive alpha w o n c :
  0 < alpha -> alpha <= 1 -> 0 < w -> 0 <= o -> 0 < c ->
  exists w', 0 < w' /\ ewm_step alpha (Fin w, o, n) (Fin c) = (Fin w', 1, S n).
Proof.
  intros Ha1 Ha2 Hw Ho Hc. unfold ewm_step. cbn [notna isna negb feqb].
  destruct (Qeq_bool w c).
  - exists w. auto.
  - cbn [fmul fadd fdiv fin].
    assert (0 <= o * (1 - alpha)) as Ho1
        by (apply Qmult_le_0_compat; lra).
    assert (Qeq_bool (Qred (Qred (o * (1 - alpha)) + alpha)) 0 = false) as ->.
    { apply Qeq_bool_false. rewrite !Qred_correct. lra. }
    eexists. split; [|reflexivity].
    rewrite !Qred_correct. apply Qlt_shift_div_l; [lra|].
    rewrite Qmult_0_l.
    assert (0 <= o * (1 - alpha) * w) by (apply Qmult_le_0_compat; lra).
    assert (0 < alpha * c) by (apply Qmult_lt_0_compat; lra).
    lra.
Qed.

Lemma ewm_loop_positive alpha minp w o n cs i :
  0 < alpha -> alpha <= 1 -> 0 < w -> 0 <= o ->
  Forall (fun c => 0 < c) cs -> (i < length cs)%nat ->
  exists q, 0 < q
            /\ nth i (ewm_loop alpha minp (Fin w, o, n) (map Fin cs)) NaN
               = if (minp <=? n + S i)%nat then Fin q else NaN.
Proof.
  intros Ha1 Ha2 Hw Ho Hcs. revert w o n i Hw Ho.
  induction Hcs as [|c cs Hc Hcs IH]; intros w o n i Hw Ho Hi; simpl in Hi;
    [lia|].
  destruct (ewm_step_positive alpha w o n c Ha1 Ha2 Hw Ho Hc) as (w' & Hw' & E).
  cbn [map ewm_loop]. rewrite E. destruct i as [|i].
  - exists w'. split; auto. cbn [nth ewm_out].
    replace (n + 1)%nat with (S n) by lia. reflexivity.
  - cbn [nth]. destruct (IH w' 1 (S n) i Hw') as (q & Hq & Eq); [lra|lia|].
    exists q. split; auto. rewrite Eq.
    replace (S n + S i)%nat with (n + S (S i))%nat by lia. reflexivity.
Qed.

Local Close Scope Q_scope.

(** A series without infinities reaches the window routines as it is. *)
Lemma prep_values_finite {pd : Pandas} (s : series) :
  Forall (fun x => isinf x = false) s -> prep_values s = s.
Proof.
  intros H. unfold prep_values, replace_inf.
  destruct window_drops_inf; auto.
  induction H as [|x s Hx H IH]; simpl; auto.
  rewrite Hx, IH. reflexivity.
Qed.

Lemma zero_or_nan_finite (s : series) :
  Forall zero_or_nan s -> Forall (fun x => isinf x = false) s.
Proof.
  apply Forall_impl. intros x [-> | ->]; reflexivity.
Qed.

Lemma map_Fin_finite (cs : list Q) :
  Forall (fun x => isinf x = false) (map Fin cs).
Proof. apply Forall_map, Forall_forall. intros x _. reflexivity. Qed.

Lemma ewm_mean_zero_or_nan {pd : Pandas} alpha minp vals :
  Forall zero_or_nan vals -> Forall zero_or_nan (ewm_mean alpha minp vals).
Proof.
  intros H. unfold ewm_mean.
  rewrite prep_values_finite by (apply zero_or_nan_finite; exact H).
  apply ewm_zero_or_nan; exact H.
Qed.

Lemma rsi_gain_cons (q : Q) (qs : list Q) :
  rsi_gain (map Fin (q :: qs)) = NaN :: map clip0 (deltas (Fin q) (map Fin qs)).
Proof. unfold rsi_gain. rewrite diff_deltas. reflexivity. Qed.

Lemma rsi_loss_cons (q : Q) (qs : list Q) :
  rsi_loss (map Fin (q :: qs))
  = NaN :: map clip0 (map fneg (deltas (Fin q) (map Fin qs))).
Proof. unfold rsi_loss. rewrite diff_deltas. reflexivity. Qed.

Lemma Forall_zero_map {A : Type} (l : list A) :
  Forall zero_or_nan (map (fun _ => fzero) l).
Proof. apply Forall_map, Forall_forall. intros x _. right. reflexivity. Qed.

Lemma nth_zero_or_nan (l : series) (i : nat) :
  Forall zero_or_nan l -> zero_or_nan (nth i l NaN).
Proof.
  intros H. destruct (Nat.lt_ge_cases i (length l)) as [Hi|Hi].
  - rewrite Forall_forall in H. apply H, nth_In. assumption.
  - rewrite nth_overflow by assumption. left. reflexivity.
Qed.

(** C7, as amended.  On strictly rising prices the smoothed average loss
    is zero, so [_rsi] is undefined at every row; on strictly falling
    prices it is defined from row [window] on, where it is 0. *)
Theorem rsi_on_monotone_prices {pd : Pandas} (qs : list Q) (window : nat)
  (r : series) :
  _rsi (map Fin qs) window = Ok r ->
  (strictly_rising qs = true -> forall i, nth i r NaN = NaN)
  /\ (strictly_falling qs = true ->
      forall i, window <= i -> i < length qs -> nth i r NaN = Fin 0).
Proof.
  intros H. destruct window as [|w]; [discriminate|]. injection H as <-.
  destruct (rsi_alpha_range (S w)) as [Ha1 Ha2].
  split.
  - intros Hr i. rewrite nth_rsi_values.
    assert (zero_or_nan (nth i (rsi_avg_loss (map Fin qs) (S w)) NaN)) as Hz.
    { apply nth_zero_or_nan. unfold rsi_avg_loss.
      apply ewm_mean_zero_or_nan.
      destruct qs as [|q qs]; [constructor|].
      rewrite rsi_loss_cons. constructor; [left; reflexivity|].
      rewrite losses_of_rising by exact Hr. apply Forall_zero_map. }
    unfold rs_of. destruct Hz as [-> | ->]; cbn [feqb fzero];
      rewrite ?fdiv_nan_r; reflexivity.
  - intros Hf i Hwi Hi. rewrite nth_rsi_values.
    destruct qs as [|q qs]; [simpl in Hi; lia|]. simpl in Hi, Hf.
    destruct i as [|i]; [lia|].
    unfold rsi_avg_gain, rsi_avg_loss.
    rewrite rsi_gain_cons, rsi_loss_cons.
    rewrite gains_of_falling by exact Hf.
    destruct (losses_of_falling q qs Hf) as (cs & Hl & Hcs & ->).
    destruct qs as [|q1 qs]; [simpl in Hi; lia|].
    destruct cs as [|c cs]; [discriminate|].
    inversion Hcs as [|? ? Hc Hcs']; subst.
    simpl in Hi, Hl.
    unfold ewm_mean.
    rewrite (prep_values_finite (NaN :: map (fun _ => fzero) (q1 :: qs)))
      by (apply zero_or_nan_finite; constructor;
          [left; reflexivity | apply Forall_zero_map]).
    rewrite (prep_values_finite (NaN :: map Fin (c :: cs)))
      by (constructor; [reflexivity | apply map_Fin_finite]).
    cbn [map ewm notna isna negb nth ewm_loop].
    change (ewm_step (rsi_alpha (S w)) (NaN, 1%Q, 0) fzero)
      with (fzero, 1%Q, 1).
    change (ewm_step (rsi_alpha (S w)) (NaN, 1%Q, 0) (Fin c))
      with (Fin c, 1%Q, 1).
    destruct i as [|i].
    + cbn [nth ewm_out]. assert (w = 0) as -> by lia. cbn [Nat.leb].
      unfold rs_of. cbn [feqb fzero].
      assert (Qeq_bool c 0 = false) as E by (apply Qeq_bool_false; lra).
      rewrite E. cbn [fdiv fzero]. rewrite E. unfold fin.
      rewrite (Qred_zero (0 / c)) by (unfold Qdiv; ring).
      reflexivity.
    + cbn [nth].
      rewrite (ewm_loop_zeros _ _ _ _ qs i) by lia.
      destruct (ewm_loop_positive (rsi_alpha (S w)) (S w) c 1 1 cs i)
        as (x & Hx & ->); auto; try lra; try lia.
      assert ((S w <=? 1 + S i) = true) as -> by (apply Nat.leb_le; lia).
      unfold rs_of. cbn [feqb fzero].
      assert (Qeq_bool x 0 = false) as E by (apply Qeq_bool_false; lra).
      rewrite E. cbn [fdiv fzero]. rewrite E. unfold fin.
      rewrite (Qred_zero (0 / x)) by (unfold Qdiv; ring).
      reflexivity.
Qed.

(* ================================================================== *)
(** * [load_long_dataset]: the adjusted close *)
(* ================================================================== *)

Lemma getf_take_rows idx df name v :
  getf df name = Ok v -> getf (take_rows idx df) name = Ok (take NaN idx v).
Proof.
  unfold getf, take_rows; simpl. rewrite find_col_map.
  destruct (find_col name (columns df)) as [[v0|v0|v0]|]; simpl;
    try discriminate; intros H; injection H as <-; auto.
  f_equal. unfold take. rewrite map_map. apply map_ext. intros i.
  symmetry.
  exact (map_nth (fun x : option Z =>
                    match x with Some z => Fin (inject_Z z) | None => NaN end)
           v0 None i).
Qed.

Lemma map2_map_same {A B C D : Type} (f : B -> C -> D) (g : A -> B)
  (h : A -> C) (l : list A) :
  map2 f (map g l) (map h l) = map (fun x => f (g x) (h x)) l.
Proof. induction l; simpl; congruence. Qed.

Lemma nth_map_nan (f : f64 -> f64) (l : series) (i : nat) :
  f NaN = NaN -> nth i (map f l) NaN = f (nth i l NaN).
Proof.
  intros E. transitivity (nth i (map f l) (f NaN)).
  - rewrite E. reflexivity.
  - apply map_nth.
Qed.

Lemma take_adjusted_close idx (A C : series) :
  length A = length C ->
  take NaN idx
    (map (fun x => if fle x fzero then NaN else x)
       (map2 (fun a c => if notna a then a else c) A C))
  = map2 adjusted_close_of (take NaN idx A) (take NaN idx C).
Proof.
  intros Hl. unfold take. rewrite map2_map_same. apply map_ext. intros i.
  rewrite nth_map_nan by reflexivity.
  rewrite (nth_map2_default _ A C NaN NaN NaN i Hl eq_refl).
  reflexivity.
Qed.

Lemma find_col_coerced (g : string * list raw -> column)
  (p : string * list raw -> bool) (csv : RawFrame) name c :
  find_col name (map (fun nc => (fst nc, g nc)) (filter p csv)) = Some c ->
  exists v, In (name, v) csv /\ c = g (name, v).
Proof.
  induction csv as [|[n v] csv IH]; simpl; [discriminate|].
  destruct (p (n, v)); simpl.
  - destruct (String.eqb name n) eqn:E.
    + apply String.eqb_eq in E. subst n. intros H. injection H as <-.
      exists v. auto.
    + intros H. destruct (IH H) as (v' & Hin & Hc). eauto.
  - intros H. destruct (IH H) as (v' & Hin & Hc). eauto.
Qed.

Section Normalizer.

Context {pd : Pandas}.

(** C5, as amended.  The loader takes the source adjusted close when it
    is present, whatever its sign, and [close] otherwise; a non-positive
    result is then made undefined. *)
Theorem load_long_dataset_adjusted_close (csv : RawFrame) (out : DataFrame) :
  wf_raw csv = true ->
  load_long_dataset csv = Ok out ->
  (exists adjusted close,
      getf out "adjustedClose" = Ok adjusted
      /\ getf out "close" = Ok close
      /\ getf out "adj_close" = Ok (map2 adjusted_close_of adjusted close))
  /\ (forall q close, (q <= 0)%Q -> adjusted_close_of (Fin q) close = NaN).
Proof.
  intros Hwf H. split.
  2:{ intros q c Hq. unfold adjusted_close_of. cbn [notna isna negb fle fzero].
      apply Qle_bool_iff in Hq. rewrite Hq. reflexivity. }
  unfold load_long_dataset in H.
  destruct (filter _ required_columns) as [|m ms]; [|discriminate].
  cbv zeta in H.
  match type of H with
  | bind (getf ?d _) _ = _ => set (df0 := d) in *
  end.
  read_column H A EA. read_column H C EC.
  rewrite getf_assign_same in H. cbn [bind] in H.
  injection H as <-.
  assert (length A = length C) as Hl.
  { unfold getf in EA, EC.
    destruct (find_col "adjustedClose" (columns df0)) as [ca|] eqn:FA;
      [|discriminate].
    destruct (find_col "close" (columns df0)) as [cc|] eqn:FC;
      [|discriminate].
    unfold df0 in FA, FC. cbn [columns] in FA, FC.
    apply find_col_coerced in FA, FC.
    destruct FA as (va & Ina & ->). destruct FC as (vc & Inc & ->).
    cbn [fst snd mem_string num_cols existsb String.eqb Ascii.eqb Bool.eqb orb]
      in EA, EC.
    injection EA as <-. injection EC as <-.
    rewrite !length_map.
    apply in_map_iff in Ina, Inc.
    destruct Ina as ([n1 v1] & E1 & In1). destruct Inc as ([n2 v2] & E2 & In2).
    cbn [fst snd] in E1, E2. injection E1 as -> <-. injection E2 as -> <-.
    unfold wf_raw in Hwf. rewrite forallb_forall in Hwf.
    apply Hwf, Nat.eqb_eq in In1. apply Hwf, Nat.eqb_eq in In2.
    cbn [snd] in In1, In2.
    apply select_length_eq. congruence. }
  exists (take NaN
            (sorted_positions ticker_date_leb
               (ticker_date_key
                  {| ticker := map (fun t => upper (strip t)) (ticker df0);
                     date := date df0;
                     columns :=
                       set_col "adj_close"
                         (ColF (map (fun x => if fle x fzero then NaN else x)
                                  (map2 (fun a c => if notna a then a else c)
                                     A C)))
                         (set_col "adj_close"
                            (ColF (map2 (fun a c => if notna a then a else c)
                                     A C))
                            (columns df0)) |})
               (length (map (fun t => upper (strip t)) (ticker df0))))
            A).
  eexists. split; [|split].
  - apply getf_take_rows. unfold getf. cbn [columns assign].
    rewrite !find_col_set_other by reflexivity. exact EA.
  - apply getf_take_rows. unfold getf. cbn [columns assign].
    rewrite !find_col_set_other by reflexivity. exact EC.
  - rewrite <- take_adjusted_close by assumption.
    apply getf_take_rows. unfold getf. cbn [columns assign].
    rewrite find_col_set_same. reflexivity.
Qed.

End Normalizer.

(* ================================================================== *)
(** * The order the loader leaves the table in *)
(* ================================================================== *)

Lemma wf_take_rows idx df : wf_frame (take_rows idx df) = true.
Proof.
  apply wf_frame_iff. unfold take_rows, nrows, take; simpl.
  rewrite !length_map. split; auto.
  apply Forall_map, Forall_forall. intros [n c] _. simpl.
  destruct c; simpl; apply length_map.
Qed.

Lemma string_ltb_irrefl s : String.ltb s s = false.
Proof. unfold String.ltb. rewrite string_compare_refl. reflexivity. Qed.

Lemma string_ltb_trans s1 s2 s3 :
  String.ltb s1 s2 = true -> String.ltb s2 s3 = true ->
  String.ltb s1 s3 = true.
Proof.
  unfold String.ltb.
  destruct (String.compare s1 s2) eqn:E12; try discriminate.
  destruct (String.compare s2 s3) eqn:E23; try discriminate.
  rewrite (string_compare_lt_trans _ _ _ E12 E23). reflexivity.
Qed.

Lemma string_ltb_total s1 s2 :
  String.ltb s1 s2 = true \/ s1 = s2 \/ String.ltb s2 s1 = true.
Proof.
  unfold String.ltb. rewrite (String.compare_antisym s2 s1).
  destruct (String.compare s1 s2) eqn:E; simpl; auto.
  apply String.compare_eq_iff in E. auto.
Qed.

Lemma ticker_date_leb_total a b :
  ticker_date_leb a b = true \/ ticker_date_leb b a = true.
Proof.
  unfold ticker_date_leb. destruct a as [t1 d1], b as [t2 d2]; simpl.
  destruct (string_ltb_total t1 t2) as [H|[H|H]].
  - left. rewrite H. reflexivity.
  - subst t2. rewrite string_ltb_irrefl, String.eqb_refl. simpl.
    destruct (Z.le_ge_cases d1 d2) as [L|L]; apply Z.leb_le in L; auto.
  - right. rewrite H. reflexivity.
Qed.

Lemma ticker_date_leb_trans a b c :
  ticker_date_leb a b = true -> ticker_date_leb b c = true ->
  ticker_date_leb a c = true.
Proof.
  unfold ticker_date_leb. destruct a as [t1 d1], b as [t2 d2], c as [t3 d3].
  simpl. rewrite !orb_true_iff, !andb_true_iff, !String.eqb_eq, !Z.leb_le.
  intros [H1|[H1 L1]] [H2|[H2 L2]]; subst; auto.
  - left. eapply string_ltb_trans; eauto.
  - right. split; [reflexivity|lia].
Qed.

Lemma combine_map_pair {A B C : Type} (f : A -> B) (g : A -> C) (l : list A) :
  combine (map f l) (map g l) = map (fun x => (f x, g x)) l.
Proof. induction l; simpl; congruence. Qed.

Lemma dates_ascending_sorted (key : nat -> string * Z) (idx : list nat) :
  StronglySorted (fun i j => ticker_date_leb (key i) (key j) = true) idx ->
  dates_ascending (map (fun i => fst (key i)) idx)
    (map (fun i => snd (key i)) idx) = true.
Proof.
  intros H. induction H as [|i idx Hs IH Hall]; simpl; auto.
  rewrite IH, andb_true_r, combine_map_pair.
  apply forallb_forall. intros kd Hin. apply in_map_iff in Hin.
  destruct Hin as (j & <- & Hj). simpl.
  rewrite Forall_forall in Hall. specialize (Hall j Hj).
  unfold ticker_date_leb in Hall.
  destruct (String.eqb (fst (key j)) (fst (key i))) eqn:E; simpl; auto.
  apply String.eqb_eq in E. rewrite E in Hall.
  rewrite string_ltb_irrefl, String.eqb_refl in Hall. exact Hall.
Qed.

Lemma take_rows_sorted_ascending df n :
  dates_ascending
    (ticker (take_rows
               (sorted_positions ticker_date_leb (ticker_date_key df) n) df))
    (date (take_rows
             (sorted_positions ticker_date_leb (ticker_date_key df) n) df))
  = true.
Proof.
  unfold take_rows, take; cbn [ticker date].
  apply (dates_ascending_sorted (ticker_date_key df)).
  apply Sorted_StronglySorted.
  - intros x y z. apply ticker_date_leb_trans.
  - apply (isort_sorted
             (fun i j => ticker_date_leb (ticker_date_key df i)
                           (ticker_date_key df j))).
    intros x y. apply ticker_date_leb_total.
Qed.

Lemma forallb_select {A : Type} (p : A -> bool) (m : list bool) (l : list A) :
  forallb p l = true -> forallb p (select m l) = true.
Proof.
  revert l; induction m as [|b m IH]; intros [|x l] H; simpl in *; auto.
  apply andb_prop in H. destruct H as [H1 H2].
  destruct b; simpl; rewrite ?H1; simpl; auto.
Qed.

Lemma combine_select {A B : Type} (m : list bool) (a : list A) (b : list B) :
  combine (select m a) (select m b) = select m (combine a b).
Proof.
  revert a b; induction m as [|c m IH]; intros [|x a] [|y b]; simpl; auto.
  - destruct c; auto. destruct (select m a); reflexivity.
  - destruct c; simpl; rewrite IH; reflexivity.
Qed.

Lemma dates_ascending_select m keys dates :
  dates_ascending keys dates = true ->
  dates_ascending (select m keys) (select m dates) = true.
Proof.
  revert keys dates; induction m as [|b m IH]; intros [|k keys] [|d dates] H;
    simpl in *; auto.
  - destruct b; auto. destruct (select m keys); reflexivity.
  - apply andb_prop in H. destruct H as [H1 H2].
    destruct b; simpl; auto.
    rewrite IH, andb_true_r by assumption.
    rewrite combine_select. apply forallb_select. assumption.
Qed.

Section LoaderOrder.

Context {pd : Pandas}.

(** The table the loader returns is well formed, and within every ticker
    its dates ascend along the rows: what the feature stage relies on. *)
Lemma load_long_dataset_sorted (csv : RawFrame) (out : DataFrame) :
  load_long_dataset csv = Ok out ->
  wf_frame out = true /\ dates_ascending (ticker out) (date out) = true.
Proof.
  intros H. unfold load_long_dataset in H.
  destruct (filter _ required_columns) as [|m ms]; [|discriminate].
  cbv zeta in H.
  read_column H A EA. read_column H C EC.
  rewrite getf_assign_same in H. cbn [bind] in H.
  injection H as <-. split.
  - apply wf_take_rows.
  - apply take_rows_sorted_ascending.
Qed.

End LoaderOrder.

(** Dropping the short tickers keeps both. *)
Lemma filter_min_history_sorted (df : DataFrame) (n : nat) :
  wf_frame df = true ->
  dates_ascending (ticker df) (date df) = true ->
  wf_frame (filter_min_history df n) = true
  /\ dates_ascending (ticker (filter_min_history df n))
       (date (filter_min_history df n)) = true.
Proof.
  intros Hwf Hs. unfold filter_min_history. split.
  - apply wf_select_rows. assumption.
  - unfold select_rows; cbn [ticker date].
    apply dates_ascending_select. assumption.
Qed.

(* ================================================================== *)
(** * The labels *)
(* ================================================================== *)

Lemma add_target_labels h fr tg df out :
  String.eqb fr tg = false ->
  add_target h fr tg df = Ok out ->
  exists future,
    getf out fr = Ok future
    /\ find_col tg (columns out) = Some (ColI (map positive_flag future)).
Proof.
  intros Hne H. unfold add_target in H.
  read_column H v1 E1. rewrite getf_assign_same in H. cbn [bind] in H.
  injection H as <-. eexists. split.
  - rewrite getf_assign_other by assumption. apply getf_assign_same.
  - unfold assign; cbn [columns]. apply find_col_set_same.
Qed.

(** Whatever the table, a target cell is 1 where the future return is
    positive and 0 everywhere else, also where the future return is
    undefined: it is never undefined itself. *)
Lemma add_targets_weekly_labels df cfg which out :
  which <> monthly ->
  add_targets df cfg which = Ok out ->
  exists future,
    getf out "future_ret_w" = Ok future
    /\ find_col "target_w" (columns out)
       = Some (ColI (map positive_flag future)).
Proof.
  intros Hw H. unfold add_targets in H.
  destruct which; try congruence.
  - destruct (add_target _ _ _ df) as [o1|] eqn:E1; cbn [bind] in H;
      [|discriminate].
    injection H as <-.
    apply (add_target_labels _ "future_ret_w" "target_w" _ _ eq_refl E1).
  - destruct (add_target _ _ _ df) as [o1|] eqn:E1; cbn [bind] in H;
      [|discriminate].
    destruct (add_target _ _ _ o1) as [o2|] eqn:E2; cbn [bind] in H;
      [|discriminate].
    injection H as <-.
    destruct (add_target_labels _ "future_ret_w" "target_w" _ _ eq_refl E1)
      as (future & F1 & F2).
    destruct (add_target_writes _ _ _ _ _ E2) as (_ & _ & Hk & _).
    exists future. split.
    + unfold getf in *. rewrite Hk; auto.
      simpl. intros [H|[H|[]]]; discriminate H.
    + rewrite Hk; auto.
      simpl. intros [H|[H|[]]]; discriminate H.
Qed.

(** C1, on the code.  For a ticker with seven rows and the weekly horizon
    of five rows, the last five rows have no future return; their weekly
    target is 0, not undefined (and with the monthly horizon of 21 rows,
    every monthly target is 0). *)
Theorem add_targets_labels_missing_future_zero :
  exists out,
    add_targets labels_table default_config both = Ok out
    /\ getf out "future_ret_w"
       = Ok [Fin (1 # 2); Fin (5 # 11); NaN; NaN; NaN; NaN; NaN]
    /\ find_col "target_w" (columns out)
       = Some (ColI [Some 1; Some 1; Some 0; Some 0; Some 0; Some 0; Some 0]%Z)
    /\ getf out "future_ret_m" = Ok (repeat NaN 7)
    /\ find_col "target_m" (columns out) = Some (ColI (repeat (Some 0%Z) 7)).
Proof.
  eexists. split; [vm_compute; reflexivity|].
  repeat split; reflexivity.
Qed.

(* ================================================================== *)
(** * Infinite values *)
(* ================================================================== *)

(** C4, on the code.  Whatever the library, a bar with a positive high and
    a zero low gets an infinite [hl_range], and a bar with a positive
    close and a zero open an infinite [oc_change]: only the momentum
    columns are cleaned of infinities
    ([build_features_momentum_finite]). *)
Theorem build_features_keeps_infinite_range (pd : Pandas) :
  exists out,
    build_features zero_low_table default_config = Ok out
    /\ getf out "hl_range" = Ok [PInf]
    /\ getf out "oc_change" = Ok [PInf].
Proof.
  destruct pd as [lg sq num dt str [|] [|]];
    (eexists; split; [vm_compute; reflexivity|]; split; reflexivity).
Qed.

(* ================================================================== *)
(** * The loader *)
(* ================================================================== *)

(** C8, on the code.  The rows are dropped before the prices are made
    numeric: a line whose [close] is a text that is no number is kept,
    and its [close] is undefined in the output. *)
Theorem load_long_dataset_keeps_unparsed_close :
  exists out,
    @load_long_dataset toy_pandas sample_csv = Ok out
    /\ ticker out = ["PETR4"; "PETR4"; "PETR4"]%string
    /\ map Some (date out)
       = map parse_iso_date ["2024-01-02"; "2024-01-03"; "2024-01-04"]%string
    /\ getf out "close" = Ok [NaN; Fin 5; Fin 11].
Proof.
  eexists. split; [vm_compute; reflexivity|].
  repeat split; reflexivity.
Qed.

(** C5 fails as stated: a source adjusted close of -1 beside a close of 5
    gives an undefined adjusted close, where the rule of the
    specification gives 5. *)
Lemma load_long_dataset_negative_adjusted_close :
  getf sample_loaded "adjustedClose" = Ok [Fin 11; Fin (-1); NaN]
  /\ getf sample_loaded "close" = Ok [NaN; Fin 5; Fin 11]
  /\ getf sample_loaded "adj_close" = Ok [Fin 11; NaN; Fin 11]
  /\ map2 spec_adjusted_close [Fin 11; Fin (-1); NaN] [NaN; Fin 5; Fin 11]
     = [Fin 11; Fin 5; Fin 11].
Proof. repeat split; reflexivity. Qed.

Lemma load_long_dataset_adjusted_close_witness :
  (exists adjusted close,
      getf sample_loaded "adjustedClose" = Ok adjusted
      /\ getf sample_loaded "close" = Ok close
      /\ getf sample_loaded "adj_close"
         = Ok (map2 adjusted_close_of adjusted close))
  /\ (forall q close, (q <= 0)%Q -> adjusted_close_of (Fin q) close = NaN).
Proof.
  apply (@load_long_dataset_adjusted_close toy_pandas sample_csv sample_loaded);
    reflexivity.
Defined.

(* ================================================================== *)
(** * The oscillator on sample prices *)
(* ================================================================== *)

(** C7 fails as stated: on twenty prices rising by one percent a row,
    [_rsi] with the window 14 is undefined at every row. *)
Lemma rsi_undefined_on_rising_prices :
  strictly_rising rising_prices = true
  /\ @_rsi toy_pandas (map Fin rising_prices) 14 = Ok (repeat NaN 20).
Proof. split; vm_compute; reflexivity. Qed.

Lemma rsi_on_monotone_prices_witness :
  (strictly_rising falling_prices = true ->
   forall i, nth i (@rsi_values toy_pandas (map Fin falling_prices) 14) NaN = NaN)
  /\ (strictly_falling falling_prices = true ->
      forall i, 14 <= i -> i < length falling_prices ->
                nth i (@rsi_values toy_pandas (map Fin falling_prices) 14) NaN = Fin 0).
Proof.
  apply (@rsi_on_monotone_prices toy_pandas falling_prices 14
           (@rsi_values toy_pandas (map Fin falling_prices) 14)).
  reflexivity.
Defined.

Lemma rsi_bounds_witness :
  (nth 3 (@rsi_values toy_pandas zigzag_prices 3) NaN = NaN
   \/ exists q, nth 3 (@rsi_values toy_pandas zigzag_prices 3) NaN = Fin q
                /\ (0 <= q)%Q /\ (q <= 100)%Q)
  /\ (feqb (nth 3 (@rsi_avg_loss toy_pandas zigzag_prices 3) NaN) fzero = true ->
      nth 3 (@rsi_values toy_pandas zigzag_prices 3) NaN = NaN)
  /\ (observations (rsi_gain zigzag_prices) 3 < 3 ->
      nth 3 (@rsi_values toy_pandas zigzag_prices 3) NaN = NaN).
Proof.
  apply (@rsi_bounds toy_pandas zigzag_prices 3 (@rsi_values toy_pandas zigzag_prices 3) 3).
  reflexivity.
Defined.

(* ================================================================== *)
(** * Overwritten columns *)
(* ================================================================== *)

(** C10 fails as stated: a column of the input called [hl_range] is
    overwritten by the feature stage. *)
Lemma build_features_overwrites_column :
  exists out,
    @build_features toy_pandas relabelled_table default_config = Ok out
    /\ find_col "hl_range" (columns relabelled_table) = Some (ColF [Fin 7])
    /\ find_col "hl_range" (columns out) = Some (ColF [PInf]).
Proof.
  eexists. split; [vm_compute; reflexivity|].
  split; reflexivity.
Qed.

Lemma finalize_dataset_spec_witness :
  exists out,
    finalize_dataset final_table default_config = Ok out
    /\ Permutation (rows out)
         (filter (row_complete (must_have default_config)) (rows final_table))
    /\ map (fun r => (r_date r, r_ticker r)) (rows out)
       = [(1%Z, "VALE3"%string); (2%Z, "PETR4"%string); (2%Z, "VALE3"%string)].
Proof.
  destruct (finalize_dataset_spec final_table default_config eq_refl)
    as (_ & _ & H).
  eexists. split; [reflexivity|]. split.
  - apply H. reflexivity.
  - reflexivity.
Defined.

(* ================================================================== *)
(** * The loader: when it returns, and what its table guarantees *)
(* ================================================================== *)

Section LoaderFacts.

Context {pd : Pandas}.

Lemma find_col_of_raw (g : string * list raw -> column)
  (h : list raw -> list raw) (p : string -> bool) (csv : RawFrame) name v :
  raw_find name csv = Some v -> p name = true ->
  find_col name
    (map (fun nc => (fst nc, g nc))
       (filter (fun nc => p (fst nc))
          (map (fun nc => (fst nc, h (snd nc))) csv)))
  = Some (g (name, h v)).
Proof.
  intros Hf Hp. induction csv as [|[n v0] csv IH]; simpl in *; [discriminate|].
  destruct (String.eqb name n) eqn:E.
  - apply String.eqb_eq in E. subst n. injection Hf as ->.
    rewrite Hp. simpl. rewrite String.eqb_refl. reflexivity.
  - destruct (p n); simpl; rewrite ?E; auto.
Qed.

Lemma required_present (csv : RawFrame) :
  filter (fun c => negb (is_some (raw_find c csv))) required_columns = [] ->
  forall c, In c required_columns -> exists v, raw_find c csv = Some v.
Proof.
  intros F c Hc.
  destruct (raw_find c csv) as [v|] eqn:E; [eauto|].
  assert (In c (filter (fun c => negb (is_some (raw_find c csv)))
                  required_columns)) as Hin.
  { apply filter_In. split; auto. rewrite E. reflexivity. }
  rewrite F in Hin. destruct Hin.
Qed.

(** With its eight columns present the loader goes through. *)
Lemma load_long_dataset_total (csv : RawFrame) :
  (forall c, In c required_columns -> exists v, raw_find c csv = Some v) ->
  exists out, load_long_dataset csv = Ok out.
Proof.
  intros Hreq. unfold load_long_dataset.
  destruct (filter _ required_columns) as [|m ms] eqn:F.
  - cbv zeta.
    destruct (Hreq "adjustedClose"%string) as [va Ea]; [simpl; tauto|].
    destruct (Hreq "close"%string) as [vc Ec]; [simpl; tauto|].
    unfold getf at 1. cbn [columns].
    rewrite (find_col_of_raw _ _
               (fun n => negb (mem_string n ["date"; "ticker"]%string))
               csv "adjustedClose" va Ea eq_refl).
    cbn [fst snd mem_string num_cols existsb String.eqb Ascii.eqb Bool.eqb orb
         bind].
    unfold getf at 1. cbn [columns].
    rewrite (find_col_of_raw _ _
               (fun n => negb (mem_string n ["date"; "ticker"]%string))
               csv "close" vc Ec eq_refl).
    cbn [fst snd mem_string num_cols existsb String.eqb Ascii.eqb Bool.eqb orb
         bind].
    rewrite getf_assign_same. cbn [bind]. eauto.
  - assert (In m (filter (fun c => negb (is_some (raw_find c csv)))
                    required_columns)) as Hin by (rewrite F; left; reflexivity).
    apply filter_In in Hin. destruct Hin as [Hm Hn].
    destruct (Hreq m Hm) as [v Ev]. rewrite Ev in Hn. discriminate.
Qed.

(** X1.  [load_long_dataset] returns a table exactly when the file has
    the eight required columns; otherwise, and only then, it raises, and
    what it raises is a [ValueError]. *)
Theorem load_long_dataset_returns (csv : RawFrame) :
  ((exists out, load_long_dataset csv = Ok out)
   <-> (forall c, In c required_columns -> raw_find c csv <> None))
  /\ (forall e, load_long_dataset csv = Raise e ->
        (exists msg, e = ValueError msg)
        /\ exists c, In c required_columns /\ raw_find c csv = None).
Proof.
  split; [split|].
  - intros [out H] c Hc Hn. unfold load_long_dataset in H.
    destruct (filter _ required_columns) as [|m ms] eqn:F; [|discriminate].
    destruct (required_present csv F c Hc) as [v Ev]. congruence.
  - intros Hreq. apply load_long_dataset_total. intros c Hc.
    destruct (raw_find c csv) as [v|] eqn:E; [eauto|].
    destruct (Hreq c Hc E).
  - intros e H.
    destruct (filter (fun c => negb (is_some (raw_find c csv)))
                required_columns) as [|m ms] eqn:F.
    + destruct (load_long_dataset_total csv (required_present csv F))
        as [out Ho]. congruence.
    + split.
      * unfold load_long_dataset in H. rewrite F in H.
        injection H as <-. unfold missing_columns_error. eauto.
      * exists m.
        assert (In m (filter (fun c => negb (is_some (raw_find c csv)))
                        required_columns)) as Hin
            by (rewrite F; left; reflexivity).
        apply filter_In in Hin. destruct Hin as [Hm Hn]. split; auto.
        destruct (raw_find m csv); [discriminate|reflexivity].
Qed.

Lemma Forall_take {A : Type} (P : A -> Prop) (d : A) idx (l : list A) :
  P d -> Forall P l -> Forall P (take d idx l).
Proof.
  intros Hd Hl. unfold take. apply Forall_map, Forall_forall. intros i _.
  destruct (Nat.lt_ge_cases i (length l)) as [Hi|Hi].
  - rewrite Forall_forall in Hl. apply Hl, nth_In. assumption.
  - rewrite nth_overflow by assumption. assumption.
Qed.

(** X2.  In the table the loader returns, [adj_close] is undefined or
    strictly positive at every row: the prices the returns, logarithms
    and ratios are computed from are never zero or negative. *)
Theorem load_long_dataset_adj_close_positive (csv : RawFrame)
  (out : DataFrame) :
  load_long_dataset csv = Ok out ->
  exists adj,
    getf out "adj_close" = Ok adj
    /\ Forall (fun x => x = NaN \/ fgt x fzero = true) adj.
Proof.
  intros H. unfold load_long_dataset in H.
  destruct (filter _ required_columns) as [|m ms]; [|discriminate].
  cbv zeta in H.
  read_column H A EA. read_column H C EC.
  rewrite getf_assign_same in H. cbn [bind] in H.
  injection H as <-. eexists. split.
  - apply getf_take_rows. unfold getf. cbn [columns assign].
    rewrite find_col_set_same. reflexivity.
  - apply Forall_take; [left; reflexivity|].
    apply Forall_map, Forall_forall. intros x _.
    destruct x as [| | |q]; cbn [fle fzero fgt flt]; auto.
    destruct (Qle_bool q 0) eqn:E; [left; reflexivity|right].
    unfold Qltb. rewrite E. reflexivity.
Qed.

Lemma StronglySorted_map {A B : Type} (f : A -> B) (R : B -> B -> Prop)
  (l : list A) :
  StronglySorted (fun x y => R (f x) (f y)) l -> StronglySorted R (map f l).
Proof.
  intros S. induction S as [|x l Hl IH Hx]; simpl; constructor; auto.
  apply Forall_map. exact Hx.
Qed.

(** X3.  The table the loader returns has one value per row in every
    column, and its rows are in ascending order of (ticker, date). *)
Theorem load_long_dataset_order (csv : RawFrame) (out : DataFrame) :
  load_long_dataset csv = Ok out ->
  wf_frame out = true
  /\ StronglySorted (fun a b => ticker_date_leb a b = true)
       (combine (ticker out) (date out)).
Proof.
  intros H. unfold load_long_dataset in H.
  destruct (filter _ required_columns) as [|m ms]; [|discriminate].
  cbv zeta in H.
  read_column H A EA. read_column H C EC.
  rewrite getf_assign_same in H. cbn [bind] in H.
  injection H as <-. split; [apply wf_take_rows|].
  unfold take_rows, take; cbn [ticker date].
  rewrite combine_map_pair.
  match goal with
  | |- StronglySorted _
         (map _ (sorted_positions _ (ticker_date_key ?d) ?n)) =>
      apply (StronglySorted_map (ticker_date_key d)
               (fun a b => ticker_date_leb a b = true))
  end.
  apply Sorted_StronglySorted.
  - intros x y z. apply ticker_date_leb_trans.
  - match goal with
    | |- Sorted _ (sorted_positions _ (ticker_date_key ?d) _) =>
        apply (isort_sorted
                 (fun i j => ticker_date_leb (ticker_date_key d i)
                               (ticker_date_key d j)))
    end.
    intros x y. apply ticker_date_leb_total.
Qed.

End LoaderFacts.

Lemma load_long_dataset_adj_close_positive_witness :
  exists adj,
    getf sample_loaded "adj_close" = Ok adj
    /\ Forall (fun x => x = NaN \/ fgt x fzero = true) adj.
Proof.
  apply (@load_long_dataset_adj_close_positive toy_pandas sample_csv).
  reflexivity.
Defined.

Lemma load_long_dataset_order_witness :
  wf_frame sample_loaded = true
  /\ StronglySorted (fun a b => ticker_date_leb a b = true)
       (combine (ticker sample_loaded) (date sample_loaded)).
Proof.
  apply (@load_long_dataset_order toy_pandas sample_csv). reflexivity.
Defined.

(* ================================================================== *)
(** * [filter_min_history] *)
(* ================================================================== *)

Lemma count_occ_filter (p : string -> bool) (l : list string) (k : string) :
  count_occ string_dec (filter p l) k
  = if p k then count_occ string_dec l k else 0.
Proof.
  induction l as [|x l IH]; simpl; [destruct (p k); reflexivity|].
  destruct (p x) eqn:Px; simpl; destruct (string_dec x k) as [->|Hne];
    rewrite IH; try rewrite Px; reflexivity.
Qed.

(** The tickers of the rows that stay. *)
Lemma filter_min_history_ticker (df : DataFrame) (n : nat) :
  ticker (filter_min_history df n)
  = filter (fun k => n <=? count_occ string_dec (ticker df) k) (ticker df).
Proof.
  unfold filter_min_history, select_rows; cbn [ticker].
  rewrite map_map. apply select_filter.
Qed.

Lemma filter_min_history_count (df : DataFrame) (n : nat) (k : string) :
  count_occ string_dec (ticker (filter_min_history df n)) k
  = if n <=? count_occ string_dec (ticker df) k
    then count_occ string_dec (ticker df) k else 0.
Proof. rewrite filter_min_history_ticker. apply count_occ_filter. Qed.

Lemma filter_min_history_enough (df : DataFrame) (n : nat) (k : string) :
  In k (ticker (filter_min_history df n)) ->
  n <= count_occ string_dec (ticker (filter_min_history df n)) k.
Proof.
  intros Hk. rewrite filter_min_history_count.
  rewrite filter_min_history_ticker in Hk. apply filter_In in Hk.
  destruct Hk as [_ Hk]. rewrite Hk. apply Nat.leb_le. exact Hk.
Qed.

(** X4.  [filter_min_history] keeps a ticker whole or drops it whole: a
    ticker with at least [min_history] rows keeps all of them, any other
    ticker loses all of them; so every ticker of the result has at least
    [min_history] rows there. *)
Theorem filter_min_history_whole_tickers (df : DataFrame) (n : nat) :
  (forall k,
      count_occ string_dec (ticker (filter_min_history df n)) k
      = if n <=? count_occ string_dec (ticker df) k
        then count_occ string_dec (ticker df) k else 0)
  /\ (forall k, In k (ticker (filter_min_history df n)) ->
        n <= count_occ string_dec (ticker (filter_min_history df n)) k).
Proof.
  split; [apply filter_min_history_count|apply filter_min_history_enough].
Qed.

Lemma map_r_ticker_rows (df : DataFrame) :
  map r_ticker (rows df) = ticker df.
Proof.
  unfold rows. rewrite map_map. cbn [row_at r_ticker].
  unfold nrows.
  rewrite (map_nth_seq (fun x => x) EmptyString (ticker df)). apply map_id.
Qed.

(** X5.  On a well-formed table, the rows [filter_min_history] returns
    are the rows of the tickers that have at least [min_history] rows,
    in their order; the columns are the same. *)
Theorem filter_min_history_rows (df : DataFrame) (n : nat) :
  wf_frame df = true ->
  rows (filter_min_history df n)
  = filter (fun r => n <=? count_occ string_dec (ticker df) (r_ticker r))
      (rows df)
  /\ column_names (filter_min_history df n) = column_names df.
Proof.
  intros Hwf. split.
  - unfold filter_min_history. rewrite rows_select_rows; auto.
    + transitivity
        (select
           (map (fun r => n <=? count_occ string_dec (ticker df) (r_ticker r))
              (rows df)) (rows df)); [|apply select_filter].
      f_equal. rewrite map_map.
      rewrite <- (map_map r_ticker
                    (fun k => n <=? count_occ string_dec (ticker df) k)).
      rewrite map_r_ticker_rows. reflexivity.
    + rewrite !length_map. reflexivity.
  - unfold filter_min_history, select_rows, column_names; cbn [columns].
    rewrite map_map. reflexivity.
Qed.

Lemma col_select_all (c : column) :
  col_select (repeat true (col_length c)) c = c.
Proof. destruct c; simpl; rewrite select_all; reflexivity. Qed.

Lemma select_rows_all (df : DataFrame) :
  wf_frame df = true -> select_rows (repeat true (nrows df)) df = df.
Proof.
  rewrite wf_frame_iff. intros [Hd Hc]. destruct df as [t d cols].
  unfold select_rows, nrows in *; cbn [ticker date columns] in *.
  f_equal.
  - apply select_all.
  - rewrite <- Hd. apply select_all.
  - induction Hc as [|[nm c] cols Hx Hc IH]; simpl; auto.
    rewrite IH. cbn [snd] in Hx. rewrite <- Hx, col_select_all. reflexivity.
Qed.

Lemma map_all_true {A : Type} (f : A -> bool) (l : list A) :
  (forall x, In x l -> f x = true) -> map f l = repeat true (length l).
Proof.
  induction l as [|x l IH]; intros H; simpl; auto.
  rewrite H by (left; reflexivity). f_equal. apply IH.
  intros y Hy. apply H. right. exact Hy.
Qed.

(** X6.  Filtering twice is filtering once. *)
Theorem filter_min_history_idempotent (df : DataFrame) (n : nat) :
  wf_frame df = true ->
  filter_min_history (filter_min_history df n) n = filter_min_history df n.
Proof.
  intros Hwf.
  assert (wf_frame (filter_min_history df n) = true) as Hwf'
      by (apply wf_select_rows; assumption).
  unfold filter_min_history at 1.
  set (out := filter_min_history df n) in *.
  rewrite map_map, map_all_true.
  - apply select_rows_all. assumption.
  - intros k Hk. apply Nat.leb_le. apply filter_min_history_enough. exact Hk.
Qed.

(* ================================================================== *)
(** * When the feature stage returns *)
(* ================================================================== *)

Lemma readable_getf n df :
  readable n df = true -> exists v, getf df n = Ok v.
Proof.
  unfold readable. destruct (getf df n) as [v|]; [eauto|discriminate].
Qed.

Lemma readable_assign_F n df name v :
  readable n df = true -> readable n (assign df name (ColF v)) = true.
Proof.
  unfold readable, getf, assign; cbn [columns].
  destruct (String.eqb n name) eqn:E.
  - apply String.eqb_eq in E; subst. rewrite find_col_set_same. reflexivity.
  - rewrite find_col_set_other by assumption. auto.
Qed.

Lemma readable_assign_same name df v :
  readable name (assign df name (ColF v)) = true.
Proof. unfold readable. rewrite getf_assign_same. reflexivity. Qed.

Lemma runs_ret keys reads : runs keys reads [] (fun df => Ok df).
Proof.
  intros df Hk H. exists df. repeat split; auto.
Qed.

Lemma runs_weaken keys r r' m m' step :
  runs keys r m step -> incl r r' -> incl m' m -> runs keys r' m' step.
Proof.
  intros H Hr Hm df Hk Hd.
  destruct (H df Hk) as (out & E & T & K & M); [auto|].
  exists out. repeat split; auto.
Qed.

Lemma runs_bind keys r m1 m2 (s1 s2 : DataFrame -> result DataFrame) :
  runs keys r m1 s1 -> runs keys (r ++ m1) m2 s2 ->
  runs keys r (m1 ++ m2) (fun df => out <- s1 df ;; s2 out).
Proof.
  intros H1 H2 df Hk Hd.
  destruct (H1 df Hk Hd) as (mid & E1 & T1 & K1 & M1).
  destruct (H2 mid T1) as (out & E2 & T2 & K2 & M2).
  { intros n Hn. apply in_app_iff in Hn. destruct Hn; auto. }
  exists out. rewrite E1. cbn [bind]. repeat split; auto.
  intros n Hn. apply in_app_iff in Hn. destruct Hn; auto.
Qed.

Lemma runs_for_each {A : Type} keys r (mk : A -> list string) (xs : list A)
  (step : A -> DataFrame -> result DataFrame) :
  (forall x, In x xs -> runs keys r (mk x) (step x)) ->
  runs keys r (flat_map mk xs) (for_each xs step).
Proof.
  induction xs as [|x xs IH]; intros H; simpl.
  - apply runs_ret.
  - apply runs_bind; [apply H; left; reflexivity|].
    apply (runs_weaken keys r _ (flat_map mk xs) _).
    + apply IH. intros y Hy. apply H. right. exact Hy.
    + apply incl_appl, incl_refl.
    + apply incl_refl.
Qed.

Section Runs.

Context {pd : Pandas}.

Local Ltac reads_column H n v E :=
  destruct (readable_getf n _ (H n ltac:(simpl; tauto))) as [v E].

Local Ltac keeps_and_makes :=
  repeat split;
  [ intros; repeat apply readable_assign_F; assumption
  | simpl; intros ? Hm; decompose [or] Hm; try contradiction; subst;
    repeat (apply readable_assign_same
            || (apply readable_assign_F; [])) ].

Lemma add_returns_runs keys :
  runs keys ["adj_close"]%string ["ret_1d"; "logret_1d"]%string add_returns.
Proof.
  intros df Hk H. reads_column H "adj_close"%string v E.
  unfold add_returns. rewrite E. cbn [bind].
  rewrite getf_assign_other by reflexivity. rewrite E. cbn [bind].
  eexists. split; [reflexivity|]. subst keys. keeps_and_makes.
Qed.

Lemma add_momentum_runs keys w :
  runs keys ["adj_close"]%string [mom_name w] (add_momentum w).
Proof.
  intros df Hk H. reads_column H "adj_close"%string v E.
  unfold add_momentum. rewrite E. cbn [bind].
  eexists. split; [reflexivity|]. subst keys. keeps_and_makes.
Qed.

Lemma clean_momentum_runs keys name :
  runs keys [name] [] (clean_momentum name).
Proof.
  intros df Hk H. reads_column H name v E.
  unfold clean_momentum. rewrite E. cbn [bind].
  eexists. split; [reflexivity|]. subst keys. keeps_and_makes.
Qed.

Lemma add_moving_average_runs keys w :
  runs keys ["adj_close"]%string [ma_name w; price_to_ma_name w]
    (add_moving_average w).
Proof.
  intros df Hk H. reads_column H "adj_close"%string v E.
  unfold add_moving_average. rewrite E. cbn [bind].
  rewrite (transform_total _ (rolling w (window_mean w))) by reflexivity.
  cbn [bind].
  destruct (readable_getf "adj_close"
              (assign df (ma_name w)
                 (ColF (grouped (rolling w (window_mean w)) (ticker df) v))))
    as [v' E'].
  { apply readable_assign_F. unfold readable. rewrite E. reflexivity. }
  rewrite E'. cbn [bind].
  eexists. split; [reflexivity|]. subst keys. keeps_and_makes.
Qed.

Lemma add_volatility_runs keys w :
  runs keys ["logret_1d"]%string [vol_name w] (add_volatility w).
Proof.
  intros df Hk H. reads_column H "logret_1d"%string v E.
  unfold add_volatility. rewrite E. cbn [bind].
  rewrite (transform_total _ (rolling w (window_std w))) by reflexivity.
  cbn [bind].
  eexists. split; [reflexivity|]. subst keys. keeps_and_makes.
Qed.

Lemma add_volume_zscore_runs keys :
  runs keys ["volume"]%string ["logvol"; "logvol_z_63"]%string
    add_volume_zscore.
Proof.
  intros df Hk H. reads_column H "volume"%string v E.
  unfold add_volume_zscore. rewrite E. cbn [bind].
  rewrite getf_assign_same. cbn [bind].
  rewrite !(transform_total _ (rolling 63 (window_mean 63))) by reflexivity.
  cbn [bind].
  rewrite !(transform_total _ (rolling 63 (window_std 63))) by reflexivity.
  cbn [bind].
  eexists. split; [reflexivity|]. subst keys. keeps_and_makes.
Qed.

Lemma add_intraday_range_runs keys :
  runs keys ["high"; "low"; "close"; "open"]%string
    ["hl_range"; "oc_change"]%string add_intraday_range.
Proof.
  intros df Hk H.
  reads_column H "high"%string v1 E1. reads_column H "low"%string v2 E2.
  reads_column H "close"%string v3 E3. reads_column H "open"%string v4 E4.
  unfold add_intraday_range. rewrite E1, E2. cbn [bind].
  destruct (readable_getf "close"
              (assign df "hl_range"
                 (ColF (map (fun x => fsub x fone) (map2 fdiv v1 v2)))))
    as [v3' E3'].
  { apply readable_assign_F. unfold readable. rewrite E3. reflexivity. }
  destruct (readable_getf "open"
              (assign df "hl_range"
                 (ColF (map (fun x => fsub x fone) (map2 fdiv v1 v2)))))
    as [v4' E4'].
  { apply readable_assign_F. unfold readable. rewrite E4. reflexivity. }
  rewrite E3', E4'. cbn [bind].
  eexists. split; [reflexivity|]. subst keys. keeps_and_makes.
Qed.

Lemma add_rsi_runs keys w :
  w <> 0 \/ keys = [] ->
  runs keys ["adj_close"]%string [rsi_name w] (add_rsi w).
Proof.
  intros Hw df Hk H. reads_column H "adj_close"%string v E.
  unfold add_rsi. rewrite E. cbn [bind].
  assert (exists r, transform (fun s => _rsi s w) (ticker df) v = Ok r)
    as [r T].
  { destruct w as [|w].
    - destruct Hw as [Hw|Hw]; [congruence|].
      rewrite Hk, Hw. eexists. reflexivity.
    - rewrite (transform_total _ (fun s => rsi_values s (S w)))
        by reflexivity.
      eauto. }
  rewrite T. cbn [bind].
  eexists. split; [reflexivity|]. subst keys. keeps_and_makes.
Qed.

(** With its six input columns numeric and a positive RSI window (or no
    row at all) the feature stage goes through. *)
Lemma build_features_runs keys cfg :
  rsi_window cfg <> 0 \/ keys = [] ->
  runs keys input_columns (feature_columns cfg)
    (fun df => build_features df cfg).
Proof.
  intros Hw. unfold build_features.
  eapply runs_weaken; [| apply incl_refl |].
  - apply runs_bind.
    { eapply runs_weaken; [apply add_returns_runs| |apply incl_refl].
      intros n [<-|[]]; simpl; tauto. }
    apply runs_bind.
    { apply (runs_for_each _ _ (fun w => [mom_name w])). intros w _.
      eapply runs_weaken; [apply add_momentum_runs| |apply incl_refl].
      intros n [<-|[]]; simpl; tauto. }
    apply runs_bind.
    { apply (runs_for_each _ _ (fun _ => [])). intros n Hn.
      eapply runs_weaken; [apply clean_momentum_runs| |apply incl_refl].
      intros x [<-|[]]. rewrite !in_app_iff. right.
      rewrite flat_map_singleton. exact Hn. }
    apply runs_bind.
    { apply (runs_for_each _ _ (fun w => [ma_name w; price_to_ma_name w])).
      intros w _.
      eapply runs_weaken; [apply add_moving_average_runs| |apply incl_refl].
      intros n [<-|[]]; simpl; tauto. }
    apply runs_bind.
    { apply (runs_for_each _ _ (fun w => [vol_name w])). intros w _.
      eapply runs_weaken; [apply add_volatility_runs| |apply incl_refl].
      intros n [<-|[]]. rewrite !in_app_iff. simpl. tauto. }
    apply runs_bind.
    { eapply runs_weaken; [apply add_volume_zscore_runs| |apply incl_refl].
      intros n [<-|[]]; simpl; tauto. }
    apply runs_bind.
    { eapply runs_weaken; [apply add_intraday_range_runs| |apply incl_refl].
      intros n Hn. rewrite !in_app_iff. left. simpl in *. tauto. }
    apply runs_bind.
    { eapply runs_weaken; [apply (add_rsi_runs _ _ Hw)| |apply incl_refl].
      intros n [<-|[]]; simpl; tauto. }
    apply runs_ret.
  - unfold feature_columns. intros x.
    rewrite !in_app_iff, !flat_map_singleton. simpl. tauto.
Qed.

End Runs.

(** No input column bears the name of a feature column. *)
Lemma input_not_feature (cfg : FeatureConfig) (n : string) :
  In n input_columns -> ~ In n (feature_columns cfg).
Proof.
  intros Hn H. unfold feature_columns in H.
  rewrite !in_app_iff, !in_map_iff, in_flat_map in H.
  unfold mom_name, ma_name, price_to_ma_name, vol_name, rsi_name in H.
  simpl in Hn, H.
  decompose [or] Hn; try contradiction; subst n;
    decompose [or ex and] H; try contradiction; try discriminate;
    repeat match goal with
           | K : _ \/ _ |- _ => destruct K as [K|K]
           | K : False |- _ => destruct K
           | K : String _ _ = String _ _ |- _ => discriminate K
           end.
Qed.

Lemma unwritten_column names step df out n :
  writes names step -> step df = Ok out -> ~ In n names ->
  find_col n (columns out) = find_col n (columns df).
Proof.
  intros W H Hn. destruct (W _ _ H) as (_ & _ & K & _). apply K. exact Hn.
Qed.


Section Returns.

Context {pd : Pandas}.

(** The blocks of [build_features] before the RSI. *)
Lemma build_features_blocks df cfg out :
  build_features df cfg = Ok out ->
  exists d5 d6 d7,
    (forall n, In n input_columns ->
               find_col n (columns d5) = find_col n (columns df))
    /\ add_volume_zscore d5 = Ok d6
    /\ (forall n, In n input_columns ->
                  find_col n (columns d6) = find_col n (columns df))
    /\ add_intraday_range d6 = Ok d7
    /\ ticker d7 = ticker df
    /\ add_rsi (rsi_window cfg) d7 = Ok out.
Proof.
  intros H. unfold build_features in H.
  destruct (add_returns df) as [d1|] eqn:E1; cbn [bind] in H; [|discriminate].
  destruct (for_each (mom_windows cfg) add_momentum d1) as [d2|] eqn:E2;
    cbn [bind] in H; [|discriminate].
  destruct (for_each (map mom_name (mom_windows cfg)) clean_momentum d2)
    as [d3|] eqn:E3; cbn [bind] in H; [|discriminate].
  destruct (for_each (ma_windows cfg) add_moving_average d3) as [d4|] eqn:E4;
    cbn [bind] in H; [|discriminate].
  destruct (for_each (vol_windows cfg) add_volatility d4) as [d5|] eqn:E5;
    cbn [bind] in H; [|discriminate].
  destruct (add_volume_zscore d5) as [d6|] eqn:E6; cbn [bind] in H;
    [|discriminate].
  destruct (add_intraday_range d6) as [d7|] eqn:E7; cbn [bind] in H;
    [|discriminate].
  destruct (add_rsi (rsi_window cfg) d7) as [d8|] eqn:E8; cbn [bind] in H;
    [|discriminate].
  injection H as <-.
  pose proof (input_not_feature cfg) as NF.
  assert (forall names, incl names (feature_columns cfg) ->
            forall n, In n input_columns -> ~ In n names) as NI.
  { intros names Hi n Hn Hin. apply (NF n Hn). apply Hi. exact Hin. }
  assert (incl ["ret_1d"; "logret_1d"]%string (feature_columns cfg)) as I1.
  { intros x. unfold feature_columns. rewrite !in_app_iff. simpl. tauto. }
  assert (incl (flat_map (fun w => [mom_name w]) (mom_windows cfg))
            (feature_columns cfg)) as I2.
  { intros x. unfold feature_columns.
    rewrite !in_app_iff, flat_map_singleton. tauto. }
  assert (incl (flat_map (fun n : string => [n])
                  (map mom_name (mom_windows cfg)))
            (feature_columns cfg)) as I3.
  { intros x. unfold feature_columns.
    rewrite !in_app_iff, flat_map_singleton, map_id. tauto. }
  assert (incl (flat_map (fun w => [ma_name w; price_to_ma_name w])
                  (ma_windows cfg))
            (feature_columns cfg)) as I4.
  { intros x. unfold feature_columns. rewrite !in_app_iff. tauto. }
  assert (incl (flat_map (fun w => [vol_name w]) (vol_windows cfg))
            (feature_columns cfg)) as I5.
  { intros x. unfold feature_columns.
    rewrite !in_app_iff, flat_map_singleton. tauto. }
  assert (incl ["logvol"; "logvol_z_63"]%string (feature_columns cfg)) as I6.
  { intros x. unfold feature_columns. rewrite !in_app_iff. simpl. tauto. }
  assert (forall n, In n input_columns ->
                    find_col n (columns d5) = find_col n (columns df)) as R5.
  { intros n Hn.
    rewrite (unwritten_column _ _ _ _ n
               (writes_for_each (fun w => [vol_name w]) _ _
                  add_volatility_writes) E5 (NI _ I5 n Hn)).
    rewrite (unwritten_column _ _ _ _ n
               (writes_for_each (fun w => [ma_name w; price_to_ma_name w]) _ _
                  add_moving_average_writes) E4 (NI _ I4 n Hn)).
    rewrite (unwritten_column _ _ _ _ n
               (writes_for_each (fun n => [n]) _ _ clean_momentum_writes)
               E3 (NI _ I3 n Hn)).
    rewrite (unwritten_column _ _ _ _ n
               (writes_for_each (fun w => [mom_name w]) _ _
                  add_momentum_writes) E2 (NI _ I2 n Hn)).
    apply (unwritten_column _ _ _ _ n add_returns_writes E1
             (NI _ I1 n Hn)). }
  exists d5, d6, d7. repeat split; auto.
  - intros n Hn.
    rewrite (unwritten_column _ _ _ _ n add_volume_zscore_writes E6
               (NI _ I6 n Hn)).
    auto.
  - destruct (add_intraday_range_writes _ _ E7) as (-> & _).
    destruct (add_volume_zscore_writes _ _ E6) as (-> & _).
    destruct (writes_for_each (fun w => [vol_name w]) _ _
                add_volatility_writes _ _ E5) as (-> & _).
    destruct (writes_for_each (fun w => [ma_name w; price_to_ma_name w]) _ _
                add_moving_average_writes _ _ E4) as (-> & _).
    destruct (writes_for_each (fun n => [n]) _ _ clean_momentum_writes
                _ _ E3) as (-> & _).
    destruct (writes_for_each (fun w => [mom_name w]) _ _
                add_momentum_writes _ _ E2) as (-> & _).
    destruct (add_returns_writes _ _ E1) as (-> & _).
    reflexivity.
Qed.


End Returns.

(* ================================================================== *)
(** * One value per row *)
(* ================================================================== *)

Section WellFormed.

Context {pd : Pandas}.

Lemma build_features_wf df cfg out :
  wf_frame df = true -> build_features df cfg = Ok out ->
  wf_frame out = true.
Proof.
  intros Hwf H.
  destruct (build_features_commutes (repeat true (nrows df)) cfg df out)
    as [[W _] _]; auto.
  split; [auto|split]; [apply repeat_length | apply prefix_closed_all_true].
Qed.

Lemma add_target_wf h fr tg df out :
  wf_frame df = true -> add_target h fr tg df = Ok out ->
  wf_frame out = true.
Proof.
  intros Hwf H. unfold add_target in H.
  read_column H v1 E1.
  rewrite getf_assign_same in H. cbn [bind] in H. injection H as <-.
  pose proof (getf_length _ _ _ Hwf E1) as L1.
  assert (length (map (fun x => fsub x fone)
                    (map2 fdiv (grouped (shift_back h) (ticker df) v1) v1))
          = nrows df) as L.
  { rewrite length_map, map2_length, grouped_length. unfold nrows in *. lia. }
  apply wf_assign; [apply wf_assign; auto|].
  cbn [col_length]. rewrite length_map. exact L.
Qed.

Lemma add_targets_wf df cfg which out :
  wf_frame df = true -> add_targets df cfg which = Ok out ->
  wf_frame out = true.
Proof.
  intros Hwf H. unfold add_targets in H.
  destruct which.
  - destruct (add_target _ _ _ df) as [d1|] eqn:E1; cbn [bind] in H;
      [|discriminate].
    injection H as <-. eapply add_target_wf; eauto.
  - cbn [bind] in H.
    destruct (add_target _ _ _ df) as [d1|] eqn:E1; cbn [bind] in H;
      [|discriminate].
    injection H as <-. eapply add_target_wf; eauto.
  - destruct (add_target _ _ _ df) as [d1|] eqn:E1; cbn [bind] in H;
      [|discriminate].
    destruct (add_target _ _ _ d1) as [d2|] eqn:E2; cbn [bind] in H;
      [|discriminate].
    injection H as <-.
    eapply add_target_wf; [|exact E2]. eapply add_target_wf; eauto.
Qed.

(** X8.  On a table with one value per row in every column, the feature
    stage and the labeling stage return a table with one value per row in
    every column, old and new, and as many rows as the input. *)
Theorem stages_keep_one_value_per_row (df : DataFrame) (cfg : FeatureConfig)
  (which : TargetHorizon) :
  wf_frame df = true ->
  (forall out, build_features df cfg = Ok out ->
     wf_frame out = true /\ nrows out = nrows df)
  /\ (forall out, add_targets df cfg which = Ok out ->
        wf_frame out = true /\ nrows out = nrows df).
Proof.
  intros Hwf. split; intros out H; split.
  - eapply build_features_wf; eauto.
  - destruct (build_features_writes cfg df out H) as (T & _).
    unfold nrows. rewrite T. reflexivity.
  - eapply add_targets_wf; eauto.
  - destruct (add_targets_writes cfg which df out H) as (T & _).
    unfold nrows. rewrite T. reflexivity.
Qed.

End WellFormed.

(* ================================================================== *)
(** * The columns of the output, in order *)
(* ================================================================== *)

Lemma set_col_names_add name c cols :
  map fst (set_col name c cols) = add_name (map fst cols) name.
Proof.
  unfold add_name, mem_string.
  induction cols as [|[n c0] cols IH]; simpl; auto.
  destruct (String.eqb name n) eqn:E; simpl; auto.
  rewrite IH. destruct (existsb (String.eqb name) (map fst cols)); reflexivity.
Qed.

Lemma column_names_assign df name c :
  column_names (assign df name c) = add_name (column_names df) name.
Proof. apply set_col_names_add. Qed.

Lemma names_after_ret : names_after [] (fun df => Ok df).
Proof. intros df out H. injection H as <-. reflexivity. Qed.

Lemma names_after_bind n1 n2 (s1 s2 : DataFrame -> result DataFrame) :
  names_after n1 s1 -> names_after n2 s2 ->
  names_after (n1 ++ n2) (fun df => out <- s1 df ;; s2 out).
Proof.
  intros H1 H2 df out H.
  destruct (s1 df) as [mid|] eqn:E; cbn [bind] in H; [|discriminate].
  unfold add_names. rewrite fold_left_app.
  rewrite (H2 _ _ H), (H1 _ _ E). reflexivity.
Qed.

Lemma names_after_for_each {A : Type} (mk : A -> list string) (xs : list A)
  (step : A -> DataFrame -> result DataFrame) :
  (forall x, names_after (mk x) (step x)) ->
  names_after (flat_map mk xs) (for_each xs step).
Proof.
  intros Hs. induction xs as [|x xs IH]; simpl.
  - apply names_after_ret.
  - apply names_after_bind; auto.
Qed.

Lemma mem_add_name l n x :
  mem_string x (add_name l n) = mem_string x l || String.eqb x n.
Proof.
  unfold add_name, mem_string.
  destruct (existsb (String.eqb n) l) eqn:E.
  - destruct (String.eqb x n) eqn:Ex; [|rewrite orb_false_r; reflexivity].
    apply String.eqb_eq in Ex. subst. rewrite E. reflexivity.
  - rewrite existsb_app. simpl. rewrite orb_false_r. reflexivity.
Qed.

Lemma mem_add_names l ns x :
  mem_string x (add_names l ns) = mem_string x l || mem_string x ns.
Proof.
  unfold add_names. revert l. induction ns as [|n ns IH]; intros l; simpl.
  - rewrite orb_false_r. reflexivity.
  - rewrite IH, mem_add_name. rewrite orb_assoc. reflexivity.
Qed.

(** Writing again columns that are there changes no name. *)
Lemma add_names_present l ns :
  (forall n, In n ns -> mem_string n l = true) -> add_names l ns = l.
Proof.
  unfold add_names. induction ns as [|n ns IH]; intros H; simpl; auto.
  unfold add_name at 2. rewrite H by (left; reflexivity).
  apply IH. intros x Hx. apply H. right. exact Hx.
Qed.

Lemma mem_string_In x l : In x l -> mem_string x l = true.
Proof.
  intros H. unfold mem_string. apply existsb_exists. exists x.
  split; auto. apply String.eqb_refl.
Qed.

(** Names that are all new and all different are appended as they are. *)
Lemma add_names_fresh l ns :
  NoDup (l ++ ns) -> add_names l ns = l ++ ns.
Proof.
  unfold add_names. revert l. induction ns as [|n ns IH]; intros l H; simpl.
  - rewrite app_nil_r. reflexivity.
  - assert (mem_string n l = false) as M.
    { apply not_true_is_false. intros M. unfold mem_string in M.
      apply existsb_exists in M. destruct M as (y & Hy & E).
      apply String.eqb_eq in E. subst y.
      apply NoDup_remove_2 in H. apply H. apply in_or_app. left. exact Hy. }
    unfold add_name at 2. rewrite M.
    replace (l ++ n :: ns) with ((l ++ [n]) ++ ns) in *
      by (rewrite <- app_assoc; reflexivity).
    apply IH. exact H.
Qed.

Section Names.

Context {pd : Pandas}.

Lemma add_returns_names :
  names_after ["ret_1d"; "logret_1d"]%string add_returns.
Proof.
  intros df out H. unfold add_returns in H.
  read_column H v1 E1. read_column H v2 E2. injection H as <-.
  rewrite !column_names_assign. reflexivity.
Qed.

Lemma add_momentum_names w : names_after [mom_name w] (add_momentum w).
Proof.
  intros df out H. unfold add_momentum in H.
  read_column H v1 E1. injection H as <-.
  rewrite !column_names_assign. reflexivity.
Qed.

Lemma clean_momentum_names name : names_after [name] (clean_momentum name).
Proof.
  intros df out H. unfold clean_momentum in H.
  read_column H v1 E1. injection H as <-.
  rewrite !column_names_assign. reflexivity.
Qed.

Lemma add_moving_average_names w :
  names_after [ma_name w; price_to_ma_name w] (add_moving_average w).
Proof.
  intros df out H. unfold add_moving_average in H.
  read_column H v1 E1. read_column H t1 T1. read_column H v2 E2.
  injection H as <-.
  rewrite !column_names_assign. reflexivity.
Qed.

Lemma add_volatility_names w : names_after [vol_name w] (add_volatility w).
Proof.
  intros df out H. unfold add_volatility in H.
  read_column H v1 E1. read_column H t1 T1. injection H as <-.
  rewrite !column_names_assign. reflexivity.
Qed.

Lemma add_volume_zscore_names :
  names_after ["logvol"; "logvol_z_63"]%string add_volume_zscore.
Proof.
  intros df out H. unfold add_volume_zscore in H.
  read_column H v1 E1. read_column H v2 E2.
  read_column H t1 T1. read_column H t2 T2. injection H as <-.
  rewrite !column_names_assign. reflexivity.
Qed.

Lemma add_intraday_range_names :
  names_after ["hl_range"; "oc_change"]%string add_intraday_range.
Proof.
  intros df out H. unfold add_intraday_range in H.
  read_column H v1 E1. read_column H v2 E2.
  read_column H v3 E3. read_column H v4 E4. injection H as <-.
  rewrite !column_names_assign. reflexivity.
Qed.

Lemma add_rsi_names w : names_after [rsi_name w] (add_rsi w).
Proof.
  intros df out H. unfold add_rsi in H.
  read_column H v1 E1. read_column H t1 T1. injection H as <-.
  rewrite !column_names_assign. reflexivity.
Qed.

Lemma add_target_names h fr tg : names_after [fr; tg] (add_target h fr tg).
Proof.
  intros df out H. unfold add_target in H.
  read_column H v1 E1. read_column H v2 E2. injection H as <-.
  rewrite !column_names_assign. reflexivity.
Qed.

Lemma build_features_names cfg :
  names_after (feature_columns cfg) (fun df => build_features df cfg).
Proof.
  intros df out H.
  assert (names_after
            (["ret_1d"; "logret_1d"]%string
             ++ flat_map (fun w => [mom_name w]) (mom_windows cfg)
             ++ flat_map (fun n : string => [n])
                  (map mom_name (mom_windows cfg))
             ++ flat_map (fun w => [ma_name w; price_to_ma_name w])
                  (ma_windows cfg)
             ++ flat_map (fun w => [vol_name w]) (vol_windows cfg)
             ++ ["logvol"; "logvol_z_63"]%string
             ++ ["hl_range"; "oc_change"]%string
             ++ [rsi_name (rsi_window cfg)] ++ [])
            (fun df => build_features df cfg)) as N.
  { unfold build_features.
    apply names_after_bind; [apply add_returns_names|].
    apply names_after_bind;
      [apply (names_after_for_each (fun w => [mom_name w])),
        add_momentum_names|].
    apply names_after_bind;
      [apply (names_after_for_each (fun n => [n])), clean_momentum_names|].
    apply names_after_bind;
      [apply (names_after_for_each
                (fun w => [ma_name w; price_to_ma_name w])),
        add_moving_average_names|].
    apply names_after_bind;
      [apply (names_after_for_each (fun w => [vol_name w])),
        add_volatility_names|].
    apply names_after_bind; [apply add_volume_zscore_names|].
    apply names_after_bind; [apply add_intraday_range_names|].
    apply names_after_bind; [apply add_rsi_names|].
    apply names_after_ret. }
  rewrite (N df out H). unfold feature_columns, add_names.
  rewrite !flat_map_singleton, map_id, app_nil_r.
  change ["logvol"; "logvol_z_63"; "hl_range"; "oc_change";
          rsi_name (rsi_window cfg)]%string
    with (["logvol"; "logvol_z_63"]%string
          ++ ["hl_range"; "oc_change"]%string
          ++ [rsi_name (rsi_window cfg)]).
  set (R := flat_map (fun w => [ma_name w; price_to_ma_name w])
              (ma_windows cfg) ++ _).
  rewrite !fold_left_app. f_equal.
  apply add_names_present. intros n Hn.
  change (mem_string n
            (add_names
               (add_names (column_names df) ["ret_1d"; "logret_1d"]%string)
               (map mom_name (mom_windows cfg))) = true).
  rewrite mem_add_names, (mem_string_In n _ Hn). apply orb_true_r.
Qed.

(** X9.  The feature stage returns the columns of its input, in their
    order, followed by the feature columns that the input did not have,
    in the order [ret_1d], [logret_1d], the momentum columns, [ma_w] and
    [price_to_ma_w] for each moving-average window, the volatility
    columns, [logvol], [logvol_z_63], [hl_range], [oc_change], [rsi_w];
    the labeling stage likewise appends [future_ret] and [target] of the
    weekly and then of the monthly horizon. *)
Theorem stages_append_columns_in_order (df : DataFrame) (cfg : FeatureConfig)
  (which : TargetHorizon) :
  (forall out, build_features df cfg = Ok out ->
     column_names out = add_names (column_names df) (feature_columns cfg))
  /\ (forall out, add_targets df cfg which = Ok out ->
        column_names out = add_names (column_names df) (target_columns which)).
Proof.
  split; intros out H.
  - apply (build_features_names cfg df out H).
  - unfold add_targets in H. destruct which.
    + destruct (add_target _ _ _ df) as [d1|] eqn:E1; cbn [bind] in H;
        [|discriminate].
      injection H as <-. apply (add_target_names _ _ _ _ _ E1).
    + cbn [bind] in H.
      destruct (add_target _ _ _ df) as [d1|] eqn:E1; cbn [bind] in H;
        [|discriminate].
      injection H as <-. apply (add_target_names _ _ _ _ _ E1).
    + destruct (add_target _ _ _ df) as [d1|] eqn:E1; cbn [bind] in H;
        [|discriminate].
      destruct (add_target _ _ _ d1) as [d2|] eqn:E2; cbn [bind] in H;
        [|discriminate].
      injection H as <-.
      rewrite (add_target_names _ _ _ _ _ E2), (add_target_names _ _ _ _ _ E1).
      reflexivity.
Qed.

End Names.

(* ================================================================== *)
(** * The first and the last rows of a ticker *)
(* ================================================================== *)

Lemma nth_scatter keys rank res i :
  i < length keys ->
  nth i (scatter keys rank res) NaN
  = nth (rank (nth i keys EmptyString) + rows_before keys i)
      (res (nth i keys EmptyString)) NaN.
Proof.
  unfold rows_before. revert rank i.
  induction keys as [|k keys IH]; intros rank i Hi; simpl in Hi; [lia|].
  destruct i as [|i]; cbn [scatter nth firstn].
  - simpl. rewrite Nat.add_0_r. reflexivity.
  - rewrite IH by lia. f_equal. simpl.
    destruct (string_dec k (nth i keys EmptyString)) as [->|Hne].
    + rewrite String.eqb_refl. lia.
    + assert (String.eqb (nth i keys EmptyString) k = false) as ->; auto.
      apply String.eqb_neq. congruence.
Qed.

(** Row [i] of a group-wise result is the value the function gives at
    the place of the row within its ticker. *)
Lemma nth_grouped f keys col i :
  i < length keys ->
  nth i (grouped f keys col) NaN
  = nth (rows_before keys i)
      (f (group_values (nth i keys EmptyString) keys col)) NaN.
Proof. intros Hi. unfold grouped. rewrite nth_scatter by assumption. reflexivity. Qed.

Lemma group_values_length k keys col :
  length (group_values k keys col) <= count_occ string_dec keys k.
Proof.
  unfold group_values. revert col.
  induction keys as [|x keys IH]; intros [|v col]; simpl; try lia.
  specialize (IH col).
  destruct (String.eqb k x) eqn:E; destruct (string_dec x k) as [->|Hne];
    simpl; try lia.
  apply String.eqb_eq in E. congruence.
Qed.

Lemma count_occ_split (keys : list string) i :
  i < length keys ->
  count_occ string_dec keys (nth i keys EmptyString)
  = rows_before keys i + 1 + rows_after keys i.
Proof.
  intros Hi. unfold rows_before, rows_after.
  rewrite <- (firstn_skipn i keys) at 1.
  rewrite count_occ_app.
  assert (skipn i keys = nth i keys EmptyString :: skipn (S i) keys) as ->.
  { revert i Hi. induction keys as [|x keys IH]; intros [|i] Hi; simpl in *;
      try lia; auto. apply IH. lia. }
  rewrite count_occ_cons_eq by reflexivity. lia.
Qed.

Lemma nth_map2_nan_l (f : f64 -> f64 -> f64) (a b : series) i :
  (forall y, f NaN y = NaN) -> nth i a NaN = NaN ->
  nth i (map2 f a b) NaN = NaN.
Proof.
  intros Hf. revert b i. induction a as [|x a IH]; intros [|y b] [|i] H;
    simpl in *; auto.
  subst x. apply Hf.
Qed.

Lemma nth_map2_nan_r (f : f64 -> f64 -> f64) (a b : series) i :
  (forall x, f x NaN = NaN) -> nth i b NaN = NaN ->
  nth i (map2 f a b) NaN = NaN.
Proof.
  intros Hf. revert b i. induction a as [|x a IH]; intros [|y b] [|i] H;
    simpl in *; auto.
  subst y. apply Hf.
Qed.

Lemma nth_shift_early p (s : series) i :
  i < p -> nth i (shift p s) NaN = NaN.
Proof.
  intros Hi. unfold shift.
  destruct (Nat.lt_ge_cases i (length s)) as [Hl|Hl].
  - rewrite nth_firstn_lt by assumption.
    rewrite app_nth1 by (rewrite repeat_length; assumption).
    apply nth_repeat.
  - apply nth_overflow. rewrite length_firstn. lia.
Qed.

Lemma nth_shift_back_late h (s : series) i :
  length s <= i + h -> nth i (shift_back h s) NaN = NaN.
Proof.
  intros Hi. unfold shift_back.
  destruct (Nat.lt_ge_cases i (length (skipn h s))) as [Hl|Hl].
  - rewrite length_skipn in Hl. lia.
  - rewrite app_nth2 by assumption.
    destruct (Nat.lt_ge_cases (i - length (skipn h s))
                (Nat.min h (length s))) as [Hr|Hr].
    + apply nth_repeat.
    + apply nth_overflow. rewrite repeat_length. assumption.
Qed.

Lemma fsub_nan_r x : fsub x NaN = NaN.
Proof. destruct x; reflexivity. Qed.

Lemma fdiv_nan_l y : fdiv NaN y = NaN.
Proof. reflexivity. Qed.

Section Edges.

Context {pd : Pandas}.

Lemma nth_pct_change_early p (s : series) i :
  i < p -> nth i (pct_change p s) NaN = NaN.
Proof.
  intros Hi. unfold pct_change.
  apply nth_map2_nan_r.
  - intros x. rewrite fdiv_nan_r. reflexivity.
  - apply nth_shift_early. assumption.
Qed.

Lemma observations_gain_le close i : observations (rsi_gain close) i <= i.
Proof.
  unfold observations, rsi_gain, diff, shift.
  destruct close as [|x close]; [simpl; lia|].
  cbn [length repeat app firstn map2 clip_lower0 map].
  rewrite fsub_nan_r. cbn [flt fzero filter notna isna negb].
  etransitivity; [apply filter_length_le|].
  rewrite length_firstn. lia.
Qed.

Lemma nth_rsi_values_early close window i :
  i < window -> nth i (rsi_values close window) NaN = NaN.
Proof.
  intros Hi. rewrite nth_rsi_values.
  unfold rsi_avg_gain at 1. rewrite ewm_mean_warmup; [reflexivity|].
  pose proof (observations_gain_le close i). lia.
Qed.

(** X10.  In the table [build_features] returns, the RSI is undefined on
    the first [rsi_window] rows of every ticker. *)
Theorem build_features_rsi_warm_up (df : DataFrame) (cfg : FeatureConfig)
  (out : DataFrame) :
  build_features df cfg = Ok out ->
  exists rsi,
    getf out (rsi_name (rsi_window cfg)) = Ok rsi
    /\ forall i, i < nrows df ->
                 rows_before (ticker df) i < rsi_window cfg ->
                 nth i rsi NaN = NaN.
Proof.
  intros H.
  destruct (build_features_blocks df cfg out H)
    as (d5 & d6 & d7 & _ & _ & _ & _ & T7 & E8).
  unfold add_rsi in E8.
  read_column E8 v E. read_column E8 r T. injection E8 as <-.
  exists r. split; [apply getf_assign_same|].
  intros i Hi Hr. rewrite T7 in T.
  destruct (rsi_window cfg) as [|w]; [lia|].
  rewrite (transform_total _ (fun s => rsi_values s (S w))) in T
    by reflexivity.
  injection T as <-.
  rewrite nth_grouped by exact Hi.
  apply nth_rsi_values_early. exact Hr.
Qed.

(** No block after the returns writes a column called [ret_1d] or
    [logret_1d]. *)
Lemma returns_not_later (cfg : FeatureConfig) (n : string) :
  In n ["ret_1d"; "logret_1d"]%string ->
  ~ In n
      (flat_map (fun w => [mom_name w]) (mom_windows cfg)
       ++ flat_map (fun n : string => [n]) (map mom_name (mom_windows cfg))
       ++ flat_map (fun w => [ma_name w; price_to_ma_name w]) (ma_windows cfg)
       ++ flat_map (fun w => [vol_name w]) (vol_windows cfg)
       ++ ["logvol"; "logvol_z_63"]%string
       ++ ["hl_range"; "oc_change"]%string
       ++ [rsi_name (rsi_window cfg)] ++ []).
Proof.
  intros Hn H.
  rewrite !flat_map_singleton, map_id in H.
  rewrite !in_app_iff, !in_map_iff, in_flat_map in H.
  unfold mom_name, ma_name, price_to_ma_name, vol_name, rsi_name in H.
  simpl in Hn, H.
  decompose [or] Hn; try contradiction; subst n;
    decompose [or ex and] H; try contradiction; try discriminate;
    repeat match goal with
           | K : _ \/ _ |- _ => destruct K as [K|K]
           | K : False |- _ => destruct K
           | K : String _ _ = String _ _ |- _ => discriminate K
           end.
Qed.

(** X11.  In the table [build_features] returns, the one-day return and
    the one-day log return are undefined at the first row of every
    ticker: no return is computed from the last price of another
    ticker. *)
Theorem build_features_no_return_across_tickers (df : DataFrame)
  (cfg : FeatureConfig) (out : DataFrame) :
  build_features df cfg = Ok out ->
  exists ret logret,
    getf out "ret_1d" = Ok ret
    /\ getf out "logret_1d" = Ok logret
    /\ forall i, i < nrows df -> rows_before (ticker df) i = 0 ->
                 nth i ret NaN = NaN /\ nth i logret NaN = NaN.
Proof.
  intros H. unfold build_features in H.
  destruct (add_returns df) as [d1|] eqn:E1; cbn [bind] in H; [|discriminate].
  set (rest := fun d : DataFrame =>
                out <- for_each (mom_windows cfg) add_momentum d ;;
                let mom_cols := map mom_name (mom_windows cfg) in
                out <- for_each mom_cols clean_momentum out ;;
                out <- for_each (ma_windows cfg) add_moving_average out ;;
                out <- for_each (vol_windows cfg) add_volatility out ;;
                out <- add_volume_zscore out ;;
                out <- add_intraday_range out ;;
                out <- add_rsi (rsi_window cfg) out ;;
                Ok out).
  change (rest d1 = Ok out) in H.
  assert (writes
            (flat_map (fun w => [mom_name w]) (mom_windows cfg)
             ++ flat_map (fun n : string => [n])
                  (map mom_name (mom_windows cfg))
             ++ flat_map (fun w => [ma_name w; price_to_ma_name w])
                  (ma_windows cfg)
             ++ flat_map (fun w => [vol_name w]) (vol_windows cfg)
             ++ ["logvol"; "logvol_z_63"]%string
             ++ ["hl_range"; "oc_change"]%string
             ++ [rsi_name (rsi_window cfg)] ++ []) rest) as W.
  { unfold rest.
    apply writes_bind;
      [apply (writes_for_each (fun w => [mom_name w])), add_momentum_writes|].
    apply writes_bind;
      [apply (writes_for_each (fun n => [n])), clean_momentum_writes|].
    apply writes_bind;
      [apply (writes_for_each (fun w => [ma_name w; price_to_ma_name w])),
        add_moving_average_writes|].
    apply writes_bind;
      [apply (writes_for_each (fun w => [vol_name w])), add_volatility_writes|].
    apply writes_bind; [apply add_volume_zscore_writes|].
    apply writes_bind; [apply add_intraday_range_writes|].
    apply writes_bind; [apply add_rsi_writes|].
    apply (writes_ret []). }
  assert (forall n, In n ["ret_1d"; "logret_1d"]%string ->
                    getf out n = getf d1 n) as G.
  { intros n Hn. destruct (W _ _ H) as (_ & _ & K & _).
    unfold getf. rewrite (K n) by (apply returns_not_later; exact Hn).
    reflexivity. }
  clear H W. unfold add_returns in E1.
  read_column E1 v E. read_column E1 v' E'. injection E1 as <-.
  rewrite getf_assign_other in E' by reflexivity.
  assert (v' = v) as -> by congruence.
  eexists. eexists. split; [|split].
  - rewrite G by (simpl; tauto).
    rewrite getf_assign_other by reflexivity. apply getf_assign_same.
  - rewrite G by (simpl; tauto). apply getf_assign_same.
  - intros i Hi Hr. split.
    + rewrite nth_grouped by exact Hi. rewrite Hr.
      apply nth_pct_change_early. lia.
    + apply nth_map2_nan_r; [apply fsub_nan_r|].
      rewrite nth_map_nan by reflexivity.
      cbn [ticker assign].
      rewrite nth_grouped by exact Hi. rewrite Hr.
      rewrite nth_shift_early by lia. reflexivity.
Qed.

End Edges.

(* ================================================================== *)
(** * The labeling stage: when it returns, and the rows without a future *)
(* ================================================================== *)

Lemma readable_assign_I n df name v :
  readable n df = true -> readable n (assign df name (ColI v)) = true.
Proof.
  unfold readable, getf, assign; cbn [columns].
  destruct (String.eqb n name) eqn:E.
  - apply String.eqb_eq in E; subst. rewrite find_col_set_same. reflexivity.
  - rewrite find_col_set_other by assumption. auto.
Qed.

Section Labels.

Context {pd : Pandas}.

Lemma add_target_total h fr tg df :
  readable "adj_close" df = true ->
  exists out,
    add_target h fr tg df = Ok out
    /\ ticker out = ticker df
    /\ forall n, readable n df = true -> readable n out = true.
Proof.
  intros R. destruct (readable_getf _ _ R) as [v E].
  unfold add_target. rewrite E. cbn [bind].
  rewrite getf_assign_same. cbn [bind].
  eexists. split; [reflexivity|]. split; [reflexivity|].
  intros n Hn. apply readable_assign_I, readable_assign_F. exact Hn.
Qed.

Lemma add_targets_total df cfg which :
  readable "adj_close" df = true ->
  exists out,
    add_targets df cfg which = Ok out
    /\ ticker out = ticker df
    /\ forall n, readable n df = true -> readable n out = true.
Proof.
  intros R. unfold add_targets. destruct which.
  - destruct (add_target_total (horizon_weekly cfg) "future_ret_w"
                "target_w" df R) as (d1 & E1 & T1 & R1).
    rewrite E1. cbn [bind]. eauto.
  - cbn [bind].
    destruct (add_target_total (horizon_monthly cfg) "future_ret_m"
                "target_m" df R) as (d1 & E1 & T1 & R1).
    rewrite E1. cbn [bind]. eauto.
  - destruct (add_target_total (horizon_weekly cfg) "future_ret_w"
                "target_w" df R) as (d1 & E1 & T1 & R1).
    rewrite E1. cbn [bind].
    destruct (add_target_total (horizon_monthly cfg) "future_ret_m"
                "target_m" d1 (R1 _ R)) as (d2 & E2 & T2 & R2).
    rewrite E2. cbn [bind]. exists d2. split; [reflexivity|].
    split; [congruence|auto].
Qed.

Lemma add_target_reads h fr tg df out :
  add_target h fr tg df = Ok out -> readable "adj_close" df = true.
Proof.
  unfold add_target, readable. intros H.
  destruct (getf df "adj_close"); [reflexivity|discriminate].
Qed.

(** X12.  [add_targets] returns a table exactly when its input has a
    numeric [adj_close] column: it asks nothing else of the table. *)
Theorem add_targets_returns (df : DataFrame) (cfg : FeatureConfig)
  (which : TargetHorizon) :
  (exists out, add_targets df cfg which = Ok out)
  <-> readable "adj_close" df = true.
Proof.
  split.
  - intros [out H]. unfold add_targets in H. destruct which.
    + destruct (add_target _ _ _ df) as [d1|] eqn:E1; [|discriminate].
      eapply add_target_reads; eauto.
    + cbn [bind] in H.
      destruct (add_target _ _ _ df) as [d1|] eqn:E1; [|discriminate].
      eapply add_target_reads; eauto.
    + destruct (add_target _ _ _ df) as [d1|] eqn:E1; [|discriminate].
      eapply add_target_reads; eauto.
  - intros R. destruct (add_targets_total df cfg which R) as (out & E & _).
    eauto.
Qed.

(** The future return of one horizon: undefined where the ticker has
    fewer than [h] later rows. *)
Lemma add_target_future h fr tg df out :
  String.eqb fr tg = false ->
  add_target h fr tg df = Ok out ->
  exists v,
    getf out fr = Ok v
    /\ forall i, i < nrows df -> rows_after (ticker df) i < h ->
                 nth i v NaN = NaN.
Proof.
  intros Hne H. unfold add_target in H.
  read_column H adj E. rewrite getf_assign_same in H. cbn [bind] in H.
  injection H as <-. eexists. split.
  - rewrite getf_assign_other by assumption. apply getf_assign_same.
  - intros i Hi Ha. rewrite nth_map_nan by reflexivity.
    rewrite nth_map2_nan_l; [reflexivity|reflexivity|].
    rewrite nth_grouped by exact Hi.
    apply nth_shift_back_late.
    pose proof (group_values_length (nth i (ticker df) EmptyString)
                  (ticker df) adj) as L.
    rewrite (count_occ_split (ticker df) i Hi) in L. lia.
Qed.

(** X13.  In the table [add_targets] returns, the future return of a
    horizon is undefined at every row after which the ticker has fewer
    rows than the horizon: the last [h] rows of every ticker. *)
Theorem add_targets_no_future (df : DataFrame) (cfg : FeatureConfig)
  (which : TargetHorizon) (out : DataFrame) :
  add_targets df cfg which = Ok out ->
  (which <> monthly ->
   exists v,
     getf out "future_ret_w" = Ok v
     /\ forall i, i < nrows df ->
                  rows_after (ticker df) i < horizon_weekly cfg ->
                  nth i v NaN = NaN)
  /\ (which <> weekly ->
      exists v,
        getf out "future_ret_m" = Ok v
        /\ forall i, i < nrows df ->
                     rows_after (ticker df) i < horizon_monthly cfg ->
                     nth i v NaN = NaN).
Proof.
  intros H. unfold add_targets in H. destruct which.
  - destruct (add_target _ _ _ df) as [d1|] eqn:E1; cbn [bind] in H;
      [|discriminate].
    injection H as <-. split; [|congruence]. intros _.
    apply (add_target_future _ "future_ret_w" "target_w" _ _ eq_refl E1).
  - cbn [bind] in H.
    destruct (add_target _ _ _ df) as [d1|] eqn:E1; cbn [bind] in H;
      [|discriminate].
    injection H as <-. split; [congruence|]. intros _.
    apply (add_target_future _ "future_ret_m" "target_m" _ _ eq_refl E1).
  - destruct (add_target _ _ _ df) as [d1|] eqn:E1; cbn [bind] in H;
      [|discriminate].
    destruct (add_target _ _ _ d1) as [d2|] eqn:E2; cbn [bind] in H;
      [|discriminate].
    injection H as <-.
    destruct (add_target_writes _ _ _ _ _ E1) as (T1 & _).
    destruct (add_target_writes _ _ _ _ _ E2) as (_ & _ & K2 & _).
    split; intros _.
    + destruct (add_target_future _ "future_ret_w" "target_w" _ _ eq_refl E1) as (v & G & N).
      exists v. split; [|exact N].
      unfold getf in *. rewrite K2; [exact G|].
      simpl. intros [D|[D|[]]]; discriminate D.
    + destruct (add_target_future _ "future_ret_m" "target_m" _ _ eq_refl E2) as (v & G & N).
      exists v. split; [exact G|].
      unfold nrows in *. rewrite T1 in N. exact N.
Qed.

End Labels.

(* ================================================================== *)
(** * Finalizing twice *)
(* ================================================================== *)

Section SortedInput.

Context {K : Type} (leb : K -> K -> bool).

(** Sorting a sorted list leaves it as it is. *)
Lemma isort_of_sorted (l : list K) :
  Sorted (fun a b => leb a b = true) l -> isort leb l = l.
Proof.
  intros S. induction S as [|x l Hs IH Hd]; simpl; auto.
  rewrite IH. destruct Hd as [|y l Hxy]; simpl; auto.
  rewrite Hxy. reflexivity.
Qed.

End SortedInput.

Lemma Sorted_map_inv {A B : Type} (f : A -> B) (R : B -> B -> Prop)
  (l : list A) :
  Sorted R (map f l) -> Sorted (fun a b => R (f a) (f b)) l.
Proof.
  induction l as [|x l IH]; simpl; intros S; constructor;
    inversion S as [|? ? S' Hd]; subst; auto.
  destruct l as [|y l]; constructor. inversion Hd; subst. assumption.
Qed.

Lemma take_seq {A : Type} (d : A) (l : list A) :
  take d (seq 0 (length l)) l = l.
Proof.
  unfold take. rewrite (map_nth_seq (fun x => x) d l). apply map_id.
Qed.

Lemma col_take_seq (c : column) : col_take (seq 0 (col_length c)) c = c.
Proof. destruct c; simpl; rewrite take_seq; reflexivity. Qed.

Lemma take_rows_seq (df : DataFrame) :
  wf_frame df = true -> take_rows (seq 0 (nrows df)) df = df.
Proof.
  rewrite wf_frame_iff. intros [Hd Hc]. destruct df as [t d cols].
  unfold take_rows, nrows in *; cbn [ticker date columns] in *.
  f_equal.
  - apply take_seq.
  - rewrite <- Hd. apply take_seq.
  - induction Hc as [|[nm c] cols Hx Hc IH]; simpl; auto.
    rewrite IH. cbn [snd] in Hx. rewrite <- Hx, col_take_seq. reflexivity.
Qed.

Lemma map_nth_pair {A B : Type} (a : list A) (b : list B) (da : A) (db : B) :
  length a = length b ->
  map (fun i => (nth i a da, nth i b db)) (seq 0 (length a)) = combine a b.
Proof.
  intros Hl.
  rewrite <- (map_id (combine a b)) at 1.
  rewrite <- (map_nth_seq (fun x => x) (da, db) (combine a b)).
  rewrite length_combine, <- Hl, Nat.min_id.
  apply map_ext. intros i. symmetry. apply combine_nth. assumption.
Qed.

Section Twice.

Context {pd : Pandas}.

(** X14.  [finalize_dataset] changes nothing in a table it has returned:
    run on its own output, it returns that output. *)
Theorem finalize_dataset_idempotent (df : DataFrame) (cfg : FeatureConfig)
  (out : DataFrame) :
  wf_frame df = true ->
  finalize_dataset df cfg = Ok out ->
  finalize_dataset out cfg = Ok out.
Proof.
  intros Hwf H. unfold finalize_dataset in H. rewrite for_each_check in H.
  destruct (find (fun c => negb (has_col c df)) (must_have cfg)) as [c|] eqn:F;
    [discriminate|].
  cbn [bind] in H.
  match type of H with
  | Ok ?t = Ok _ => assert (out = t) as Eo by congruence
  end.
  clear H.
  remember (select_rows (notna_mask (must_have cfg) df) df) as df2 eqn:E2
    in *.
  remember (sorted_positions date_ticker_leb (date_ticker_key df2)
              (nrows df2)) as idx eqn:Ei in *.
  assert (wf_frame out = true) as Hout by (rewrite Eo; apply wf_take_rows).
  assert (nrows out = length idx) as Hn.
  { rewrite Eo. unfold nrows, take_rows, take; cbn [ticker]. apply length_map. }
  assert (length (date out) = length idx) as Hd.
  { rewrite Eo. unfold take_rows, take; cbn [date]. apply length_map. }
  assert (forall c, has_col c out = has_col c df) as HC.
  { intros c. rewrite Eo, E2.
    unfold has_col, take_rows, select_rows; cbn [columns].
    rewrite !find_col_map. destruct (find_col c (columns df)); reflexivity. }
  assert (Sorted (fun i j => date_ticker_leb (date_ticker_key df2 i)
                               (date_ticker_key df2 j) = true) idx) as Si.
  { rewrite Ei.
    apply (isort_sorted
             (fun i j => date_ticker_leb (date_ticker_key df2 i)
                           (date_ticker_key df2 j))).
    intros x y. apply date_ticker_leb_total. }
  assert (forall i, In i idx -> In i (seq 0 (nrows df2))) as Pi.
  { intros i Hi. rewrite Ei in Hi.
    apply (Permutation_in i
             (isort_perm (fun a b => date_ticker_leb (date_ticker_key df2 a)
                                       (date_ticker_key df2 b))
                (seq 0 (nrows df2)))).
    exact Hi. }
  assert (rows df2 = filter (row_complete (must_have cfg)) (rows df)) as R2.
  { rewrite E2. rewrite rows_select_rows by auto using notna_mask_length.
    rewrite notna_mask_rows by assumption. apply select_filter. }
  clear Ei E2.
  unfold finalize_dataset. rewrite for_each_check.
  destruct (find (fun c => negb (has_col c out)) (must_have cfg)) as [c|]
    eqn:F'.
  { apply find_some in F'. destruct F' as [Hin Hc].
    pose proof (find_none _ _ F c Hin) as Hdf. cbn beta in Hdf.
    rewrite HC in Hc. congruence. }
  cbn [bind]. apply f_equal.
  assert (notna_mask (must_have cfg) out = repeat true (nrows out)) as ->.
  { rewrite notna_mask_rows by assumption.
    rewrite Eo at 1. rewrite rows_take_rows, map_map.
    rewrite map_all_true; [rewrite Hn; reflexivity|].
    intros i Hi.
    assert (In (row_at df2 i) (rows df2)) as Hr
        by (unfold rows; apply in_map; apply Pi; exact Hi).
    rewrite R2 in Hr. apply filter_In in Hr. apply Hr. }
  rewrite select_rows_all by assumption.
  assert (sorted_positions date_ticker_leb (date_ticker_key out) (nrows out)
          = seq 0 (nrows out)) as ->.
  { unfold sorted_positions. apply isort_of_sorted.
    apply (Sorted_map_inv (date_ticker_key out)
             (fun a b => date_ticker_leb a b = true)).
    unfold date_ticker_key. rewrite Hn, <- Hd.
    rewrite map_nth_pair by (rewrite Hd, <- Hn; reflexivity).
    rewrite Eo. unfold take_rows, take; cbn [ticker date].
    rewrite combine_map_pair.
    apply (Sorted_map_rows (date_ticker_key df2)
             (fun i j => date_ticker_leb (date_ticker_key df2 i)
                           (date_ticker_key df2 j) = true));
      [|exact Si].
    intros x y Hxy. exact Hxy. }
  apply take_rows_seq. assumption.
Qed.

End Twice.

(* ================================================================== *)
(** * The whole pipeline *)
(* ================================================================== *)

Lemma readable_take_rows n idx df :
  readable n df = true -> readable n (take_rows idx df) = true.
Proof.
  intros R. destruct (readable_getf _ _ R) as [v E].
  unfold readable. rewrite (getf_take_rows idx df n v E). reflexivity.
Qed.

Lemma readable_select_rows n m df :
  readable n df = true -> readable n (select_rows m df) = true.
Proof.
  intros R. destruct (readable_getf _ _ R) as [v E].
  unfold readable. rewrite (getf_select m df n v E). reflexivity.
Qed.

Lemma readable_has_col n df : readable n df = true -> has_col n df = true.
Proof.
  unfold readable, has_col, getf.
  destruct (find_col n (columns df)); [reflexivity|discriminate].
Qed.

Section Main.

Context {pd : Pandas}.

(** The table the loader returns has the six columns the feature stage
    reads, as numbers. *)
Lemma load_long_dataset_readable (csv : RawFrame) (df : DataFrame) :
  load_long_dataset csv = Ok df ->
  forall n, In n input_columns -> readable n df = true.
Proof.
  intros H n Hn. unfold load_long_dataset in H.
  destruct (filter _ required_columns) as [|m ms] eqn:F; [|discriminate].
  pose proof (required_present csv F) as Hreq.
  cbv zeta in H.
  read_column H A EA. read_column H C EC.
  rewrite getf_assign_same in H. cbn [bind] in H.
  match type of H with
  | Ok ?t = Ok _ => assert (df = t) as -> by congruence
  end.
  clear H EA EC F.
  apply readable_take_rows.
  unfold readable, getf. cbn [columns assign].
  simpl in Hn.
  destruct Hn as [<-|Hn]; [rewrite find_col_set_same; reflexivity|].
  assert (exists v, raw_find n csv = Some v
                    /\ mem_string n num_cols = true
                    /\ negb (mem_string n ["date"; "ticker"]%string) = true
                    /\ String.eqb n "adj_close" = false) as (v & Hv & Hnum & Hk & Ha).
  { decompose [or] Hn; try contradiction; subst n;
      match goal with
      | |- exists v, raw_find ?c csv = Some v /\ _ =>
          destruct (Hreq c ltac:(simpl; tauto)) as [v Hv];
          exists v; repeat split; exact Hv
      end. }
  rewrite !find_col_set_other by exact Ha.
  rewrite (find_col_of_raw _ _
             (fun n => negb (mem_string n ["date"; "ticker"]%string))
             csv n v Hv Hk).
  cbn [fst snd]. rewrite Hnum. reflexivity.
Qed.

(** With the eight columns in the file, nothing after the loader can
    raise under the default configuration. *)
Lemma main_total (csv : RawFrame) :
  (forall c, In c required_columns -> exists v, raw_find c csv = Some v) ->
  exists out, main csv = Ok out.
Proof.
  intros Hreq. unfold main.
  destruct (load_long_dataset_total csv Hreq) as [df E].
  rewrite E. cbn [bind].
  pose proof (load_long_dataset_readable csv df E) as R.
  set (df1 := filter_min_history df (min_history default_config)).
  assert (forall n, In n input_columns -> readable n df1 = true) as R1.
  { intros n Hn. apply readable_select_rows. auto. }
  assert (rsi_window default_config <> 0 \/ ticker df1 = []) as Hw
      by (left; discriminate).
  pose proof (build_features_runs (ticker df1) default_config Hw) as Rn.
  destruct (Rn df1 eq_refl R1) as (d2 & E2 & T2 & K2 & M2).
  clear Rn.
  rewrite E2. cbn [bind].
  destruct (add_targets_total d2 default_config both) as (d3 & E3 & T3 & K3).
  { apply K2, R1. simpl. tauto. }
  rewrite E3. cbn [bind].
  unfold finalize_dataset. rewrite for_each_check.
  destruct (find (fun c => negb (has_col c d3)) (must_have default_config))
    as [c|] eqn:Fc.
  - apply find_some in Fc. destruct Fc as [Hin Hc].
    assert (has_col c d3 = true) as Hh.
    { apply readable_has_col, K3, M2.
      simpl in Hin. decompose [or] Hin; try contradiction; subst c;
        vm_compute; tauto. }
    rewrite Hh in Hc. discriminate.
  - cbn [bind]. eauto.
Qed.

(** X15.  With the default configuration, the pipeline from the file to
    the final table returns exactly when the file has the eight required
    columns; when it raises, it is the loader's [ValueError] for a
    missing column: no later stage can fail. *)
Theorem main_returns (csv : RawFrame) :
  ((exists out, main csv = Ok out)
   <-> (forall c, In c required_columns -> raw_find c csv <> None))
  /\ (forall e, main csv = Raise e ->
        (exists msg, e = ValueError msg)
        /\ exists c, In c required_columns /\ raw_find c csv = None).
Proof.
  assert (forall e, main csv = Raise e -> load_long_dataset csv = Raise e)
    as Hl.
  { intros e H.
    destruct (load_long_dataset csv) as [df|e'] eqn:E.
    - destruct (main_total csv) as [out Ho]; [|congruence].
      intros c Hc. unfold load_long_dataset in E.
      destruct (filter _ required_columns) as [|m ms] eqn:F; [|discriminate].
      apply (required_present csv F c Hc).
    - unfold main in H. rewrite E in H. exact H. }
  split; [split|].
  - intros [out H] c Hc Hn. unfold main in H.
    destruct (load_long_dataset csv) as [df|] eqn:E; [|discriminate].
    unfold load_long_dataset in E.
    destruct (filter _ required_columns) as [|m ms] eqn:F; [|discriminate].
    destruct (required_present csv F c Hc) as [v Ev]. congruence.
  - intros Hreq. apply main_total. intros c Hc.
    destruct (raw_find c csv) as [v|] eqn:E; [eauto|].
    destruct (Hreq c Hc E).
  - intros e H. apply Hl in H.
    unfold load_long_dataset in H.
    destruct (filter (fun c => negb (is_some (raw_find c csv)))
                required_columns) as [|m ms] eqn:F.
    + destruct (load_long_dataset_total csv (required_present csv F))
        as [out Ho].
      unfold load_long_dataset in Ho. rewrite F in Ho. congruence.
    + split.
      * injection H as <-. unfold missing_columns_error. eauto.
      * exists m.
        assert (In m (filter (fun c => negb (is_some (raw_find c csv)))
                        required_columns)) as Hin
            by (rewrite F; left; reflexivity).
        apply filter_In in Hin. destruct Hin as [Hm Hn]. split; auto.
        destruct (raw_find m csv); [discriminate|reflexivity].
Qed.



End Main.

(* ------------------------------------------------------------------ *)
(** ** Dropping short tickers before the features are computed *)
(* ------------------------------------------------------------------ *)

(** A mask that depends on the ticker only keeps or drops whole
    tickers. *)
Lemma alive_by_key (p : string -> bool) k keys :
  p k = false -> alive k keys (map p keys) = false.
Proof.
  intros Hk. induction keys as [|k' keys IH]; [reflexivity|].
  cbn [map]. rewrite alive_cons, IH.
  destruct (String.eqb k' k) eqn:E; [|reflexivity].
  apply String.eqb_eq in E. subst k'. rewrite Hk. reflexivity.
Qed.

Lemma prefix_closed_by_key (p : string -> bool) keys :
  prefix_closed keys (map p keys) = true.
Proof.
  induction keys as [|k keys IH]; [reflexivity|].
  cbn [map prefix_closed]. rewrite IH.
  destruct (p k) eqn:E; [reflexivity|].
  rewrite alive_by_key by exact E. reflexivity.
Qed.

Lemma scatter_by_key (p : string -> bool) keys rank rank' res res' :
  (forall k, p k = true -> rank k = rank' k) ->
  (forall k, p k = true -> res k = res' k) ->
  select (map p keys) (scatter keys rank res)
  = scatter (select (map p keys) keys) rank' res'.
Proof.
  revert rank rank'.
  induction keys as [|k keys IH]; intros rank rank' Hr Hs; [reflexivity|].
  cbn [map scatter select]. destruct (p k) eqn:E.
  - cbn [scatter]. rewrite (Hr k E), (Hs k E). f_equal.
    apply IH; [|exact Hs].
    intros k0 H0. rewrite (Hr k0 H0). reflexivity.
  - apply IH; [|exact Hs].
    intros k0 H0. destruct (String.eqb k0 k) eqn:E0; [|auto].
    apply String.eqb_eq in E0. subst k0. congruence.
Qed.

Lemma group_values_by_key (p : string -> bool) k keys (col : series) :
  p k = true ->
  group_values k (select (map p keys) keys) (select (map p keys) col)
  = group_values k keys col.
Proof.
  intros Hk. unfold group_values. revert col.
  induction keys as [|k' keys IH]; intros [|v col]; try reflexivity.
  - cbn [map select]. destruct (p k'); [|apply select_nil].
    cbn [map select]. destruct (String.eqb k k'); reflexivity.
  - cbn [map select]. destruct (p k') eqn:E.
    + cbn [map select]. rewrite IH. reflexivity.
    + rewrite IH. destruct (String.eqb k k') eqn:E0; [|reflexivity].
      apply String.eqb_eq in E0. subst k'. congruence.
Qed.

(** A group-wise operation, of any kind, on a selection of whole
    tickers. *)
Lemma grouped_by_key (p : string -> bool) f keys col :
  select (map p keys) (grouped f keys col)
  = grouped f (select (map p keys) keys) (select (map p keys) col).
Proof.
  unfold grouped. apply scatter_by_key; [reflexivity|].
  intros k Hk. rewrite group_values_by_key by exact Hk. reflexivity.
Qed.

Lemma add_target_by_key (p : string -> bool) h fr tg df out :
  add_target h fr tg df = Ok out ->
  add_target h fr tg (select_rows (map p (ticker df)) df)
  = Ok (select_rows (map p (ticker df)) out).
Proof.
  intros H. unfold add_target in *.
  read_column H v1 E1.
  rewrite getf_assign_same in H. cbn [bind] in H. injection H as <-.
  rewrite (getf_select _ _ _ _ E1). cbn [bind ticker select_rows].
  rewrite <- grouped_by_key, <- select_map2, <- select_map.
  rewrite getf_assign_same. cbn [bind].
  rewrite <- select_map, assign_select, assign_select_int. reflexivity.
Qed.

Lemma add_target_ticker h fr tg df out :
  add_target h fr tg df = Ok out -> ticker out = ticker df.
Proof. intros H. apply (add_target_writes h fr tg df out H). Qed.

Lemma add_targets_by_key (p : string -> bool) df cfg which out :
  add_targets df cfg which = Ok out ->
  add_targets (select_rows (map p (ticker df)) df) cfg which
  = Ok (select_rows (map p (ticker df)) out).
Proof.
  intros H. unfold add_targets in *.
  destruct which.
  - destruct (add_target _ _ _ df) as [d1|] eqn:E1; cbn [bind] in H;
      [|discriminate].
    injection H as <-.
    rewrite (add_target_by_key p _ _ _ _ _ E1). reflexivity.
  - cbn [bind] in *.
    destruct (add_target _ _ _ df) as [d1|] eqn:E1; cbn [bind] in H;
      [|discriminate].
    injection H as <-.
    rewrite (add_target_by_key p _ _ _ _ _ E1). reflexivity.
  - destruct (add_target _ _ _ df) as [d1|] eqn:E1; cbn [bind] in H;
      [|discriminate].
    destruct (add_target _ _ _ d1) as [d2|] eqn:E2; cbn [bind] in H;
      [|discriminate].
    injection H as <-.
    rewrite (add_target_by_key p _ _ _ _ _ E1). cbn [bind].
    pose proof (add_target_by_key p _ _ _ _ _ E2) as K.
    rewrite (add_target_ticker _ _ _ _ _ E1) in K.
    rewrite K. reflexivity.
Qed.

Section FilterFirst.

Context {pd : Pandas}.

(** X22.  [main] drops the tickers with too short a history after the
    features and the targets are computed.  Dropping them first gives
    the same table: on a table with one value per row and column, where
    [build_features] and then [add_targets] return, both also return on
    the table [filter_min_history] leaves, and their result is what
    [filter_min_history] leaves of the result on the whole table. *)
Theorem filter_min_history_first df cfg which n feats out :
  wf_frame df = true ->
  build_features df cfg = Ok feats ->
  add_targets feats cfg which = Ok out ->
  build_features (filter_min_history df n) cfg
  = Ok (filter_min_history feats n)
  /\ add_targets (filter_min_history feats n) cfg which
     = Ok (filter_min_history out n).
Proof.
  intros Hwf Hb Ha.
  set (p := fun k => n <=? count_occ string_dec (ticker df) k).
  assert (forall d, ticker d = ticker df ->
                    filter_min_history d n
                    = select_rows (map p (ticker d)) d) as F.
  { intros d Hd. unfold filter_min_history.
    rewrite map_map, Hd. reflexivity. }
  destruct (build_features_writes cfg df feats Hb) as (Tf & _).
  assert (ticker out = ticker df) as To.
  { destruct (add_targets_writes cfg which feats out Ha) as (T & _).
    congruence. }
  rewrite (F df eq_refl), (F feats Tf), (F out To).
  split.
  - rewrite Tf.
    apply (build_features_commutes (map p (ticker df)) cfg df feats);
      [|exact Hb].
    split; [exact Hwf|]. split.
    + unfold nrows. apply length_map.
    + apply prefix_closed_by_key.
  - rewrite To, <- Tf. apply add_targets_by_key. exact Ha.
Qed.

End FilterFirst.

(* ------------------------------------------------------------------ *)
(** ** The logarithm of the volume *)
(* ------------------------------------------------------------------ *)

Section LogVolume.

Context {pd : Pandas}.

(** X23.  Where [build_features] returns, the column [logvol] of the
    result has one value per value of the input column [volume]; it is
    never minus infinity; it is undefined where the volume is zero; and
    it is plus infinity only where the volume is. *)
Theorem build_features_logvol df cfg out :
  build_features df cfg = Ok out ->
  exists volume logvol,
    getf df "volume" = Ok volume
    /\ getf out "logvol" = Ok logvol
    /\ Forall2 (fun v l =>
                  l <> NInf
                  /\ (feqb v fzero = true -> l = NaN)
                  /\ (l = PInf -> v = PInf))
         volume logvol.
Proof.
  intros H.
  destruct (build_features_blocks df cfg out H)
    as (d5 & d6 & d7 & R5 & E6 & _ & E7 & _ & E8).
  pose proof (unwritten_column _ _ _ _ "logvol"
                (add_rsi_writes (rsi_window cfg)) E8) as K8.
  pose proof (unwritten_column _ _ _ _ "logvol"
                add_intraday_range_writes E7) as K7.
  unfold add_volume_zscore in E6.
  read_column E6 volume V.
  rewrite !getf_assign_same in E6. cbn [bind] in E6.
  read_column E6 t1 T1. read_column E6 t2 T2.
  exists volume, (map flog (replace_zero volume)).
  split; [|split].
  - unfold getf in *. rewrite <- (R5 "volume"%string) by (simpl; tauto).
    exact V.
  - unfold getf. rewrite K8, K7.
    + assert (d6 = assign
                     (assign d5 "logvol"
                        (ColF (map flog (replace_zero volume))))
                     "logvol_z_63"
                     (ColF
                        (map2 fdiv
                           (map2 fsub (map flog (replace_zero volume)) t1)
                           t2))) as -> by congruence.
      change (getf
                (assign
                   (assign d5 "logvol"
                      (ColF (map flog (replace_zero volume))))
                   "logvol_z_63"
                   (ColF
                      (map2 fdiv
                         (map2 fsub (map flog (replace_zero volume)) t1)
                         t2))) "logvol"
              = Ok (map flog (replace_zero volume))).
      rewrite getf_assign_other by reflexivity.
      apply getf_assign_same.
    + simpl. intros [K|[K|[]]]; discriminate K.
    + unfold rsi_name. simpl. intros [K|[]]. discriminate K.
  - unfold replace_zero. clear.
    induction volume as [|v volume IH]; cbn [map]; constructor; [|exact IH].
    destruct v as [| | |q]; cbn; try (repeat split; congruence).
    unfold feqb, fzero.
    destruct (Qeq_bool q 0) eqn:E; cbn.
    + repeat split; congruence.
    + rewrite E. destruct (Qltb q 0); unfold fin;
        repeat split; congruence.
Qed.

End LogVolume.

(* ================================================================== *)
(** * [fetch_ohlcv] *)
(* ================================================================== *)

Lemma nat_last_leb_total a b :
  nat_last_leb a b = true \/ nat_last_leb b a = true.
Proof.
  destruct a as [x|], b as [y|]; simpl; auto.
  destruct (Z.leb_spec x y); [left; reflexivity|right].
  apply Z.leb_le. lia.
Qed.

Lemma nat_last_leb_trans a b c :
  nat_last_leb a b = true -> nat_last_leb b c = true ->
  nat_last_leb a c = true.
Proof.
  destruct a as [x|], b as [y|], c as [z|]; simpl; auto; try discriminate.
  rewrite !Z.leb_le. lia.
Qed.

(** A library instance for running the model: a stable sort, and epochs
    given as numbers. *)
Definition insertion_dates : PandasDates := {|
  datetime_of_epoch :=
    fun c => match c with
             | RNum (Fin q) => Some (Qfloor q)
             | _ => None
             end;
  argsort :=
    fun l => isort (fun i j => nat_last_leb (nth i l None) (nth j l None))
               (seq 0 (length l));
  argsort_perm :=
    fun l => isort_perm
               (fun i j => nat_last_leb (nth i l None) (nth j l None))
               (seq 0 (length l));
  argsort_sorted :=
    fun l => isort_sorted
               (fun i j => nat_last_leb (nth i l None) (nth j l None))
               (fun x y => nat_last_leb_total _ _)
               (seq 0 (length l))
|}.

Lemma StronglySorted_select {A : Type} (R : A -> A -> Prop) (m : list bool)
  (l : list A) :
  StronglySorted R l -> StronglySorted R (select m l).
Proof.
  intros S. revert m. induction S as [|x l Hl IH Hx]; intros [|b m]; simpl;
    try constructor.
  destruct b; [|apply IH].
  constructor; [apply IH|].
  clear -Hx. revert m. induction Hx as [|y l Hy Hx IH]; intros [|b m]; simpl;
    auto.
  destruct b; auto.
Qed.

Lemma Forall_select {A : Type} (P : A -> Prop) (m : list bool) (l : list A) :
  Forall P l -> Forall P (select m l).
Proof.
  intros F. revert m. induction F as [|x l Hx F IH]; intros [|b m]; simpl;
    auto.
  destruct b; auto.
Qed.

(** What a mask built from a test lets through passes the test. *)
Lemma select_passes {A : Type} (p : A -> bool) (a : list bool) (l : list A) :
  Forall (fun x => p x = true) (select (map2 andb a (map p l)) l).
Proof.
  revert a. induction l as [|x l IH]; intros [|b a]; simpl; auto.
  destruct b, (p x) eqn:E; simpl; auto.
Qed.

Lemma select_passes_l {A : Type} (p : A -> bool) (l : list A)
  (b : list bool) :
  Forall (fun x => p x = true) (select (map2 andb (map p l) b) l).
Proof.
  revert b. induction l as [|x l IH]; intros [|c b]; simpl; auto.
  destruct (p x) eqn:E, c; simpl; auto.
Qed.

Section FetchOne.

Context {pd : Pandas} {pdd : PandasDates}.

(** The dates of a history, read and put in order. *)
Lemma sorted_dates (dates : list (option Z)) :
  StronglySorted (fun a b => nat_last_leb a b = true)
    (take None (argsort dates) dates).
Proof.
  apply Sorted_StronglySorted.
  - intros a b c. apply nat_last_leb_trans.
  - unfold take.
    apply (Sorted_map_rows (fun i => nth i dates None)
             (fun i j => nat_last_leb (nth i dates None) (nth j dates None)
                         = true)).
    + intros x y H. exact H.
    + apply argsort_sorted.
Qed.

Lemma kept_dates_ascend (l : list (option Z)) (m : list bool) :
  StronglySorted (fun a b => nat_last_leb a b = true) l ->
  StronglySorted Z.le
    (map (fun d => match d with Some z => z | None => 0%Z end)
       (select (map2 andb (map is_some l) m) l)).
Proof.
  intros S.
  pose proof (select_passes_l (@is_some Z) l m) as P.
  pose proof (StronglySorted_select _ (map2 andb (map is_some l) m) l S) as S'.
  revert P S'. generalize (select (map2 andb (map is_some l) m) l).
  intros k P S'. induction S' as [|x k Hk IH Hx]; simpl; constructor.
  - apply IH. inversion P; assumption.
  - inversion P as [|? ? Px Pk]; subst.
    apply Forall_map. rewrite Forall_forall in *. intros y Hy.
    specialize (Hx y Hy). specialize (Pk y Hy).
    destruct x as [x|]; [|discriminate]. destruct y as [y|]; [|discriminate].
    simpl in Hx. apply Z.leb_le. exact Hx.
Qed.

(** The frame built from a history: its columns, its [close] values and
    its dates. *)
Lemma frame_of_history_clean (hist : list Bar) :
  map fst (o_columns (frame_of_history hist))
  = ["open"; "high"; "low"; "close"; "volume"; "adjustedClose"]%string
  /\ Forall (fun nc => length (snd nc) = length (o_date (frame_of_history hist)))
       (o_columns (frame_of_history hist))
  /\ (forall close, In ("close"%string, close)
                      (o_columns (frame_of_history hist)) ->
                    Forall (fun x => notna x = true) close)
  /\ StronglySorted Z.le (o_date (frame_of_history hist)).
Proof.
  unfold frame_of_history. cbn [o_date o_columns].
  set (dates := map (fun b => match bar_date b with
                               | Some c => datetime_of_epoch c
                               | None => None
                               end) hist).
  split; [reflexivity|]. split; [|split].
  - apply Forall_map, Forall_forall. intros nf _. cbn [snd].
    rewrite length_map. apply select_length_eq.
    unfold take. rewrite !length_map. reflexivity.
  - intros close Hin. unfold numeric_fields in Hin.
    cbn [map In fst snd] in Hin.
    repeat (destruct Hin as [Hin|Hin];
            [ inversion Hin; subst; apply select_passes | ]).
    contradiction.
  - apply kept_dates_ascend. apply sorted_dates.
Qed.

Lemma fetch_ohlcv_history (ticker : string) (reply : Reply) (df : Ohlcv) :
  fetch_ohlcv ticker reply = Got _ _ df ->
  exists hist, df = frame_of_history hist.
Proof.
  intros H. unfold fetch_ohlcv in H.
  destruct reply as [msg|[[|first rest]|]]; try discriminate.
  destruct (historicalDataPrice first) as [[|b hist]|]; try discriminate.
  injection H as <-. eauto.
Qed.

(** X17.  The frame [fetch_ohlcv] returns has the six numeric columns
    [open], [high], [low], [close], [volume], [adjustedClose], each with
    one value per date; no [close] in it is undefined, also where the
    value received was a text that is no number; and its dates ascend. *)
Theorem fetch_ohlcv_clean (ticker : string) (reply : Reply) (df : Ohlcv) :
  fetch_ohlcv ticker reply = Got _ _ df ->
  map fst (o_columns df)
  = ["open"; "high"; "low"; "close"; "volume"; "adjustedClose"]%string
  /\ Forall (fun nc => length (snd nc) = length (o_date df)) (o_columns df)
  /\ (forall close, In ("close"%string, close) (o_columns df) ->
                    Forall (fun x => notna x = true) close)
  /\ StronglySorted Z.le (o_date df).
Proof.
  intros H. destruct (fetch_ohlcv_history _ _ _ H) as [hist ->].
  apply frame_of_history_clean.
Qed.

Lemma Permutation_filter_same {A : Type} (p : A -> bool) (l l' : list A) :
  Permutation l l' -> Permutation (filter p l) (filter p l').
Proof.
  intros P. induction P as [|x l l' P IH|x y l|l l' l'' P1 IH1 P2 IH2];
    simpl; auto.
  - destruct (p x); auto.
  - destruct (p x), (p y); auto. apply perm_swap.
  - eapply perm_trans; eauto.
Qed.

Lemma filter_map_swap {A B : Type} (q : B -> bool) (g : A -> B) (l : list A) :
  filter q (map g l) = map g (filter (fun x => q (g x)) l).
Proof.
  induction l as [|x l IH]; simpl; auto.
  destruct (q (g x)); simpl; rewrite IH; reflexivity.
Qed.

Lemma nth_map_in {A B : Type} (g : A -> B) (l : list A) (k : nat) (d : A)
  (d' : B) :
  k < length l -> nth k (map g l) d' = g (nth k l d).
Proof.
  intros Hk. rewrite (nth_indep _ d' (g d)) by (rewrite length_map; exact Hk).
  apply map_nth.
Qed.

(** Rows read off columns that are given by position. *)
Lemma rows_of_columns (K : list nat) (g : nat -> Z)
  (cols : list (string * (nat -> f64))) :
  map (fun k => (nth k (map g K) 0%Z,
                 map (fun nc => nth k (snd nc) NaN)
                   (map (fun c => (fst c, map (snd c) K)) cols)))
    (seq 0 (length (map g K)))
  = map (fun i => (g i, map (fun c => snd c i) cols)) K.
Proof.
  rewrite length_map.
  rewrite <- (map_nth_seq (fun i => (g i, map (fun c => snd c i) cols)) 0 K).
  apply map_ext_in. intros k Hk. apply in_seq in Hk.
  rewrite (nth_map_in g K k 0) by lia. f_equal.
  rewrite map_map. apply map_ext. intros c. cbn [snd].
  apply nth_map_in. lia.
Qed.

(** X18.  [fetch_ohlcv] neither loses nor invents a row: the rows of the
    frame it returns are, up to their order, the bars of the history
    that have a readable date and a numeric [close], each with its date
    and its six numbers. *)
Theorem fetch_ohlcv_rows (ticker : string) (first : Quote)
  (rest : list Quote) (hist : list Bar) (df : Ohlcv) :
  historicalDataPrice first = Some hist ->
  fetch_ohlcv ticker (Payload (Some (first :: rest))) = Got _ _ df ->
  Permutation (ohlcv_rows df)
    (map dated (filter row_kept (map bar_row hist))).
Proof.
  intros Hh H. unfold fetch_ohlcv in H. rewrite Hh in H.
  assert (df = frame_of_history hist) as ->
      by (destruct hist; [discriminate|congruence]).
  clear H Hh.
  set (f := fun i => bar_row (nth i hist empty_bar)).
  set (dates := map (fun b => match bar_date b with
                               | Some c => datetime_of_epoch c
                               | None => None
                               end) hist).
  set (order := argsort dates).
  set (K := filter (fun i => row_kept (f i)) order).
  assert (take None order dates = map (fun i => fst (f i)) order) as Ed.
  { unfold take, dates. apply map_ext. intros i.
    apply (map_nth (fun b => match bar_date b with
                             | Some c => datetime_of_epoch c
                             | None => None
                             end) hist empty_bar i). }
  assert (forall nf, In nf numeric_fields ->
            map to_numeric
              (take (RNum NaN) order (map (fun b => cell_of (snd nf b)) hist))
            = map (fun i => to_numeric
                              (cell_of (snd nf (nth i hist empty_bar))))
                order) as En.
  { intros nf Hnf. unfold take. rewrite map_map. apply map_ext. intros i.
    f_equal.
    assert (cell_of (snd nf empty_bar) = RNum NaN) as <-.
    { unfold numeric_fields in Hnf. simpl in Hnf.
      decompose [or] Hnf; try contradiction; subst nf; reflexivity. }
    apply (map_nth (fun b => cell_of (snd nf b)) hist empty_bar i). }
  assert (ohlcv_rows (frame_of_history hist) = map (fun i => dated (f i)) K)
    as ->.
  { unfold ohlcv_rows, frame_of_history. cbn [o_date o_columns].
    fold dates. fold order.
    assert (map2 andb (map is_some (take None order dates))
              (map notna
                 (map to_numeric
                    (take (RNum NaN) order
                       (map (fun b => cell_of (bar_close b)) hist))))
            = map (fun i => row_kept (f i)) order) as ->.
    { rewrite Ed.
      pose proof (En ("close"%string, bar_close) ltac:(simpl; tauto)) as Ec.
      cbn [snd] in Ec. rewrite Ec.
      rewrite !map_map. apply map2_map_same. }
    rewrite Ed, select_map, select_filter. fold K. rewrite map_map.
    assert (map (fun nf => (fst nf,
                            select (map (fun i => row_kept (f i)) order)
                              (map to_numeric
                                 (take (RNum NaN) order
                                    (map (fun b => cell_of (snd nf b)) hist)))))
              numeric_fields
            = map (fun c => (fst c, map (snd c) K))
                (map (fun nf => (fst nf,
                                 fun i => to_numeric
                                            (cell_of
                                               (snd nf (nth i hist empty_bar)))))
                   numeric_fields)) as ->.
    { rewrite map_map. apply map_ext_in. intros nf Hnf. cbn [fst snd].
      rewrite (En nf Hnf), select_map, select_filter. reflexivity. }
    rewrite (rows_of_columns K
               (fun i => match fst (f i) with Some z => z | None => 0%Z end)).
    apply map_ext. intros i. unfold dated, f, bar_row. cbn [fst snd].
    rewrite map_map. reflexivity. }
  assert (map bar_row hist = map f (seq 0 (length dates))) as ->.
  { unfold dates. rewrite length_map. unfold f.
    symmetry. apply (map_nth_seq bar_row empty_bar hist). }
  rewrite filter_map_swap, map_map.
  apply Permutation_map. unfold K. apply Permutation_filter_same.
  apply argsort_perm.
Qed.

End FetchOne.

(* ================================================================== *)
(** * [fetch_many] *)
(* ================================================================== *)

Section FetchMany.

Context {pd : Pandas} {pdd : PandasDates}.

(** The loop, turn by turn. *)
Lemma fetch_loop (out_dir : string) (calls : list (string * Reply))
  (st : LoopState) :
  fold_left (fetch_step out_dir) calls st
  = {| all_frames :=
         all_frames st
         ++ map (fun p => long_frame (fst p) (snd p)) (fetched_frames calls);
       failures := failures st ++ failed_calls calls;
       written := written st ++ map (ticker_file out_dir) (fetched_frames calls)
    |}.
Proof.
  revert st. induction calls as [|c calls IH]; intros st; simpl.
  - rewrite !app_nil_r. destruct st; reflexivity.
  - rewrite IH. unfold fetch_step.
    destruct (fetch_ohlcv (fst c) (snd c)) as [df|e]; simpl;
      rewrite <- ?app_assoc; reflexivity.
Qed.

Lemma calls_split (calls : list (string * Reply)) :
  length (fetched_frames calls) + length (failed_calls calls) = length calls.
Proof.
  induction calls as [|c calls IH]; simpl; auto.
  unfold fetched_frames, failed_calls in *. simpl.
  destruct (fetch_ohlcv (fst c) (snd c)); simpl; rewrite ?length_app; simpl;
    lia.
Qed.

Lemma no_frame_all_failed (calls : list (string * Reply)) :
  fetched_frames calls = [] <->
  Forall (fun c => exists e, fetch_ohlcv (fst c) (snd c) = Failed _ _ e) calls.
Proof.
  induction calls as [|c calls IH]; simpl.
  - split; auto.
  - unfold fetched_frames in *. simpl.
    destruct (fetch_ohlcv (fst c) (snd c)) as [df|e] eqn:E; simpl.
    + split; [discriminate|]. intros F. inversion F as [|? ? [e He] _]; subst.
      congruence.
    + rewrite IH. split; intros F.
      * constructor; eauto.
      * inversion F; assumption.
Qed.

(** X19.  [fetch_many] raises its [RuntimeError] exactly when the request
    of every ticker fails (in particular when there is no ticker); the
    example it shows is then the first failure, if there is one. *)
Theorem fetch_many_raises (calls : list (string * Reply))
  (out_dir consolidated_filename : string) :
  ((exists e, fetch_many calls out_dir consolidated_filename = Failed _ _ e)
   <-> Forall (fun c => exists e, fetch_ohlcv (fst c) (snd c) = Failed _ _ e)
         calls)
  /\ (forall e, fetch_many calls out_dir consolidated_filename = Failed _ _ e ->
        e = RuntimeError (firstn 1 (failed_calls calls)))
  /\ (fetch_many [] out_dir consolidated_filename
      = Failed _ _ (RuntimeError [])).
Proof.
  unfold fetch_many. rewrite fetch_loop. cbn [all_frames failures app].
  rewrite <- no_frame_all_failed.
  destruct (fetched_frames calls) as [|p ps] eqn:E; cbn [map].
  - split; [split; eauto|]. split; [|reflexivity].
    intros e H. congruence.
  - split; [split|split; [|reflexivity]].
    + intros [e H]. discriminate.
    + discriminate.
    + intros e H. discriminate.
Qed.

End FetchMany.

Lemma select_head_mask {A : Type} (l : list A) na nb :
  select (repeat true na ++ repeat false nb) l = firstn na l.
Proof.
  revert l. induction na as [|na IH]; intros l; simpl.
  - apply select_none.
  - destruct l as [|x l]; simpl; [reflexivity|]. rewrite IH. reflexivity.
Qed.

Lemma select_tail_mask {A : Type} (l : list A) na nb :
  length l = na + nb ->
  select (repeat false na ++ repeat true nb) l = skipn na l.
Proof.
  revert l. induction na as [|na IH]; intros l H; simpl.
  - simpl in H. rewrite <- H. apply select_all.
  - destruct l as [|x l]; simpl in *; [reflexivity|]. apply IH. lia.
Qed.

Lemma flat_map_of_map {A B C : Type} (h : A -> B) (g : B -> list C)
  (l : list A) :
  flat_map g (map h l) = flat_map (fun x => g (h x)) l.
Proof. induction l as [|x l IH]; simpl; congruence. Qed.

Lemma rows_length df : length (rows df) = nrows df.
Proof. unfold rows. rewrite length_map, length_seq. reflexivity. Qed.

(** The rows of two stacked tables are the rows of the first and then
    those of the second. *)
Lemma rows_concat_rows a b :
  wf_frame a = true -> wf_frame b = true -> schema a = schema b ->
  rows (concat_rows a b) = rows a ++ rows b.
Proof.
  intros Wa Wb Hs.
  pose proof (wf_concat_rows a b Wa Wb Hs) as Wc.
  assert (nrows (concat_rows a b) = nrows a + nrows b) as Hn
      by (unfold nrows, concat_rows; cbn [ticker]; apply length_app).
  rewrite <- (firstn_skipn (nrows a) (rows (concat_rows a b))).
  f_equal.
  - rewrite <- (select_head_mask _ (nrows a) (nrows b)).
    rewrite <- rows_select_rows
      by (auto; rewrite length_app, !repeat_length; auto).
    rewrite select_rows_concat_head by assumption. reflexivity.
  - rewrite <- (select_tail_mask _ (nrows a) (nrows b))
      by (rewrite rows_length; exact Hn).
    rewrite <- rows_select_rows
      by (auto; rewrite length_app, !repeat_length; auto).
    rewrite select_rows_concat_tail by assumption. reflexivity.
Qed.

Lemma schema_concat_rows a b :
  schema a = schema b -> schema (concat_rows a b) = schema a.
Proof.
  unfold schema, concat_rows; cbn [columns].
  generalize (columns a) (columns b).
  induction l as [|[n c] ca IH]; intros [|[n' c'] cb] H; simpl in *;
    try discriminate; auto.
  injection H as Hn Hd H. rewrite (IH cb H). f_equal. f_equal.
  destruct c, c'; simpl in *; try discriminate; reflexivity.
Qed.

Lemma long_format_concat a b :
  long_format a -> long_format b -> long_format (concat_rows a b).
Proof.
  intros (Wa & Sa & ca & Ga & Fa) (Wb & Sb & cb & Gb & Fb).
  assert (schema a = schema b) as Hs by congruence.
  split; [apply wf_concat_rows; assumption|].
  split; [rewrite schema_concat_rows; assumption|].
  exists (ca ++ cb). split; [apply getf_concat; assumption|].
  apply Forall_app. auto.
Qed.

(** What stacking a list of tables of the long format leaves. *)
Lemma stack_long_format (others : list DataFrame) (first : DataFrame) :
  long_format first -> Forall long_format others ->
  long_format (fold_left concat_rows others first)
  /\ rows (fold_left concat_rows others first)
     = rows first ++ flat_map rows others.
Proof.
  intros Hf Ho. revert first Hf.
  induction Ho as [|x others Hx Ho IH]; intros first Hf; simpl.
  - rewrite app_nil_r. auto.
  - destruct (IH (concat_rows first x) (long_format_concat _ _ Hf Hx))
      as [L R].
    split; [exact L|]. rewrite R.
    destruct Hf as (Wf & Sf & _). destruct Hx as (Wx & Sx & _).
    rewrite rows_concat_rows by congruence.
    rewrite <- app_assoc. reflexivity.
Qed.

Section FetchManyTable.

Context {pd : Pandas} {pdd : PandasDates}.

Lemma long_frame_format (t : string) (hist : list Bar) :
  long_format (long_frame t (frame_of_history hist)).
Proof.
  destruct (frame_of_history_clean hist) as (Hn & Hl & Hc & _).
  split; [|split].
  - apply wf_frame_iff. unfold long_frame, nrows; cbn [ticker date columns].
    rewrite repeat_length. split; [reflexivity|].
    apply Forall_map. revert Hl. apply Forall_impl. intros [n c] H. exact H.
  - unfold schema, long_frame, frame_of_history, long_schema;
      cbn [columns o_columns]. rewrite !map_map. reflexivity.
  - eexists. split.
    + unfold getf, long_frame, frame_of_history, numeric_fields;
        cbn [columns o_columns map find_col fst snd String.eqb Ascii.eqb
             Bool.eqb].
      reflexivity.
    + apply select_passes.
Qed.

Lemma fetched_frames_format (calls : list (string * Reply)) :
  Forall long_format
    (map (fun p => long_frame (fst p) (snd p)) (fetched_frames calls)).
Proof.
  apply Forall_map. unfold fetched_frames. apply Forall_forall.
  intros [t df] Hin. apply in_flat_map in Hin.
  destruct Hin as (c & _ & Hc).
  destruct (fetch_ohlcv (fst c) (snd c)) as [df'|e] eqn:E; simpl in Hc;
    [|contradiction].
  destruct Hc as [Hc|[]]. injection Hc as <- <-.
  destruct (fetch_ohlcv_history _ _ _ E) as [hist ->].
  apply long_frame_format.
Qed.

(** The table put in order of (date, ticker). *)
Lemma sorted_long_format (df : DataFrame) :
  long_format df ->
  long_format
    (take_rows
       (sorted_positions date_ticker_leb (date_ticker_key df) (nrows df)) df)
  /\ StronglySorted (fun a b => row_leb a b = true)
       (rows (take_rows
                (sorted_positions date_ticker_leb (date_ticker_key df)
                   (nrows df)) df))
  /\ Permutation
       (rows (take_rows
                (sorted_positions date_ticker_leb (date_ticker_key df)
                   (nrows df)) df))
       (rows df).
Proof.
  intros (W & S & close & G & F).
  set (idx := sorted_positions date_ticker_leb (date_ticker_key df) (nrows df)).
  assert (Permutation idx (seq 0 (nrows df))) as P.
  { apply (isort_perm (fun a b => date_ticker_leb (date_ticker_key df a)
                                    (date_ticker_key df b))). }
  split; [split; [apply wf_take_rows|split] | split].
  - rewrite <- S. unfold schema, take_rows; cbn [columns].
    rewrite map_map. apply map_ext. intros [n c]. cbn [fst snd].
    destruct c; reflexivity.
  - exists (take NaN idx close). split; [apply getf_take_rows; exact G|].
    unfold take. apply Forall_map, Forall_forall. intros i Hi.
    apply (Permutation_in i P) in Hi. apply in_seq in Hi.
    rewrite Forall_forall in F. apply F, nth_In.
    rewrite (getf_length _ _ _ W G). lia.
  - rewrite rows_take_rows.
    apply Sorted_StronglySorted.
    { intros x y z. unfold row_leb. apply date_ticker_leb_trans. }
    apply (Sorted_map_rows (row_at df)
             (fun i j => date_ticker_leb (date_ticker_key df i)
                           (date_ticker_key df j) = true)).
    { intros x y Hxy. exact Hxy. }
    apply (isort_sorted
             (fun i j => date_ticker_leb (date_ticker_key df i)
                           (date_ticker_key df j))).
    intros x y. apply date_ticker_leb_total.
  - rewrite rows_take_rows. unfold rows. apply Permutation_map. exact P.
Qed.

(** X20.  When [fetch_many] returns, the failures it recorded are the
    tickers whose request failed, in order, each with its exception;
    every ticker is among the frames or among the failures; and the
    files written are one per ticker that gave a frame, in order, then
    the consolidated file with the table returned, then the list of
    failures if there is any. *)
Theorem fetch_many_books (calls : list (string * Reply))
  (out_dir consolidated_filename : string) (res : Fetched) :
  fetch_many calls out_dir consolidated_filename = Got _ _ res ->
  failed res = failed_calls calls
  /\ length (fetched_frames calls) + length (failed res) = length calls
  /\ files res
     = map (ticker_file out_dir) (fetched_frames calls)
       ++ [(path_join out_dir consolidated_filename, LongCsv (combined res))]
       ++ match failed res with
          | [] => []
          | _ :: _ =>
              [(path_join out_dir "failures_top40.txt",
                FailureLog (failed res))]
          end.
Proof.
  unfold fetch_many. rewrite fetch_loop. cbn [all_frames failures written app].
  destruct (map _ (fetched_frames calls)) as [|first others] eqn:E;
    [discriminate|].
  intros H. injection H as <-. cbn [failed files combined].
  split; [reflexivity|]. split; [apply calls_split|].
  destruct (failed_calls calls); [|rewrite <- app_assoc]; reflexivity.
Qed.

(** X21.  The table [fetch_many] returns has one value per row in every
    column; with [date] and [ticker] its columns are exactly the eight
    columns [load_long_dataset] requires; no [close] in it is undefined;
    its rows are in ascending order of (date, ticker); and they are, up
    to their order, the rows of the frames fetched, each with its
    ticker. *)
Theorem fetch_many_table (calls : list (string * Reply))
  (out_dir consolidated_filename : string) (res : Fetched) :
  fetch_many calls out_dir consolidated_filename = Got _ _ res ->
  wf_frame (combined res) = true
  /\ ("date" :: "ticker" :: column_names (combined res))%string
     = required_columns
  /\ (exists close,
        getf (combined res) "close" = Ok close
        /\ Forall (fun x => notna x = true) close)
  /\ StronglySorted (fun a b => row_leb a b = true) (rows (combined res))
  /\ Permutation (rows (combined res))
       (flat_map (fun p => rows (long_frame (fst p) (snd p)))
          (fetched_frames calls)).
Proof.
  unfold fetch_many. rewrite fetch_loop. cbn [all_frames failures written app].
  pose proof (fetched_frames_format calls) as FF.
  rewrite <- (flat_map_of_map (fun p => long_frame (fst p) (snd p)) rows).
  destruct (map _ (fetched_frames calls)) as [|first others];
    [discriminate|].
  intros H. injection H as <-. cbn [combined].
  inversion FF as [|? ? Hf Ho]; subst.
  destruct (stack_long_format others first Hf Ho) as [L R].
  destruct (sorted_long_format _ L) as ((W & S & C) & So & P).
  split; [exact W|]. split; [|split; [exact C|split; [exact So|]]].
  - unfold column_names.
    assert (forall d, schema d = long_schema ->
              map fst (columns d)
              = ["open"; "high"; "low"; "close"; "volume"; "adjustedClose"]%string)
      as Hc.
    { intros d Hd.
      transitivity (map fst (schema d)).
      - unfold schema. rewrite map_map. reflexivity.
      - rewrite Hd. reflexivity. }
    rewrite (Hc _ S). reflexivity.
  - eapply perm_trans; [exact P|]. rewrite R. apply Permutation_refl.
Qed.

End FetchManyTable.

(* ================================================================== *)
(** * The additional properties on the sample tables *)
(* ================================================================== *)

Lemma filter_min_history_rows_witness :
  rows (filter_min_history demo_table 4)
  = filter (fun r => 4 <=? count_occ string_dec (ticker demo_table)
                             (r_ticker r))
      (rows demo_table)
  /\ column_names (filter_min_history demo_table 4) = column_names demo_table.
Proof. apply (filter_min_history_rows demo_table 4). reflexivity. Defined.

Lemma filter_min_history_idempotent_witness :
  filter_min_history (filter_min_history demo_table 4) 4
  = filter_min_history demo_table 4.
Proof. apply (filter_min_history_idempotent demo_table 4). reflexivity. Defined.

Lemma stages_keep_one_value_per_row_witness :
  (forall out, @build_features toy_pandas demo_table demo_config = Ok out ->
     wf_frame out = true /\ nrows out = nrows demo_table)
  /\ (forall out, add_targets demo_table demo_config both = Ok out ->
        wf_frame out = true /\ nrows out = nrows demo_table).
Proof.
  apply (@stages_keep_one_value_per_row toy_pandas demo_table demo_config both).
  reflexivity.
Defined.

Lemma build_features_rsi_warm_up_witness :
  exists rsi,
    getf demo_features (rsi_name (rsi_window demo_config)) = Ok rsi
    /\ forall i, i < nrows demo_table ->
                 rows_before (ticker demo_table) i < rsi_window demo_config ->
                 nth i rsi NaN = NaN.
Proof.
  apply (@build_features_rsi_warm_up toy_pandas demo_table demo_config).
  vm_compute. reflexivity.
Defined.

Lemma build_features_no_return_across_tickers_witness :
  exists ret logret,
    getf demo_features "ret_1d" = Ok ret
    /\ getf demo_features "logret_1d" = Ok logret
    /\ forall i, i < nrows demo_table ->
                 rows_before (ticker demo_table) i = 0 ->
                 nth i ret NaN = NaN /\ nth i logret NaN = NaN.
Proof.
  apply (@build_features_no_return_across_tickers toy_pandas demo_table
           demo_config).
  vm_compute. reflexivity.
Defined.

Lemma add_targets_no_future_witness :
  (both <> monthly ->
   exists v,
     getf (run_or labels_table (add_targets labels_table default_config both))
       "future_ret_w" = Ok v
     /\ forall i, i < nrows labels_table ->
                  rows_after (ticker labels_table) i
                  < horizon_weekly default_config ->
                  nth i v NaN = NaN)
  /\ (both <> weekly ->
      exists v,
        getf (run_or labels_table
                (add_targets labels_table default_config both))
          "future_ret_m" = Ok v
        /\ forall i, i < nrows labels_table ->
                     rows_after (ticker labels_table) i
                     < horizon_monthly default_config ->
                     nth i v NaN = NaN).
Proof.
  apply (add_targets_no_future labels_table default_config both).
  vm_compute. reflexivity.
Defined.

Lemma finalize_dataset_idempotent_witness :
  finalize_dataset sample_final default_config = Ok sample_final.
Proof.
  apply (finalize_dataset_idempotent final_table default_config).
  - reflexivity.
  - vm_compute. reflexivity.
Defined.


Lemma filter_min_history_first_witness :
  @build_features toy_pandas (filter_min_history demo_table 4) demo_config
  = Ok (filter_min_history demo_features 4)
  /\ add_targets (filter_min_history demo_features 4) demo_config both
     = Ok (filter_min_history demo_targets 4).
Proof.
  apply (@filter_min_history_first toy_pandas demo_table demo_config both 4
           demo_features demo_targets);
    vm_compute; reflexivity.
Defined.

Lemma build_features_logvol_witness :
  exists volume logvol,
    getf demo_table "volume" = Ok volume
    /\ getf demo_features "logvol" = Ok logvol
    /\ Forall2 (fun v l =>
                  l <> NInf
                  /\ (feqb v fzero = true -> l = NaN)
                  /\ (l = PInf -> v = PInf))
         volume logvol.
Proof.
  apply (@build_features_logvol toy_pandas demo_table demo_config).
  vm_compute. reflexivity.
Defined.

Definition brapi_history : list Bar :=
  [mkBar (Some (RNum (zf 300))) (Some (RNum (zf 10))) (Some (RNum (zf 12)))
     (Some (RNum (zf 9))) (Some (RNum (zf 11))) (Some (RNum (zf 100)))
     (Some (RNum (zf 11)));
   mkBar None (Some (RNum (zf 10))) (Some (RNum (zf 12)))
     (Some (RNum (zf 9))) (Some (RNum (zf 11))) (Some (RNum (zf 100))) None;
   mkBar (Some (RNum (zf 100))) (Some (RNum (zf 10))) (Some (RNum (zf 12)))
     (Some (RNum (zf 9))) (Some (RStr "n/d")) (Some (RNum (zf 100))) None;
   mkBar (Some (RNum (zf 200))) (Some (RNum (zf 20))) (Some (RNum (zf 22)))
     (Some (RNum (zf 19))) (Some (RStr "21")) None None].

Definition brapi_calls : list (string * Reply) :=
  [("VALE3", Payload (Some [mkQuote (Some brapi_history)]));
   ("XXXX3", Payload (Some []));
   ("PETR4", Payload (Some [mkQuote (Some brapi_history)]));
   ("ITUB4", RequestFailed "timeout")]%string.

Definition brapi_frame : Ohlcv :=
  @frame_of_history toy_pandas insertion_dates brapi_history.

Definition brapi_result : Fetched :=
  match @fetch_many toy_pandas insertion_dates brapi_calls "data/raw"
          "ibov_top40_long.csv" with
  | Got _ _ r => r
  | Failed _ _ _ => mkFetched (mkFrame [] [] []) [] []
  end.

Lemma fetch_ohlcv_clean_witness :
  map fst (o_columns brapi_frame)
  = ["open"; "high"; "low"; "close"; "volume"; "adjustedClose"]%string
  /\ Forall (fun nc => length (snd nc) = length (o_date brapi_frame))
       (o_columns brapi_frame)
  /\ (forall close, In ("close"%string, close) (o_columns brapi_frame) ->
                    Forall (fun x => notna x = true) close)
  /\ StronglySorted Z.le (o_date brapi_frame).
Proof.
  apply (@fetch_ohlcv_clean toy_pandas insertion_dates "VALE3"
           (Payload (Some [mkQuote (Some brapi_history)]))).
  reflexivity.
Defined.

Lemma fetch_ohlcv_rows_witness :
  Permutation (ohlcv_rows brapi_frame)
    (map dated
       (filter row_kept
          (map (@bar_row toy_pandas insertion_dates) brapi_history))).
Proof.
  apply (@fetch_ohlcv_rows toy_pandas insertion_dates "VALE3"
           (mkQuote (Some brapi_history)) [] brapi_history).
  - reflexivity.
  - reflexivity.
Defined.

Lemma fetch_many_books_witness :
  failed brapi_result = @failed_calls toy_pandas insertion_dates brapi_calls
  /\ length (@fetched_frames toy_pandas insertion_dates brapi_calls)
     + length (failed brapi_result) = length brapi_calls
  /\ files brapi_result
     = map (ticker_file "data/raw")
         (@fetched_frames toy_pandas insertion_dates brapi_calls)
       ++ [(path_join "data/raw" "ibov_top40_long.csv",
            LongCsv (combined brapi_result))]
       ++ match failed brapi_result with
          | [] => []
          | _ :: _ =>
              [(path_join "data/raw" "failures_top40.txt",
                FailureLog (failed brapi_result))]
          end.
Proof.
  apply (@fetch_many_books toy_pandas insertion_dates brapi_calls).
  vm_compute. reflexivity.
Defined.

Lemma fetch_many_table_witness :
  wf_frame (combined brapi_result) = true
  /\ ("date" :: "ticker" :: column_names (combined brapi_result))%string
     = required_columns
  /\ (exists close,
        getf (combined brapi_result) "close" = Ok close
        /\ Forall (fun x => notna x = true) close)
  /\ StronglySorted (fun a b => row_leb a b = true)
       (rows (combined brapi_result))
  /\ Permutation (rows (combined brapi_result))
       (flat_map (fun p => rows (long_frame (fst p) (snd p)))
          (@fetched_frames toy_pandas insertion_dates brapi_calls)).
Proof.
  apply (@fetch_many_table toy_pandas insertion_dates brapi_calls "data/raw"
           "ibov_top40_long.csv").
  vm_compute. reflexivity.
Defined.

(** The sample above, evaluated: two rows per ticker that answered, in
    order of (date, ticker), and the two failures. *)
Lemma fetch_many_sample :
  ticker (combined brapi_result) = ["PETR4"; "VALE3"; "PETR4"; "VALE3"]%string
  /\ date (combined brapi_result) = [200; 200; 300; 300]%Z
  /\ getf (combined brapi_result) "close"
     = Ok [zf 21; zf 21; zf 11; zf 11]
  /\ failed brapi_result
     = [("XXXX3", NoResults "XXXX3");
        ("ITUB4", RequestException "timeout")]%string
  /\ map fst (files brapi_result)
     = ["data/raw/VALE3.csv"; "data/raw/PETR4.csv";
        "data/raw/ibov_top40_long.csv"; "data/raw/failures_top40.txt"]%string.
Proof. vm_compute. repeat split; reflexivity. Qed.
